(** * zikrr: the concurrent repository synchronisation engine

    A shallow embedding of [internal/git/clone.go] and
    [internal/git/repository.go].

    - Go's [int] and [time.Duration] are 64-bit two's-complement integers
      (a 64-bit platform is assumed for [int]); they are carried as [Z] with
      the wrap-around written out.
    - The operating system and the [git] binary are an oracle [Env]: every
      external call is answered by a function of the moment of the call (the
      number of events that happened before it) and of its arguments.  The
      calls, the sleeps and the progress callbacks are recorded, in order, in
      the [World].
    - [opts.ProgressFunc] is a callback; its invocations are the [EvProgress]
      events of the executor, and the closure installed by [CloneAll] is
      [progressFunc] in module [Manager].  The closure refers to the
      variable [repo] of [for _, repo := range rm.repositories].  The
      version the repository names is Go 1.21, where that is one variable
      for the whole loop (a variable per iteration comes with Go 1.22, for
      modules that declare it): every closure sees what the variable holds
      when the closure is called, and by then the loop is over.
    - [CloneRepositories] is a transition system over the goroutines it
      starts, the semaphore channel, the wait group and the result channel
      (module [Pool]).  A call of [CloneRepository] inside a worker is one
      step, which the worker takes when the call returns in the world the
      job meets; a call that does not return leaves its worker where it
      is.  [maxConcurrent] is a natural number: [make] panics on a negative
      capacity, and no run starts.
    - The updates [CloneAll] makes to the repositories are a second
      transition system (module [Manager]); the channel [updates], on which
      it also sends the pointer of each repository it has updated, carries
      no value of its own and is left out.
    - Diagnostic logging ([util.Info], [util.Debug], [util.Error]) has no
      effect on the values studied here and is left out. *)

From Stdlib Require Import ZArith Lia String Ascii DecimalString.
From stdpp Require Import base list strings.

Open Scope Z_scope.

(** ** Go integers *)

Module GoInt.

Definition wrap (z : Z) : Z := (z + 2 ^ 63) mod 2 ^ 64 - 2 ^ 63.

Definition max_int : Z := 2 ^ 63 - 1.
Definition min_int : Z := - 2 ^ 63.

Definition in_range (z : Z) : Prop := min_int <= z <= max_int.

Definition add (a b : Z) : Z := wrap (a + b).
Definition sub (a b : Z) : Z := wrap (a - b).
Definition mul (a b : Z) : Z := wrap (a * b).

(** [uint(x)] *)
Definition to_uint (x : Z) : Z := x mod 2 ^ 64.

(** [x << s] on a signed 64-bit left operand, [s] an unsigned count:
    a count of 64 or more shifts every bit out. *)
Definition shl (x s : Z) : Z :=
  if 64 <=? s then 0 else wrap (Z.shiftl x s).

End GoInt.

(** ** Strings and formatting *)

Definition nl : string := String (ascii_of_nat 10) EmptyString.

(** [%d] of an integer. *)
Definition itoa (z : Z) : string := NilZero.string_of_int (Z.to_int z).

(** [strings.Contains] *)
Fixpoint strings_Contains (s substr : string) : bool :=
  String.prefix substr s ||
  match s with
  | EmptyString => false
  | String _ s' => strings_Contains s' substr
  end.

(** [time.Duration]: nanoseconds in a signed 64-bit integer, and its
    [String] method, which is what [%v] prints. *)
Module Duration.

Definition Nanosecond : Z := 1.
Definition Microsecond : Z := 1000 * Nanosecond.
Definition Millisecond : Z := 1000 * Microsecond.
Definition Second : Z := 1000 * Millisecond.
Definition Minute : Z := 60 * Second.

Definition digit (d : Z) : ascii := ascii_of_nat (48 + Z.to_nat d).

(** [fmtFrac]: the fraction [v / 10^prec] without trailing zeros, written
    in front of [tail]; returns the text and [v / 10^prec]. *)
Fixpoint fmtFrac_loop (prec : nat) (v : Z) (print : bool) (tail : string)
  : string * Z * bool :=
  match prec with
  | O => (tail, v, print)
  | S p =>
      let d := v mod 10 in
      let print' := print || negb (d =? 0) in
      let tail' := if print' then String (digit d) tail else tail in
      fmtFrac_loop p (v / 10) print' tail'
  end.

Definition fmtFrac (v : Z) (prec : nat) (tail : string) : string * Z :=
  let '(t, v', print) := fmtFrac_loop prec v false tail in
  (if print then String "."%char t else t, v').

Definition micro : string :=
  String (ascii_of_nat 194) (String (ascii_of_nat 181) EmptyString).

Definition String (d : Z) : string :=
  let neg := d <? 0 in
  let u := if neg then (- d) mod 2 ^ 64 else d in
  let body :=
    if u <? Second then
      if u =? 0 then "0s"
      else if u <? Microsecond then itoa u +:+ "ns"
      else if u <? Millisecond then
        let '(t, u') := fmtFrac u 3 (micro +:+ "s") in itoa u' +:+ t
      else
        let '(t, u') := fmtFrac u 6 "ms" in itoa u' +:+ t
    else
      let '(t, secs) := fmtFrac u 9 "s" in
      let s := itoa (secs mod 60) +:+ t in
      let mins := secs / 60 in
      if 0 <? mins then
        let s := itoa (mins mod 60) +:+ "m" +:+ s in
        let hours := mins / 60 in
        if 0 <? hours then itoa hours +:+ "h" +:+ s else s
      else s in
  if neg then "-" +:+ body else body.

End Duration.

(** ** Errors

    [fmt.Errorf] without [%w] gives a plain error carrying its text; with one
    [%w] it gives an error carrying the text and the wrapped operand, which is
    [nil] when the operand was. *)
#[warnings="-register-all"]
Inductive error : Type :=
| errorString (s : string)
| wrapError (msg : string) (err : option error).

Definition Error (e : error) : string :=
  match e with
  | errorString s => s
  | wrapError msg _ => msg
  end.

Definition Unwrap (e : error) : option error :=
  match e with
  | errorString _ => None
  | wrapError _ err => err
  end.

(** The text [%w] and [%v] print for an error operand. *)
Definition fmt_err (e : option error) : string :=
  match e with
  | Some e => Error e
  | None => "%!w(<nil>)"
  end.

(** ** Clone options *)

Inductive ExistingRepoStrategy : Type :=
| SkipExisting
| OverwriteExisting
| FetchOnly.

Module CloneOptions.
Record t : Type := mk {
  URL : string;
  TargetDir : string;
  Branch : string;
  Timeout : Z;
  MaxRetries : Z;
  ConnTimeout : Z;
  CloneTimeout : Z;
  ExistingRepo : ExistingRepoStrategy
}.
End CloneOptions.

Definition DefaultCloneOptions : CloneOptions.t :=
  {| CloneOptions.URL := "";
     CloneOptions.TargetDir := "";
     CloneOptions.Branch := "";
     CloneOptions.Timeout := 0;
     CloneOptions.MaxRetries := 3;
     CloneOptions.ConnTimeout := 60 * Duration.Second;
     CloneOptions.CloneTimeout := 10 * Duration.Minute;
     CloneOptions.ExistingRepo := SkipExisting |}.

Module CloneResult.
Record t : Type := mk {
  RepoURL : string;
  Success : bool;
  Error : option error
}.
End CloneResult.

(** ** The outside world *)

Inductive Event : Type :=
| EvMkdirAll (dir : string)
| EvStat (path : string)
| EvRemoveAll (dir : string)
| EvGetwd
| EvChdir (dir : string)
| EvGit (timeout : Z) (args : list string)
| EvSleep (d : Z)
| EvProgress (status : string).

(** The world is the history of events; the moment of a call is the number
    of events before it. *)
Definition World : Type := list Event.

Definition now (w : World) : nat := length w.

Record Env : Type := {
  os_MkdirAll : nat -> string -> option error;
  os_Stat : nat -> string -> option error;
  os_RemoveAll : nat -> string -> option error;
  os_Getwd : nat -> string * option error;
  os_Chdir : nat -> string -> option error;
  (** [exec.CommandContext(ctx, "git", args...).CombinedOutput()], the context
      carrying the given timeout. *)
  git_CombinedOutput : nat -> Z -> list string -> string * option error;
  filepath_Join : list string -> string
}.

Section Executor.

Variable E : Env.

Definition MkdirAll (dir : string) (w : World) : option error * World :=
  (os_MkdirAll E (now w) dir, w ++ [EvMkdirAll dir]).

Definition Stat (path : string) (w : World) : option error * World :=
  (os_Stat E (now w) path, w ++ [EvStat path]).

Definition RemoveAll (dir : string) (w : World) : option error * World :=
  (os_RemoveAll E (now w) dir, w ++ [EvRemoveAll dir]).

Definition Getwd (w : World) : (string * option error) * World :=
  (os_Getwd E (now w), w ++ [EvGetwd]).

Definition Chdir (dir : string) (w : World) : option error * World :=
  (os_Chdir E (now w) dir, w ++ [EvChdir dir]).

Definition git (timeout : Z) (args : list string) (w : World)
  : (string * option error) * World :=
  (git_CombinedOutput E (now w) timeout args, w ++ [EvGit timeout args]).

Definition Sleep (d : Z) (w : World) : World := w ++ [EvSleep d].

Definition ProgressFunc (status : string) (w : World) : World :=
  w ++ [EvProgress status].

Definition isGitRepo (dir : string) (w : World) : bool * World :=
  let gitDir := filepath_Join E [dir; ".git"] in
  let '(err, w) := Stat gitDir w in
  match err with
  | Some _ => (false, w)
  | None => (true, w)
  end.

Definition fetchAndUpdate (opts : CloneOptions.t) (w : World)
  : option error * World :=
  let w := ProgressFunc
             ("Updating existing repository: " +:+ CloneOptions.URL opts) w in
  let '((currentDir, err), w) := Getwd w in
  match err with
  | Some err =>
      (Some (wrapError ("failed to get current directory: " +:+ Error err)
               (Some err)), w)
  | None =>
  let '(err, w) := Chdir (CloneOptions.TargetDir opts) w in
  match err with
  | Some err =>
      (Some (wrapError
               ("failed to change to repository directory: " +:+ Error err)
               (Some err)), w)
  | None =>
  (* from here on every return runs the deferred [os.Chdir(currentDir)] *)
  let '((output, err), w) :=
    git (CloneOptions.ConnTimeout opts) ["fetch"; "--all"; "--prune"] w in
  match err with
  | Some err =>
      let '(_, w) := Chdir currentDir w in
      (Some (wrapError
               ("failed to fetch updates: " +:+ Error err +:+ nl +:+
                "Output: " +:+ output) (Some err)), w)
  | None =>
  let resetArgs :=
    if String.eqb (CloneOptions.Branch opts) ""
    then ["reset"; "--hard"; "origin/HEAD"]
    else ["reset"; "--hard"; "origin/" +:+ CloneOptions.Branch opts] in
  let '((output, err), w) := git (CloneOptions.ConnTimeout opts) resetArgs w in
  match err with
  | Some err =>
      let '(_, w) := Chdir currentDir w in
      (Some (wrapError
               ("failed to reset branch: " +:+ Error err +:+ nl +:+
                "Output: " +:+ output) (Some err)), w)
  | None =>
  let w := ProgressFunc
             ("Successfully updated repository: " +:+ CloneOptions.URL opts) w in
  let '(_, w) := Chdir currentDir w in
  (None, w)
  end end end end.

Definition handleExistingRepo (opts : CloneOptions.t) (w : World)
  : option error * World :=
  let '(isRepo, w) := isGitRepo (CloneOptions.TargetDir opts) w in
  if negb isRepo then (None, w)
  else
    match CloneOptions.ExistingRepo opts with
    | SkipExisting =>
        let w := ProgressFunc
                   ("Skipping existing repository: " +:+ CloneOptions.URL opts) w in
        (Some (errorString
                 ("repository already exists: " +:+ CloneOptions.TargetDir opts)),
         w)
    | OverwriteExisting =>
        let w := ProgressFunc
                   ("Removing existing repository: " +:+
                    CloneOptions.TargetDir opts) w in
        let '(err, w) := RemoveAll (CloneOptions.TargetDir opts) w in
        match err with
        | Some err =>
            (Some (wrapError
                     ("failed to remove existing repository: " +:+ Error err)
                     (Some err)), w)
        | None => (None, w)
        end
    | FetchOnly => fetchAndUpdate opts w
    end.

(** [time.Duration(1<<uint(attempt-1)) * time.Second] *)
Definition backoff (attempt : Z) : Z :=
  GoInt.mul (GoInt.shl 1 (GoInt.to_uint (GoInt.sub attempt 1)))
    Duration.Second.

Definition retrying_msg (opts : CloneOptions.t) (attempt : Z) : string :=
  "Retrying in " +:+ Duration.String (backoff attempt) +:+
  "... (attempt " +:+ itoa (GoInt.add attempt 1) +:+ "/" +:+
  itoa (CloneOptions.MaxRetries opts) +:+ ")".

Definition clone_args (opts : CloneOptions.t) : list string :=
  (if String.eqb (CloneOptions.Branch opts) ""
   then ["clone"]
   else ["clone"; "-b"; CloneOptions.Branch opts])
  ++ ["--progress"; CloneOptions.URL opts; CloneOptions.TargetDir opts].

Definition clone_failed (err : error) (output : string) : error :=
  wrapError ("clone failed: " +:+ Error err +:+ nl +:+ "Output: " +:+ output)
    (Some err).

Definition attempt_failed_msg (attempt : Z) (lastErr : error) : string :=
  "Clone attempt " +:+ itoa (GoInt.add attempt 1) +:+ " failed: " +:+
  Error lastErr.

Definition clone_exhausted (opts : CloneOptions.t) (lastErr : option error)
  : error :=
  wrapError
    ("failed to clone after " +:+ itoa (CloneOptions.MaxRetries opts) +:+
     " attempts: " +:+ fmt_err lastErr) lastErr.

(** The retry loop of [CloneRepository],
    [for attempt := 0; attempt <= opts.MaxRetries; attempt++].  [fuel]
    bounds the number of times the body runs; [None] is a loop that has
    not ended within it. *)
Fixpoint retry_loop (fuel : nat) (opts : CloneOptions.t) (attempt : Z)
  (lastErr : option error) (w : World) : option (option error * World) :=
  if attempt <=? CloneOptions.MaxRetries opts then
    match fuel with
    | O => None
    | S fuel =>
        let w :=
          if 0 <? attempt then
            let msg := retrying_msg opts attempt in
            let w := ProgressFunc msg w in
            Sleep (backoff attempt) w
          else w in
        let '((output, err), w) :=
          git (CloneOptions.CloneTimeout opts) (clone_args opts) w in
        match err with
        | None =>
            let w := ProgressFunc
                       ("Successfully cloned " +:+ CloneOptions.URL opts) w in
            Some (None, w)
        | Some err =>
            let lastErr := clone_failed err output in
            let w := ProgressFunc (attempt_failed_msg attempt lastErr) w in
            retry_loop fuel opts (GoInt.add attempt 1) (Some lastErr) w
        end
    end
  else Some (Some (clone_exhausted opts lastErr), w).

Definition CloneRepository (fuel : nat) (opts : CloneOptions.t) (w : World)
  : option (option error * World) :=
  let '(err, w) := MkdirAll (CloneOptions.TargetDir opts) w in
  match err with
  | Some err =>
      Some (Some (wrapError
                    ("failed to create target directory: " +:+ Error err)
                    (Some err)), w)
  | None =>
      let '(err, w) := handleExistingRepo opts w in
      match err with
      | Some err =>
          match CloneOptions.ExistingRepo opts with
          | SkipExisting => Some (None, w)
          | _ => Some (Some err, w)
          end
      | None => retry_loop fuel opts 0 None w
      end
  end.

End Executor.

(** [CloneRepositories] builds this from what [CloneRepository] returned. *)
Definition clone_result (opts : CloneOptions.t) (err : option error)
  : CloneResult.t :=
  {| CloneResult.RepoURL := CloneOptions.URL opts;
     CloneResult.Success := match err with None => true | Some _ => false end;
     CloneResult.Error := err |}.

(** The statuses the progress callback was given, in order. *)
Definition progress_of (tr : list Event) : list string :=
  omap (fun ev => match ev with EvProgress s => Some s | _ => None end) tr.

(** ** The repository manager *)

Inductive RepositoryStatus : Type :=
| StatusPending
| StatusCloning
| StatusRetrying
| StatusSuccess
| StatusFailed
| StatusSkipped
| StatusUpdating.

Module Repository.
Record t : Type := mk {
  Name : string;
  Organization : string;
  URL : string;
  Branch : string;
  Status : RepositoryStatus;
  Error : option error;
  Progress : string;
  ExistingRepo : ExistingRepoStrategy
}.

Definition with_Status (st : RepositoryStatus) (r : t) : t :=
  mk (Name r) (Organization r) (URL r) (Branch r) st (Error r) (Progress r)
     (ExistingRepo r).

Definition with_Error (e : option error) (r : t) : t :=
  mk (Name r) (Organization r) (URL r) (Branch r) (Status r) e (Progress r)
     (ExistingRepo r).

Definition with_Progress (p : string) (r : t) : t :=
  mk (Name r) (Organization r) (URL r) (Branch r) (Status r) (Error r) p
     (ExistingRepo r).
End Repository.

Module Manager.

(** [rm.repositories] is a slice of pointers: a repository is named by its
    position, and every update is made in place at that position. *)
Record RepositoryManager : Type := {
  repositories : list Repository.t;
  baseDir : string;
  maxConcurrent : nat
}.

Definition NewRepositoryManager (baseDir : string) (maxConcurrent : nat)
  : RepositoryManager :=
  {| repositories := []; baseDir := baseDir; maxConcurrent := maxConcurrent |}.

Definition AddRepository (org name url branch : string)
  (strategy : ExistingRepoStrategy) (rm : RepositoryManager)
  : RepositoryManager :=
  {| repositories :=
       repositories rm ++
       [Repository.mk name org url branch StatusPending None "" strategy];
     baseDir := baseDir rm;
     maxConcurrent := maxConcurrent rm |}.

Definition is_pending (st : RepositoryStatus) : bool :=
  match st with StatusPending => true | _ => false end.

Definition options_for (E : Env) (baseDir : string) (repo : Repository.t)
  : CloneOptions.t :=
  {| CloneOptions.URL := Repository.URL repo;
     CloneOptions.TargetDir :=
       filepath_Join E
         [baseDir; Repository.Organization repo; Repository.Name repo];
     CloneOptions.Branch := Repository.Branch repo;
     CloneOptions.Timeout := CloneOptions.Timeout DefaultCloneOptions;
     CloneOptions.MaxRetries := CloneOptions.MaxRetries DefaultCloneOptions;
     CloneOptions.ConnTimeout := CloneOptions.ConnTimeout DefaultCloneOptions;
     CloneOptions.CloneTimeout := CloneOptions.CloneTimeout DefaultCloneOptions;
     CloneOptions.ExistingRepo := Repository.ExistingRepo repo |}.

(** The first loop of [CloneAll]: one job per pending repository, each
    with the position of its repository, by which the job is known. *)
Fixpoint prepare (E : Env) (baseDir : string) (i : nat)
  (repos : list Repository.t) : list (nat * CloneOptions.t) :=
  match repos with
  | [] => []
  | repo :: rest =>
      if is_pending (Repository.Status repo)
      then (i, options_for E baseDir repo) :: prepare E baseDir (S i) rest
      else prepare E baseDir (S i) rest
  end.

(** The status the progress callback derives from the text it is given. *)
Definition status_of_progress (status : string) : RepositoryStatus :=
  if strings_Contains status "Updating" then StatusUpdating
  else if strings_Contains status "Skipping" then StatusSkipped
  else StatusCloning.

(** The repository the variable [repo] holds once the first loop of
    [CloneAll] is over: the last of the list, pending or not.  It is the one
    every closure [opts.ProgressFunc] writes to, since the closures are
    called by the workers, which start after the loop. *)
Definition captured (repos : list Repository.t) : nat := pred (length repos).

(** The closure [opts.ProgressFunc], [i] being the position of the
    repository [repo] holds when the closure is called. *)
Definition progressFunc (i : nat) (status : string)
  (repos : list Repository.t) : list Repository.t :=
  alter (fun repo =>
           Repository.with_Status (status_of_progress status)
             (Repository.with_Progress status repo)) i repos.

(** The search for the repository of a result: the first one whose URL is
    the result's. *)
Fixpoint find_repo (url : string) (repos : list Repository.t) : option nat :=
  match repos with
  | [] => None
  | r :: rest =>
      if String.eqb (Repository.URL r) url then Some 0%nat
      else S <$> find_repo url rest
  end.

Definition record_result (result : CloneResult.t) (repo : Repository.t)
  : Repository.t :=
  if CloneResult.Success result then
    match Repository.Status repo with
    | StatusSkipped => repo
    | _ => Repository.with_Status StatusSuccess repo
    end
  else
    Repository.with_Error (CloneResult.Error result)
      (Repository.with_Status StatusFailed repo).

(** The body of [for result := range results] in [CloneAll]. *)
Definition handle_result (result : CloneResult.t)
  (repos : list Repository.t) : list Repository.t :=
  match find_repo (CloneResult.RepoURL result) repos with
  | None => repos
  | Some i => alter (record_result result) i repos
  end.

(** The updates a run makes to the repositories: the progress callbacks,
    run by the workers, and the handling of results, run by [CloneAll]'s
    own goroutine.  Each is made under the repository's lock. *)
Inductive Update : Type :=
| UpProgress (i : nat) (status : string)
| UpResult (result : CloneResult.t).

Definition apply_update (u : Update) (repos : list Repository.t)
  : list Repository.t :=
  match u with
  | UpProgress i status => progressFunc i status repos
  | UpResult result => handle_result result repos
  end.

Definition apply_updates (us : list Update) (repos : list Repository.t)
  : list Repository.t :=
  foldl (fun repos u => apply_update u repos) repos us.

(** The updates of one job, in the order they are made: the statuses its
    executor reports, written to the repository [repo] holds, then the
    result [CloneRepositories] sends for it. *)
Definition job_updates (repo : nat) (opts : CloneOptions.t)
  (msgs : list string) (err : option error) : list Update :=
  map (UpProgress repo) msgs ++ [UpResult (clone_result opts err)].

(** A run in progress: the repositories, and for every job the position of
    its repository and the updates it has still to make. *)
Record RunState : Type := {
  repos : list Repository.t;
  todo : list (nat * list Update)
}.

(** The jobs run concurrently: any job that has an update left makes its
    next one. *)
Inductive run_step : RunState -> RunState -> Prop :=
| run_step_update repos js1 i u us js2 :
    run_step
      {| repos := repos; todo := js1 ++ (i, u :: us) :: js2 |}
      {| repos := apply_update u repos; todo := js1 ++ (i, us) :: js2 |}.

Inductive run_steps : RunState -> RunState -> Prop :=
| run_steps_refl s : run_steps s s
| run_steps_step s1 s2 s3 :
    run_step s1 s2 -> run_steps s2 s3 -> run_steps s1 s3.

(** The start of [CloneAll]: the jobs of the pending repositories; what
    the executor of the job of repository [i] will report and return is
    given by [plan i]. *)
Definition run_init (E : Env) (rm : RepositoryManager)
  (plan : nat -> list string * option error) : RunState :=
  {| repos := repositories rm;
     todo :=
       map (fun job : nat * CloneOptions.t =>
              (job.1, job_updates (captured (repositories rm)) job.2
                        (plan job.1).1 (plan job.1).2))
         (prepare E (baseDir rm) 0 (repositories rm)) |}.

Definition status_at (i : nat) (repos : list Repository.t)
  : option RepositoryStatus :=
  Repository.Status <$> repos !! i.

Definition is_terminal (st : RepositoryStatus) : bool :=
  match st with
  | StatusSuccess | StatusFailed | StatusSkipped => true
  | _ => false
  end.

End Manager.

(** ** The worker pool of [CloneRepositories] *)

Module Pool.

(** Where the goroutine of one job stands. *)
Inductive worker : Type :=
| Spawned (opts : CloneOptions.t)
    (* started; at [c.semaphore <- struct{}{}] *)
| Running (opts : CloneOptions.t)
    (* holds a slot; inside [c.CloneRepository] *)
| Returned (opts : CloneOptions.t) (err : option error)
    (* holds a slot; at [results <- result] *)
| Sent (opts : CloneOptions.t) (err : option error)
    (* holds a slot; at the deferred [<-c.semaphore] *)
| Released (opts : CloneOptions.t) (err : option error)
    (* at the deferred [c.wg.Done()] *)
| Finished (opts : CloneOptions.t) (err : option error).

Definition job_of (wk : worker) : CloneOptions.t :=
  match wk with
  | Spawned o | Running o | Returned o _ | Sent o _ | Released o _
  | Finished o _ => o
  end.

Definition holds_slot (wk : worker) : bool :=
  match wk with
  | Running _ | Returned _ _ | Sent _ _ => true
  | _ => false
  end.

Definition in_executor (wk : worker) : bool :=
  match wk with Running _ => true | _ => false end.

Definition is_finished (wk : worker) : bool :=
  match wk with Finished _ _ => true | _ => false end.

(** The result a worker has put on the channel, once it has. *)
Definition sent_result (wk : worker) : option CloneResult.t :=
  match wk with
  | Sent o e | Released o e | Finished o e => Some (clone_result o e)
  | _ => None
  end.

Record State : Type := {
  unspawned : list CloneOptions.t; (* what [for _, opts := range repos] has left *)
  workers : list worker;           (* the goroutines started, in order *)
  semaphore : nat;                 (* elements buffered in [c.semaphore] *)
  wg : nat;                        (* the counter of [c.wg] *)
  results : list CloneResult.t;    (* elements buffered in [results] *)
  closed : bool;                   (* [close(results)] has run *)
  received : list CloneResult.t    (* what the reader of [results] has got *)
}.

Definition init (repos : list CloneOptions.t) : State :=
  {| unspawned := repos; workers := []; semaphore := 0; wg := 0;
     results := []; closed := false; received := [] |}.

Definition count (p : worker -> bool) (ws : list worker) : nat :=
  sum_list_with (fun wk => if p wk then 1%nat else 0%nat) ws.

(** What [CloneRepository] returned to a worker that is past the call. *)
Definition returned_error (wk : worker) : option error :=
  match wk with
  | Returned _ e | Sent _ e | Released _ e | Finished _ e => e
  | _ => None
  end.

(** Every result written to the stream so far, the oldest first. *)
Definition delivered (s : State) : list CloneResult.t :=
  received s ++ results s.

Section Steps.

(** The outside world, as each job meets it: [outside k] answers the calls
    the executor of the [k]-th job makes, the moment of a call being the
    number of events of that job before it. *)
Variable outside : nat -> Env.

(** [maxConcurrent], the capacity of [c.semaphore], and [len(repos)],
    the capacity of [results]. *)
Variable maxConcurrent : nat.
Variable capacity : nat.

Inductive step : State -> State -> Prop :=
| step_spawn o rest ws sem n res cl rcv :
    (* [c.wg.Add(1); go func(opts) {...}(opts)] *)
    step (Build_State (o :: rest) ws sem n res cl rcv)
         (Build_State rest (ws ++ [Spawned o]) sem (S n) res cl rcv)
| step_acquire us ws1 o ws2 sem n res cl rcv :
    (* a send on the buffered semaphore, when it has room *)
    (sem < maxConcurrent)%nat ->
    step (Build_State us (ws1 ++ Spawned o :: ws2) sem n res cl rcv)
         (Build_State us (ws1 ++ Running o :: ws2) (S sem) n res cl rcv)
| step_handoff us ws ws' sem n res cl rcv i j o o' e :
    (* a send on an unbuffered semaphore meets a deferred receive *)
    maxConcurrent = 0%nat ->
    ws !! i = Some (Spawned o) ->
    ws !! j = Some (Sent o' e) ->
    ws' = <[j := Released o' e]> (<[i := Running o]> ws) ->
    step (Build_State us ws sem n res cl rcv)
         (Build_State us ws' sem n res cl rcv)
| step_execute us ws1 o fuel tr err ws2 sem n res cl rcv :
    (* [err := c.CloneRepository(ctx, opts)] returns, when it does *)
    CloneRepository (outside (length ws1)) fuel o [] = Some (err, tr) ->
    step (Build_State us (ws1 ++ Running o :: ws2) sem n res cl rcv)
         (Build_State us (ws1 ++ Returned o err :: ws2) sem n res cl rcv)
| step_send us ws1 o err ws2 sem n res cl rcv :
    (* [results <- result], when the buffer has room *)
    (length res < capacity)%nat ->
    step (Build_State us (ws1 ++ Returned o err :: ws2) sem n res cl rcv)
         (Build_State us (ws1 ++ Sent o err :: ws2) sem n
            (res ++ [clone_result o err]) cl rcv)
| step_release us ws1 o err ws2 sem n res cl rcv :
    (* the deferred [<-c.semaphore] takes a buffered element *)
    step (Build_State us (ws1 ++ Sent o err :: ws2) (S sem) n res cl rcv)
         (Build_State us (ws1 ++ Released o err :: ws2) sem n res cl rcv)
| step_done us ws1 o err ws2 sem n res cl rcv :
    (* the deferred [c.wg.Done()] *)
    step (Build_State us (ws1 ++ Released o err :: ws2) sem (S n) res cl rcv)
         (Build_State us (ws1 ++ Finished o err :: ws2) sem n res cl rcv)
| step_close ws sem res rcv :
    (* [c.wg.Wait()] returns, then the deferred [close(results)] *)
    step (Build_State [] ws sem 0 res false rcv)
         (Build_State [] ws sem 0 res true rcv)
| step_receive us ws sem n r res cl rcv :
    (* the reader of the stream takes the oldest buffered result *)
    step (Build_State us ws sem n (r :: res) cl rcv)
         (Build_State us ws sem n res cl (rcv ++ [r])).

Inductive reachable (repos : list CloneOptions.t) : State -> Prop :=
| reachable_init : reachable repos (init repos)
| reachable_step s s' :
    reachable repos s -> step s s' -> reachable repos s'.

(** The reader's [range] loop has ended: the stream is closed and
    drained. *)
Definition done (s : State) : Prop := closed s = true /\ results s = [].

(** A bound on the number of steps a state has left. *)
Definition rank (wk : worker) : nat :=
  match wk with
  | Spawned _ => 10
  | Running _ => 8
  | Returned _ _ => 6
  | Sent _ _ => 3
  | Released _ _ => 1
  | Finished _ _ => 0
  end.

Definition measure (s : State) : nat :=
  11 * length (unspawned s) + sum_list_with rank (workers s) +
  length (results s) + (if closed s then 0 else 1).

End Steps.

End Pool.


(** ** Observations on a trace *)

Definition is_clone (ev : Event) : bool :=
  match ev with
  | EvGit _ (cmd :: _) => String.eqb cmd "clone"
  | _ => false
  end.

Definition is_sleep (ev : Event) : bool :=
  match ev with EvSleep _ => true | _ => false end.

Definition is_stat (ev : Event) : bool :=
  match ev with EvStat _ => true | _ => false end.

Definition is_removal (ev : Event) : bool :=
  match ev with EvRemoveAll _ => true | _ => false end.

(** The events an invocation of the resolver and of the clone loop are
    recognised by. *)
Definition quiet (ev : Event) : bool :=
  negb (is_clone ev) && negb (is_sleep ev) && negb (is_stat ev).

Definition sleeps_of (tr : list Event) : list Z :=
  omap (fun ev => match ev with EvSleep d => Some d | _ => None end) tr.

Definition clones_in (tr : list Event) : nat :=
  length (filter (fun ev => is_clone ev = true) tr).

(** The target directory held a working copy when the resolver looked at
    moment [t]. *)
Definition working_copy_at (E : Env) (opts : CloneOptions.t) (t : nat) : Prop :=
  os_Stat E t (filepath_Join E [CloneOptions.TargetDir opts; ".git"]) = None.


Definition removals_in (tr : list Event) : nat :=
  length (filter (fun ev => is_removal ev = true) tr).

Definition stats_in (tr : list Event) : nat :=
  length (filter (fun ev => is_stat ev = true) tr).

(** ** Worlds for the examples *)

Definition join_slash (parts : list string) : string :=
  String.concat "/" parts.

(** Directories can be created and entered; [stat], [remove] and [fetch]
    answer every call of their kind, [clone t] the clone started at moment
    [t]. *)
Definition env_of (stat remove : option error) (fetch : string * option error)
  (clone : nat -> string * option error) : Env :=
  {| os_MkdirAll := fun _ _ => None;
     os_Stat := fun _ _ => stat;
     os_RemoveAll := fun _ _ => remove;
     os_Getwd := fun _ => ("/work", None);
     os_Chdir := fun _ _ => None;
     git_CombinedOutput := fun t _ args =>
       match args with
       | cmd :: _ =>
           if String.eqb cmd "clone" then clone t
           else if String.eqb cmd "fetch" then fetch
           else ("", None)
       | [] => ("", None)
       end;
     filepath_Join := join_slash |}.

Definition no_such_file : error := errorString "no such file or directory".
Definition exit_128 : error := errorString "exit status 128".
Definition denied : error := errorString "permission denied".

Definition opts_of (url dir : string) (retries : Z)
  (strategy : ExistingRepoStrategy) : CloneOptions.t :=
  {| CloneOptions.URL := url;
     CloneOptions.TargetDir := dir;
     CloneOptions.Branch := "";
     CloneOptions.Timeout := 0;
     CloneOptions.MaxRetries := retries;
     CloneOptions.ConnTimeout := 60 * Duration.Second;
     CloneOptions.CloneTimeout := 10 * Duration.Minute;
     CloneOptions.ExistingRepo := strategy |}.

(** ** The retry loop as the specification words it

    Attempt [k > 0] is preceded by a message and a sleep of [2^(k-1)]
    seconds; every attempt starts one clone and reports how it went. *)

Definition spec_backoff (k : Z) : Z := 2 ^ (k - 1) * Duration.Second.

Definition before_attempt (opts : CloneOptions.t) (k : Z) : list Event :=
  if 0 <? k then
    [EvProgress
       ("Retrying in " +:+ Duration.String (spec_backoff k) +:+
        "... (attempt " +:+ itoa (k + 1) +:+ "/" +:+
        itoa (CloneOptions.MaxRetries opts) +:+ ")");
     EvSleep (spec_backoff k)]
  else [].

Definition clone_event (opts : CloneOptions.t) : Event :=
  EvGit (CloneOptions.CloneTimeout opts) (clone_args opts).

(** A failed attempt, [f] being the output and the error of its clone. *)
Definition failed_attempt (opts : CloneOptions.t) (k : Z)
  (f : string * error) : list Event :=
  before_attempt opts k ++
  [clone_event opts;
   EvProgress ("Clone attempt " +:+ itoa (k + 1) +:+ " failed: " +:+
               Error (clone_failed f.2 f.1))].

Definition successful_attempt (opts : CloneOptions.t) (k : Z) : list Event :=
  before_attempt opts k ++
  [clone_event opts;
   EvProgress ("Successfully cloned " +:+ CloneOptions.URL opts)].

Fixpoint failed_attempts (opts : CloneOptions.t) (k : Z)
  (fails : list (string * error)) : list Event :=
  match fails with
  | [] => []
  | f :: fails => failed_attempt opts k f ++ failed_attempts opts (k + 1) fails
  end.

(** The error the loop holds after the failures [fails]. *)
Definition last_error (lastErr : option error) (fails : list (string * error))
  : option error :=
  match last fails with
  | Some f => Some (clone_failed f.2 f.1)
  | None => lastErr
  end.

(** ** Managers for the examples *)

Definition manager_of (targets : list (string * string * ExistingRepoStrategy))
  : Manager.RepositoryManager :=
  foldl (fun rm t =>
           Manager.AddRepository "acme" t.1.1 t.1.2 "" t.2 rm)
    (Manager.NewRepositoryManager "out" 5) targets.

(** ** Schedules

    A run is driven by naming, one after the other, the job that makes its
    next update. *)
Definition job_step (p : nat) (s : Manager.RunState) : Manager.RunState :=
  match Manager.todo s !! p with
  | Some (i, u :: us) =>
      {| Manager.repos := Manager.apply_update u (Manager.repos s);
         Manager.todo := <[p := (i, us)]> (Manager.todo s) |}
  | _ => s
  end.

Definition run_schedule (sched : list nat) (s : Manager.RunState)
  : Manager.RunState :=
  foldl (fun s p => job_step p s) s sched.

(** ** What holds of the pool at every moment *)

Definition pool_inv (maxConcurrent : nat) (jobs : list CloneOptions.t)
  (s : Pool.State) : Prop :=
  (Pool.job_of <$> Pool.workers s) ++ Pool.unspawned s = jobs /\
  Pool.semaphore s = Pool.count Pool.holds_slot (Pool.workers s) /\
  (Pool.semaphore s <= maxConcurrent)%nat /\
  Pool.wg s = Pool.count (fun wk => negb (Pool.is_finished wk)) (Pool.workers s) /\
  Pool.delivered s ≡ₚ omap Pool.sent_result (Pool.workers s) /\
  (Pool.closed s = true ->
   Pool.unspawned s = [] /\
   Forall (fun wk => Pool.is_finished wk = true) (Pool.workers s)).

(** A worker between its acquisition of a slot and its last deferred call. *)
Definition is_midway (wk : Pool.worker) : bool :=
  match wk with
  | Pool.Running _ | Pool.Returned _ _ | Pool.Sent _ _ | Pool.Released _ _ => true
  | _ => false
  end.

Definition is_spawned (wk : Pool.worker) : bool :=
  match wk with Pool.Spawned _ => true | _ => false end.

Definition past_call (wk : Pool.worker) : bool :=
  match wk with
  | Pool.Spawned _ | Pool.Running _ => false
  | _ => true
  end.

(** What the executor of a job returns in the world [E]: the error of the
    call, [MaxRetries + 1] rounds of the loop being enough for it to return
    (as they are whenever [MaxRetries] is below the largest [int]). *)
Definition outcome (E : Env) (opts : CloneOptions.t) : option error :=
  match CloneRepository E (Z.to_nat (CloneOptions.MaxRetries opts + 1))
          opts [] with
  | Some (err, _) => err
  | None => None
  end.

(** One result per job: for the [k]-th job, what its executor returns in
    the world the job meets. *)
Definition results_of (outside : nat -> Env) (jobs : list CloneOptions.t)
  : list CloneResult.t :=
  imap (fun k o => clone_result o (outcome (outside k) o)) jobs.

(** A worker past the call holds what the call returned. *)
Definition outcomes_inv (outside : nat -> Env) (s : Pool.State) : Prop :=
  forall k wk,
    Pool.workers s !! k = Some wk ->
    past_call wk = true ->
    exists fuel tr,
      CloneRepository (outside k) fuel (Pool.job_of wk) []
      = Some (Pool.returned_error wk, tr).

(** A world where nothing is in the way and every clone fails. *)
Definition unreachable_env : Env :=
  env_of (Some no_such_file) None ("", None)
    (fun _ => ("fatal: unable to access", Some exit_128)).

(** A world where no directory can be created. *)
Definition read_only_env : Env :=
  {| os_MkdirAll := fun _ _ => Some denied;
     os_Stat := fun _ _ => Some no_such_file;
     os_RemoveAll := fun _ _ => Some denied;
     os_Getwd := fun _ => ("/work", None);
     os_Chdir := fun _ _ => None;
     git_CombinedOutput := fun _ _ _ => ("", Some exit_128);
     filepath_Join := join_slash |}.

(** * The accessors of the manager, the repository filter and the selection view *)

From stdpp Require Import gmap.

Open Scope Z_scope.

(** ** More observations on a trace *)

(** An event of the retry loop: a clone, a sleep or a progress report. *)
Definition is_loop_event (ev : Event) : bool :=
  match ev with
  | EvSleep _ | EvProgress _ => true
  | EvGit _ _ => is_clone ev
  | _ => false
  end.

(** An event of [fetchAndUpdate]: a progress report, a look at or a change
    of the working directory, a git command that is not a clone. *)
Definition is_update_event (ev : Event) : bool :=
  match ev with
  | EvProgress _ | EvGetwd | EvChdir _ => true
  | EvGit _ _ => negb (is_clone ev)
  | _ => false
  end.

(** The directory an event creates or removes is [dir], and the directory
    it changes into is [dir] or [cwd]. *)
Definition touches_only (dir cwd : string) (ev : Event) : Prop :=
  match ev with
  | EvMkdirAll d | EvRemoveAll d => d = dir
  | EvChdir d => d = dir \/ d = cwd
  | _ => True
  end.

Definition with_policy (p : ExistingRepoStrategy) (opts : CloneOptions.t)
  : CloneOptions.t :=
  CloneOptions.mk (CloneOptions.URL opts) (CloneOptions.TargetDir opts)
    (CloneOptions.Branch opts) (CloneOptions.Timeout opts)
    (CloneOptions.MaxRetries opts) (CloneOptions.ConnTimeout opts)
    (CloneOptions.CloneTimeout opts) p.

(** ** [isDirEmpty]

    What [os.Open], [os.IsNotExist] and [f.Readdirnames(1)] answer. *)
Record DirEnv : Type := {
  dir_Open : string -> option error;
  dir_IsNotExist : error -> bool;
  dir_Readdirnames : string -> option error
}.

Definition isDirEmpty (D : DirEnv) (dir : string) : bool * option error :=
  match dir_Open D dir with
  | Some err =>
      if dir_IsNotExist D err then (true, None) else (false, Some err)
  | None =>
      match dir_Readdirnames D dir with
      | None => (false, None)
      | Some err =>
          if String.eqb (Error err) "EOF" then (true, None)
          else (false, Some err)
      end
  end.

(** A directory that does not exist, and one that is there and empty. *)
Definition dir_missing : DirEnv :=
  {| dir_Open := fun _ => Some no_such_file;
     dir_IsNotExist := fun err => String.eqb (Error err) "no such file or directory";
     dir_Readdirnames := fun _ => None |}.

Definition skip_notice (opts : CloneOptions.t) : string :=
  "Skipping existing repository: " +:+ CloneOptions.URL opts.

Definition cloned_notice (opts : CloneOptions.t) : string :=
  "Successfully cloned " +:+ CloneOptions.URL opts.

(** ** The other methods of the manager and of a repository *)

(** The search of [GetRepository]: the first repository of that
    organization and name. *)
Fixpoint find_by_name (org name : string) (repos : list Repository.t)
  : option nat :=
  match repos with
  | [] => None
  | r :: rest =>
      if String.eqb (Repository.Organization r) org &&
         String.eqb (Repository.Name r) name
      then Some 0%nat
      else S <$> find_by_name org name rest
  end.

Definition GetRepository (org name : string) (rm : Manager.RepositoryManager)
  : option nat :=
  find_by_name org name (Manager.repositories rm).

Definition GetRepositories (rm : Manager.RepositoryManager)
  : list Repository.t :=
  Manager.repositories rm.

Definition UpdateStatus (status : RepositoryStatus) (err : option error)
  (r : Repository.t) : Repository.t :=
  let r := Repository.with_Status status r in
  match err with
  | Some _ => Repository.with_Error err r
  | None => r
  end.

Definition GetStatus (r : Repository.t)
  : RepositoryStatus * option error * string :=
  (Repository.Status r, Repository.Error r, Repository.Progress r).

Definition SetExistingRepoStrategy (strategy : ExistingRepoStrategy)
  (r : Repository.t) : Repository.t :=
  Repository.mk (Repository.Name r) (Repository.Organization r)
    (Repository.URL r) (Repository.Branch r) (Repository.Status r)
    (Repository.Error r) (Repository.Progress r) strategy.

(** ** What holds of a run at every moment, with the plan in view *)

(** How the repository of a job stands once its result has been handled. *)
Definition job_outcome (err : option error) (r : Repository.t) : Prop :=
  match err with
  | Some e =>
      Repository.Status r = StatusFailed /\ Repository.Error r = Some e
  | None =>
      Repository.Status r = StatusSuccess \/ Repository.Status r = StatusSkipped
  end.

(** Where a job stands in a run that started with the repositories [rs0].
    Either it has made all its updates; or it has statuses left, for the
    repository the callbacks write to, and last its result, which will go to
    its own repository.  That repository, unless the callbacks write to it,
    is as the run found it until the result is handled, and what the result
    made of it from then on. *)
Definition job_state (plan : nat -> list string * option error)
  (rs0 rs : list Repository.t) (job : nat * list Manager.Update) : Prop :=
  (job.2 = [] /\
   (job.1 <> Manager.captured rs0 ->
    exists r0 opts,
      rs0 !! job.1 = Some r0 /\
      rs !! job.1 =
        Some (Manager.record_result (clone_result opts (plan job.1).2) r0))) \/
  (exists msgs opts,
     job.2 = map (Manager.UpProgress (Manager.captured rs0)) msgs ++
             [Manager.UpResult (clone_result opts (plan job.1).2)] /\
     Manager.find_repo (CloneOptions.URL opts) rs = Some job.1 /\
     (job.1 <> Manager.captured rs0 -> rs !! job.1 = rs0 !! job.1)).

Definition run_state (plan : nat -> list string * option error)
  (rs0 : list Repository.t) (s : Manager.RunState) : Prop :=
  NoDup (Manager.todo s).*1 /\
  Forall (job_state plan rs0 (Manager.repos s)) (Manager.todo s) /\
  (forall i, i ∉ (Manager.todo s).*1 -> i <> Manager.captured rs0 ->
             Manager.repos s !! i = rs0 !! i).

(** ** Filtering the repositories of an organization
    ([internal/github/repository.go])

    A [github.Repository] is known by the fields the filter reads, each a
    pointer that may be [nil]; its getters give the zero value then.  A
    [time.Time] is the number of nanoseconds since the zero time.
    [strings.ToLower] and [strings.EqualFold] are parameters. *)

Module GitHub.

Record Repository : Type := mkRepository {
  FullName : option string;
  Private : option bool;
  Topics : list string;
  UpdatedAt : option Z;
  Size : option Z;
  Language : option string;
  Archived : option bool;
  Fork : option bool
}.

Definition GetFullName (r : Repository) : string := default "" (FullName r).
Definition GetPrivate (r : Repository) : bool := default false (Private r).
Definition GetUpdatedAt (r : Repository) : Z := default 0 (UpdatedAt r).
Definition GetSize (r : Repository) : Z := default 0 (Size r).
Definition GetLanguage (r : Repository) : string := default "" (Language r).
Definition GetArchived (r : Repository) : bool := default false (Archived r).
Definition GetFork (r : Repository) : bool := default false (Fork r).

Record RepositoryFilter : Type := mkFilter {
  Visibility : string;
  FilterTopics : list string;
  UpdatedAfter : Z;
  MinSize : Z;
  MaxSize : Z;
  FilterLanguage : string;
  FilterArchived : option bool;
  FilterFork : option bool
}.

Section Filter.

Variable ToLower : string -> string.
Variable EqualFold : string -> string -> bool.

(** The second loop of [hasAllTopics]. *)
Fixpoint all_required (topicMap : gmap string bool) (required : list string)
  : bool :=
  match required with
  | [] => true
  | r :: rest =>
      if negb (default false (topicMap !! ToLower r)) then false
      else all_required topicMap rest
  end.

Definition hasAllTopics (repoTopics requiredTopics : list string) : bool :=
  if (length requiredTopics =? 0)%nat then true
  else if (length repoTopics =? 0)%nat then false
  else
    let topicMap :=
      foldl (fun (m : gmap string bool) topic => <[ToLower topic := true]> m)
        ∅ repoTopics in
    all_required topicMap requiredTopics.

Definition matchesFilter (repo : Repository) (filter : RepositoryFilter)
  : bool :=
  if negb (String.eqb (Visibility filter) "") &&
     negb (String.eqb (Visibility filter) "all") &&
     ((String.eqb (Visibility filter) "public" && GetPrivate repo) ||
      (String.eqb (Visibility filter) "private" && negb (GetPrivate repo)))
  then false
  else if (0 <? length (FilterTopics filter))%nat &&
          negb (hasAllTopics (Topics repo) (FilterTopics filter))
  then false
  else if negb (UpdatedAfter filter =? 0) &&
          (GetUpdatedAt repo <? UpdatedAfter filter)
  then false
  else if (0 <? MinSize filter) && (GetSize repo <? MinSize filter)
  then false
  else if (0 <? MaxSize filter) && (MaxSize filter <? GetSize repo)
  then false
  else if negb (String.eqb (FilterLanguage filter) "") &&
          negb (EqualFold (GetLanguage repo) (FilterLanguage filter))
  then false
  else if match FilterArchived filter with
          | Some a => negb (Bool.eqb (GetArchived repo) a)
          | None => false
          end
  then false
  else if match FilterFork filter with
          | Some f => negb (Bool.eqb (GetFork repo) f)
          | None => false
          end
  then false
  else true.

Definition FilterRepositories (repos : list Repository)
  (filter : option RepositoryFilter) : list Repository :=
  match filter with
  | None => repos
  | Some filter =>
      foldl (fun filtered repo =>
               if negb (matchesFilter repo filter) then filtered
               else filtered ++ [repo])
        [] repos
  end.

End Filter.

(** [&gh.RepositoryFilter{}], the filter [NewModel] starts with. *)
Definition zero_filter : RepositoryFilter :=
  mkFilter "" [] 0 0 0 "" None None.

End GitHub.

(** ** The repository selection view ([internal/cli/tui/repositories.go])

    [Model] is passed by value but holds a pointer to its
    [RepositoriesModel], so that the updates below are made in place and
    seen by every copy; the model carries the state they leave.  A key
    message is its [String()].  [None] is a run-time panic (an index or a
    slice bound out of range). *)

Module Tui.

Definition reposPerPage : Z := 10.

Inductive View := ViewOrganization | ViewRepositories | ViewProgress.

Inductive Cmd := startCloning.

Inductive Msg :=
| reposMsg (repos : list GitHub.Repository)
| errMsg (e : error)
| KeyMsg (key : string)
| otherMsg.

Record RepositoriesModel := mkRepositoriesModel {
  repositories : list GitHub.Repository;
  selectedRepos : gmap string bool;
  cursor : Z;
  page : Z;
  totalPages : Z;
  filterVisible : bool;
  error : option error
}.

Record Model := mkModel {
  currentView : View;
  model_repositories : RepositoriesModel
}.

Definition NewRepositoriesModel : RepositoriesModel :=
  mkRepositoriesModel [] ∅ 0 0 0 false None.

(** [len(s)] *)
Definition len {A} (s : list A) : Z := Z.of_nat (length s).

(** [s[lo:hi]] of a slice whose capacity is its length. *)
Definition slice {A} (s : list A) (lo hi : Z) : option (list A) :=
  if (lo <? 0) || (hi <? lo) || (len s <? hi) then None
  else Some (take (Z.to_nat (hi - lo)) (drop (Z.to_nat lo) s)).

(** [s[i]] *)
Definition index {A} (s : list A) (i : Z) : option A :=
  if i <? 0 then None else s !! Z.to_nat i.

Definition with_cursor (r : RepositoriesModel) (c : Z) : RepositoriesModel :=
  mkRepositoriesModel (repositories r) (selectedRepos r) c (page r)
    (totalPages r) (filterVisible r) (error r).

Definition with_page (r : RepositoriesModel) (p : Z) : RepositoriesModel :=
  mkRepositoriesModel (repositories r) (selectedRepos r) (cursor r) p
    (totalPages r) (filterVisible r) (error r).

Definition SetRepositories (r : RepositoriesModel)
  (repos : list GitHub.Repository) : RepositoriesModel :=
  mkRepositoriesModel repos (selectedRepos r) 0 0
    (Z.quot (GoInt.sub (GoInt.add (len repos) reposPerPage) 1) reposPerPage)
    (filterVisible r) (error r).

Definition GetPageRepos (r : RepositoriesModel)
  : option (list GitHub.Repository) :=
  let start := GoInt.mul (page r) reposPerPage in
  let end_ := GoInt.add start reposPerPage in
  let end_ :=
    if len (repositories r) <? end_ then len (repositories r) else end_ in
  if len (repositories r) <=? start then Some []
  else slice (repositories r) start end_.

Definition key_is (key a b : string) : bool :=
  String.eqb key a || String.eqb key b.

Definition updateRepositoriesView (m : Model) (msg : Msg)
  : option (Model * option Cmd) :=
  let r := model_repositories m in
  let stay r' := Some (mkModel (currentView m) r', None) in
  match msg with
  | reposMsg repos => stay (SetRepositories r repos)
  | errMsg e =>
      stay (mkRepositoriesModel (repositories r) (selectedRepos r) (cursor r)
              (page r) (totalPages r) (filterVisible r) (Some e))
  | KeyMsg key =>
      if key_is key "up" "k" then
        if 0 <? cursor r then stay (with_cursor r (GoInt.sub (cursor r) 1))
        else stay r
      else if key_is key "down" "j" then
        match GetPageRepos r with
        | None => None
        | Some repos =>
            let maxCursor := GoInt.sub (len repos) 1 in
            if cursor r <? maxCursor
            then stay (with_cursor r (GoInt.add (cursor r) 1))
            else stay r
        end
      else if key_is key "left" "h" then
        if 0 <? page r
        then stay (with_cursor (with_page r (GoInt.sub (page r) 1)) 0)
        else stay r
      else if key_is key "right" "l" then
        if page r <? GoInt.sub (totalPages r) 1
        then stay (with_cursor (with_page r (GoInt.add (page r) 1)) 0)
        else stay r
      else if String.eqb key " " then
        match GetPageRepos r with
        | None => None
        | Some repos =>
            if cursor r <? len repos then
              match index repos (cursor r) with
              | None => None
              | Some repo =>
                  let fullName := GitHub.GetFullName repo in
                  stay (mkRepositoriesModel (repositories r)
                          (<[fullName :=
                               negb (default false
                                       (selectedRepos r !! fullName))]>
                             (selectedRepos r))
                          (cursor r) (page r) (totalPages r)
                          (filterVisible r) (error r))
              end
            else stay r
        end
      else if String.eqb key "f" then
        stay (mkRepositoriesModel (repositories r) (selectedRepos r)
                (cursor r) (page r) (totalPages r)
                (negb (filterVisible r)) (error r))
      else if String.eqb key "enter" then
        if 0 <? Z.of_nat (size (selectedRepos r))
        then Some (mkModel ViewProgress r, Some startCloning)
        else stay r
      else stay r
  | otherMsg => stay r
  end.

(** A slice of pointers in a 64-bit address space has fewer than [2^60]
    elements. *)
Definition fits {A} (s : list A) : Prop := len s < 2 ^ 60.

Definition msg_fits (msg : Msg) : Prop :=
  match msg with
  | reposMsg repos => fits repos
  | _ => True
  end.

(** The cursor is on an entry of the page shown, and the page shown is one of
    the pages; with no repository at all both stay at zero. *)
Definition on_page (r : RepositoriesModel) : Prop :=
  fits (repositories r) /\
  totalPages r = (len (repositories r) + 9) / 10 /\
  0 <= page r /\ (page r < totalPages r \/ page r = 0) /\
  exists shown,
    GetPageRepos r = Some shown /\
    shown = take 10 (drop (Z.to_nat (10 * page r)) (repositories r)) /\
    0 <= cursor r /\ (cursor r < len shown \/ cursor r = 0).

End Tui.
(** * Properties *)

Lemma wrap_small z : GoInt.in_range z -> GoInt.wrap z = z.
Proof.
  unfold GoInt.in_range, GoInt.min_int, GoInt.max_int, GoInt.wrap. intros H.
  rewrite Z.mod_small; lia.
Qed.

Lemma now_app (w tr : World) : now (w ++ tr) = (now w + length tr)%nat.
Proof. unfold now. apply length_app. Qed.

Lemma now_snoc (w : World) ev : now (w ++ [ev]) = S (now w).
Proof. rewrite now_app. simpl. lia. Qed.

(** ** The resolver *)

Ltac break_match :=
  match goal with
  | |- context [match ?x with _ => _ end] =>
      lazymatch x with
      | context [match _ with _ => _ end] => fail
      | _ => destruct x eqn:?
      end
  end.

Ltac trace_shape :=
  repeat (rewrite <- app_assoc; simpl);
  eexists; split; [reflexivity | repeat constructor].

Lemma fetchAndUpdate_trace E opts w r w' :
  fetchAndUpdate E opts w = (r, w') ->
  exists tr, w' = w ++ tr /\ Forall (fun ev => quiet ev = true) tr.
Proof.
  unfold fetchAndUpdate, Getwd, Chdir, git, ProgressFunc.
  repeat break_match; intros H; inversion H; subst; try trace_shape.
Qed.

Lemma handleExistingRepo_trace E opts w r w' :
  handleExistingRepo E opts w = (r, w') ->
  exists tr,
    w' = w ++ EvStat (filepath_Join E [CloneOptions.TargetDir opts; ".git"]) :: tr /\
    Forall (fun ev => quiet ev = true) tr.
Proof.
  unfold handleExistingRepo, isGitRepo, Stat, RemoveAll, ProgressFunc.
  destruct (os_Stat _ _ _) eqn:Hs; simpl.
  - intros H; inversion H; subst. exists []. auto.
  - destruct (CloneOptions.ExistingRepo opts) eqn:Hp.
    + intros H; inversion H; subst. trace_shape.
    + destruct (os_RemoveAll _ _ _); intros H; inversion H; subst; trace_shape.
    + intros H. apply fetchAndUpdate_trace in H. destruct H as (tr & -> & Hq).
      exists tr. rewrite <- app_assoc. auto.
Qed.

Lemma retry_loop_exhausted E fuel opts attempt lastErr w :
  CloneOptions.MaxRetries opts < attempt ->
  retry_loop E fuel opts attempt lastErr w =
  Some (Some (clone_exhausted opts lastErr), w).
Proof.
  intros H. destruct fuel; simpl;
    destruct (attempt <=? CloneOptions.MaxRetries opts) eqn:Hle;
    try reflexivity; apply Z.leb_le in Hle; lia.
Qed.

Lemma quiet_no_clones tr :
  Forall (fun ev => quiet ev = true) tr -> clones_in tr = 0%nat.
Proof.
  unfold clones_in. induction 1 as [|ev tr Hq _ IH]; [reflexivity|].
  rewrite filter_cons. destruct (decide (is_clone ev = true)) as [Hc|Hc].
  - unfold quiet in Hq. rewrite Hc in Hq. discriminate.
  - exact IH.
Qed.

Lemma quiet_no_sleeps tr :
  Forall (fun ev => quiet ev = true) tr -> sleeps_of tr = [].
Proof.
  unfold sleeps_of. induction 1 as [|ev tr Hq _ IH]; [reflexivity|].
  destruct ev; simpl in *; try exact IH. discriminate.
Qed.

Lemma quiet_no_stats tr :
  Forall (fun ev => quiet ev = true) tr -> stats_in tr = 0%nat.
Proof.
  unfold stats_in. induction 1 as [|ev tr Hq _ IH]; [reflexivity|].
  rewrite filter_cons. destruct (decide (is_stat ev = true)) as [Hc|Hc].
  - unfold quiet in Hq. rewrite Hc in Hq.
    rewrite andb_false_r in Hq. discriminate.
  - exact IH.
Qed.

(** ** The executor *)

(** C10: with [MaxRetries < 0], once the directory is created and the
    resolver has returned [nil], the loop body never runs: no clone is
    started, and [CloneRepository] returns an error that wraps [nil]. *)
Theorem CloneRepository_negative_MaxRetries E fuel opts w :
  CloneOptions.MaxRetries opts < 0 ->
  os_MkdirAll E (now w) (CloneOptions.TargetDir opts) = None ->
  (handleExistingRepo E opts
     (w ++ [EvMkdirAll (CloneOptions.TargetDir opts)])).1 = None ->
  exists e tr,
    CloneRepository E fuel opts w = Some (Some e, w ++ tr) /\
    e = clone_exhausted opts None /\
    Unwrap e = None /\
    clones_in tr = 0%nat /\
    sleeps_of tr = [].
Proof.
  intros Hneg Hmk Hres. unfold CloneRepository, MkdirAll. rewrite Hmk.
  destruct (handleExistingRepo _ _ _) as [r w1] eqn:Hh. simpl in Hres. subst r.
  apply handleExistingRepo_trace in Hh. destruct Hh as (tr & -> & Hq).
  rewrite retry_loop_exhausted by lia.
  eexists _, (EvMkdirAll _ :: EvStat _ :: tr).
  rewrite <- app_assoc. simpl. repeat split.
  - apply (quiet_no_clones tr Hq).
  - apply (quiet_no_sleeps tr Hq).
Qed.

Lemma CloneRepository_negative_MaxRetries_witness :
  exists e tr,
    CloneRepository (env_of (Some no_such_file) None ("", None) (fun _ => ("", None)))
      0 (opts_of "https://github.com/acme/tool.git" "out/acme/tool" (-1) SkipExisting) [] =
    Some (Some e, [] ++ tr) /\
    e = clone_exhausted
          (opts_of "https://github.com/acme/tool.git" "out/acme/tool" (-1) SkipExisting)
          None /\
    Unwrap e = None /\
    clones_in tr = 0%nat /\
    sleeps_of tr = [].
Proof.
  apply CloneRepository_negative_MaxRetries; [simpl; lia | reflexivity | reflexivity].
Defined.

(** C1 (as amended): under [FetchOnly], when the target holds a working copy
    and the update fails, [CloneRepository] returns the error of
    [fetchAndUpdate] as it is, in the world [fetchAndUpdate] left: the
    resolver has run once, and no clone and no back-off sleep has happened. *)
Theorem CloneRepository_FetchOnly_update_failed E fuel opts w e w' :
  CloneOptions.ExistingRepo opts = FetchOnly ->
  os_MkdirAll E (now w) (CloneOptions.TargetDir opts) = None ->
  working_copy_at E opts (S (now w)) ->
  fetchAndUpdate E opts
    (w ++ [EvMkdirAll (CloneOptions.TargetDir opts);
           EvStat (filepath_Join E [CloneOptions.TargetDir opts; ".git"])]) =
  (Some e, w') ->
  CloneRepository E fuel opts w = Some (Some e, w') /\
  exists tr,
    w' = w ++ EvMkdirAll (CloneOptions.TargetDir opts)
           :: EvStat (filepath_Join E [CloneOptions.TargetDir opts; ".git"]) :: tr /\
    clones_in tr = 0%nat /\ sleeps_of tr = [] /\ stats_in tr = 0%nat.
Proof.
  intros Hpol Hmk Hwc Hfetch. unfold working_copy_at in Hwc.
  pose proof (fetchAndUpdate_trace _ _ _ _ _ Hfetch) as (tr & Hw' & Hq).
  split.
  - unfold CloneRepository, MkdirAll. rewrite Hmk.
    unfold handleExistingRepo, isGitRepo, Stat.
    rewrite now_snoc, Hwc. simpl. rewrite Hpol.
    rewrite <- app_assoc. simpl. rewrite Hfetch. reflexivity.
  - exists tr. rewrite Hw', <- app_assoc. simpl.
    auto using quiet_no_clones, quiet_no_sleeps, quiet_no_stats.
Qed.

Lemma CloneRepository_FetchOnly_update_failed_witness :
  let E := env_of None None ("fatal: unable to access", Some exit_128)
             (fun _ => ("", None)) in
  let opts := opts_of "https://github.com/acme/tool.git" "out/acme/tool" 3 FetchOnly in
  exists e w',
    CloneRepository E 0 opts [] = Some (Some e, w') /\
    exists tr,
      w' = [] ++ EvMkdirAll "out/acme/tool" :: EvStat "out/acme/tool/.git" :: tr /\
      clones_in tr = 0%nat /\ sleeps_of tr = [] /\ stats_in tr = 0%nat.
Proof.
  intros E opts. eexists _, _.
  apply (CloneRepository_FetchOnly_update_failed E 0 opts []);
    [reflexivity | reflexivity | reflexivity | vm_compute; reflexivity].
Defined.

(** C1, as stated, fails.  A failed update is returned at once: with three
    retries allowed the resolver has run a single time and nothing has
    slept.  And a successful update is followed by the clone loop, all four
    attempts of it here, so that the call fails. *)
Lemma CloneRepository_FetchOnly_counterexample :
  let opts := opts_of "https://github.com/acme/tool.git" "out/acme/tool" 3 FetchOnly in
  (exists e tr,
     CloneRepository
       (env_of None None ("fatal: unable to access", Some exit_128)
          (fun _ => ("", None))) 10 opts [] = Some (Some e, tr) /\
     stats_in tr = 1%nat /\ sleeps_of tr = [] /\ clones_in tr = 0%nat) /\
  (exists e tr,
     CloneRepository
       (env_of None None ("", None)
          (fun _ => ("fatal: destination path already exists", Some exit_128)))
       10 opts [] = Some (Some e, tr) /\
     In (EvProgress "Successfully updated repository: https://github.com/acme/tool.git") tr /\
     clones_in tr = 4%nat).
Proof.
  split; eexists _, _; (split; [vm_compute; reflexivity|]).
  - repeat split.
  - split; [|reflexivity]. simpl. tauto.
Qed.

(** ** The retry loop *)

Lemma pow2_bounds n : 0 <= n <= 33 -> 1 <= 2 ^ n <= 2 ^ 33.
Proof.
  intros H. split.
  - pose proof (Z.pow_pos_nonneg 2 n). lia.
  - apply Z.pow_le_mono_r; lia.
Qed.

Lemma backoff_spec k : 1 <= k <= 34 -> backoff k = spec_backoff k.
Proof.
  intros Hk. unfold backoff, spec_backoff, GoInt.sub, GoInt.mul.
  assert (Hsub : GoInt.wrap (k - 1) = k - 1).
  { apply wrap_small. unfold GoInt.in_range, GoInt.min_int, GoInt.max_int. lia. }
  rewrite Hsub. unfold GoInt.to_uint. rewrite Z.mod_small by lia.
  unfold GoInt.shl. destruct (64 <=? k - 1) eqn:Hle; [apply Z.leb_le in Hle; lia|].
  rewrite Z.shiftl_1_l.
  pose proof (pow2_bounds (k - 1) ltac:(lia)) as Hp.
  assert (H33 : 2 ^ 33 = 8589934592) by reflexivity.
  assert (Hsec : Duration.Second = 1000000000) by reflexivity.
  rewrite (wrap_small (2 ^ (k - 1))).
  2:{ unfold GoInt.in_range, GoInt.min_int, GoInt.max_int. lia. }
  apply wrap_small. unfold GoInt.in_range, GoInt.min_int, GoInt.max_int.
  rewrite Hsec. nia.
Qed.

Lemma add_1_small k : 0 <= k <= 34 -> GoInt.add k 1 = k + 1.
Proof.
  intros H. apply wrap_small.
  unfold GoInt.in_range, GoInt.min_int, GoInt.max_int. lia.
Qed.

Lemma before_attempt_code opts k (w : World) :
  0 <= k <= 34 ->
  (if 0 <? k
   then Sleep (backoff k) (ProgressFunc (retrying_msg opts k) w)
   else w) = w ++ before_attempt opts k.
Proof.
  intros Hk. unfold before_attempt. destruct (0 <? k) eqn:Hpos.
  - apply Z.ltb_lt in Hpos. unfold Sleep, ProgressFunc, retrying_msg.
    rewrite backoff_spec, add_1_small by lia.
    rewrite <- app_assoc. reflexivity.
  - rewrite app_nil_r. reflexivity.
Qed.

Lemma last_error_cons lastErr f fails :
  last_error (Some (clone_failed f.2 f.1)) fails = last_error lastErr (f :: fails).
Proof.
  unfold last_error. destruct fails as [|g fails]; [reflexivity|].
  rewrite last_cons_cons. destruct (last (g :: fails)) eqn:Hl; [reflexivity|].
  apply last_None in Hl. discriminate.
Qed.

(** The shape of every run of the loop from attempt [k] on: failures, then
    either a success or the end of the attempts. *)
Lemma retry_loop_shape E opts :
  CloneOptions.MaxRetries opts <= 34 ->
  forall fuel k lastErr w,
    0 <= k <= CloneOptions.MaxRetries opts + 1 ->
    (Z.to_nat (CloneOptions.MaxRetries opts - k + 1) <= fuel)%nat ->
    exists fails,
      (retry_loop E fuel opts k lastErr w =
         Some (None, w ++ failed_attempts opts k fails ++
                     successful_attempt opts (k + Z.of_nat (length fails))) /\
       k + Z.of_nat (length fails) <= CloneOptions.MaxRetries opts) \/
      (retry_loop E fuel opts k lastErr w =
         Some (Some (clone_exhausted opts (last_error lastErr fails)),
               w ++ failed_attempts opts k fails) /\
       k + Z.of_nat (length fails) = CloneOptions.MaxRetries opts + 1).
Proof.
  intros Hmax. induction fuel as [|fuel IH]; intros k lastErr w Hk Hfuel.
  - exists []. right. rewrite retry_loop_exhausted by lia.
    simpl. rewrite app_nil_r. split; [reflexivity | lia].
  - destruct (Z_lt_le_dec (CloneOptions.MaxRetries opts) k) as [Hgt|Hle].
    + exists []. right. rewrite retry_loop_exhausted by lia.
      simpl. rewrite app_nil_r. split; [reflexivity | lia].
    + simpl. destruct (k <=? CloneOptions.MaxRetries opts) eqn:Hleb;
        [|apply Z.leb_gt in Hleb; lia].
      rewrite before_attempt_code by lia. unfold git.
      destruct (git_CombinedOutput E _ _ _) as [output [err|]] eqn:Hgit.
      * rewrite add_1_small by lia.
        destruct (IH (k + 1) (Some (clone_failed err output))
                    ((w ++ before_attempt opts k) ++
                       [EvGit (CloneOptions.CloneTimeout opts) (clone_args opts)]
                       ++ [EvProgress (attempt_failed_msg k (clone_failed err output))])
                    ltac:(lia) ltac:(lia)) as (fails & Hcase).
        exists ((output, err) :: fails).
        unfold ProgressFunc. rewrite <- !app_assoc in *.
        cbn [failed_attempts length]. unfold failed_attempt.
        cbn [fst snd]. unfold attempt_failed_msg in Hcase |- *.
        rewrite add_1_small in Hcase by lia. rewrite add_1_small by lia.
        rewrite <- (last_error_cons lastErr (output, err) fails). cbn [fst snd].
        replace (k + Z.of_nat (S (length fails)))
          with (k + 1 + Z.of_nat (length fails)) by lia.
        rewrite <- !app_assoc.
        exact Hcase.
      * exists []. left. unfold ProgressFunc, successful_attempt.
        simpl. rewrite Z.add_0_r, <- !app_assoc. split; [reflexivity | lia].
Qed.

Lemma sleeps_of_app tr1 tr2 : sleeps_of (tr1 ++ tr2) = sleeps_of tr1 ++ sleeps_of tr2.
Proof. apply omap_app. Qed.

Lemma clones_in_app tr1 tr2 : clones_in (tr1 ++ tr2) = (clones_in tr1 + clones_in tr2)%nat.
Proof. unfold clones_in. rewrite filter_app, length_app. reflexivity. Qed.

Lemma is_clone_clone_event opts : is_clone (clone_event opts) = true.
Proof.
  unfold clone_event, clone_args.
  destruct (String.eqb (CloneOptions.Branch opts) ""); reflexivity.
Qed.

Lemma clones_in_cons_clone opts tr :
  clones_in (clone_event opts :: tr) = S (clones_in tr).
Proof.
  unfold clones_in. rewrite filter_cons_True by apply is_clone_clone_event.
  reflexivity.
Qed.

Lemma before_attempt_sleeps opts k :
  1 <= k -> sleeps_of (before_attempt opts k) = [spec_backoff k] /\
            clones_in (before_attempt opts k) = 0%nat.
Proof.
  intros Hk. unfold before_attempt.
  destruct (0 <? k) eqn:Hpos; [|apply Z.ltb_ge in Hpos; lia].
  split; reflexivity.
Qed.

Lemma failed_attempt_sleeps opts k f :
  1 <= k -> sleeps_of (failed_attempt opts k f) = [spec_backoff k] /\
            clones_in (failed_attempt opts k f) = 1%nat.
Proof.
  intros Hk. unfold failed_attempt. rewrite sleeps_of_app, clones_in_app.
  destruct (before_attempt_sleeps opts k Hk) as [-> ->].
  rewrite clones_in_cons_clone. split; reflexivity.
Qed.

Lemma successful_attempt_sleeps opts k :
  1 <= k -> sleeps_of (successful_attempt opts k) = [spec_backoff k] /\
            clones_in (successful_attempt opts k) = 1%nat.
Proof.
  intros Hk. unfold successful_attempt. rewrite sleeps_of_app, clones_in_app.
  destruct (before_attempt_sleeps opts k Hk) as [-> ->].
  rewrite clones_in_cons_clone. split; reflexivity.
Qed.

Lemma first_attempt_sleeps opts :
  (forall f, sleeps_of (failed_attempt opts 0 f) = [] /\
             clones_in (failed_attempt opts 0 f) = 1%nat) /\
  sleeps_of (successful_attempt opts 0) = [] /\
  clones_in (successful_attempt opts 0) = 1%nat.
Proof.
  unfold failed_attempt, successful_attempt, before_attempt. simpl.
  repeat split; apply clones_in_cons_clone.
Qed.

Lemma failed_attempts_sleeps opts fails : forall k,
  1 <= k ->
  sleeps_of (failed_attempts opts k fails) =
    spec_backoff <$> seqZ k (Z.of_nat (length fails)) /\
  clones_in (failed_attempts opts k fails) = length fails.
Proof.
  induction fails as [|f fails IH]; intros k Hk; [split; reflexivity|].
  cbn [failed_attempts length]. rewrite sleeps_of_app, clones_in_app.
  destruct (failed_attempt_sleeps opts k f Hk) as [-> ->].
  destruct (IH (k + 1) ltac:(lia)) as [-> ->].
  rewrite (seqZ_cons k) by lia.
  replace (Z.pred (Z.of_nat (S (length fails)))) with (Z.of_nat (length fails)) by lia.
  split; reflexivity.
Qed.

(** The sleeps of a run from attempt 0 are those of the attempts 1, 2, ...
    up to the last one started. *)
Lemma run_sleeps opts fails (success : bool) :
  let tr := failed_attempts opts 0 fails ++
            (if success
             then successful_attempt opts (Z.of_nat (length fails)) else []) in
  (success = true \/ fails <> []) ->
  sleeps_of tr = spec_backoff <$> seqZ 1 (Z.of_nat (clones_in tr) - 1) /\
  clones_in tr = (length fails + (if success then 1 else 0))%nat.
Proof.
  intros tr Hne. subst tr.
  destruct (first_attempt_sleeps opts) as (Hf0 & Hs0 & Hc0).
  destruct fails as [|f fails].
  - destruct success; [|destruct Hne; [discriminate | congruence]].
    cbn [failed_attempts length app]. change (Z.of_nat 0) with 0.
    rewrite Hs0, Hc0. split; reflexivity.
  - cbn [failed_attempts length]. rewrite <- app_assoc.
    rewrite sleeps_of_app, clones_in_app.
    destruct (Hf0 f) as [-> ->].
    rewrite sleeps_of_app, clones_in_app.
    destruct (failed_attempts_sleeps opts fails (0 + 1) ltac:(lia)) as [-> ->].
    destruct success.
    + destruct (successful_attempt_sleeps opts (Z.of_nat (S (length fails)))
                  ltac:(lia)) as [-> ->].
      replace (Z.of_nat (1 + (length fails + 1)) - 1)
        with (Z.of_nat (length fails) + 1) by lia.
      rewrite seqZ_app by lia. rewrite fmap_app.
      change (seqZ (1 + Z.of_nat (length fails)) 1)
        with [1 + Z.of_nat (length fails)].
      change (0 + 1) with 1.
      replace (1 + Z.of_nat (length fails)) with (Z.of_nat (S (length fails))) by lia.
      split; [reflexivity | lia].
    + simpl. rewrite !app_nil_r, Nat.add_0_r.
      replace (Z.of_nat (S (length fails)) - 1) with (Z.of_nat (length fails)) by lia.
      split; [reflexivity | lia].
Qed.

(** C3 (as amended): for [0 <= MaxRetries <= 34] the loop makes the
    attempts 0, 1, ... in order, stops at the first that succeeds and makes
    [MaxRetries + 1] of them when each fails; before attempt [k > 0] it
    reports "Retrying in <2^(k-1) seconds>... (attempt <k+1>/<MaxRetries>)"
    and sleeps [2^(k-1)] seconds.  With [MaxRetries = 3] and every attempt
    failing the sleeps are 1s, 2s, 4s. *)
Theorem retry_loop_backoff E opts fuel w :
  0 <= CloneOptions.MaxRetries opts <= 34 ->
  (Z.to_nat (CloneOptions.MaxRetries opts) < fuel)%nat ->
  exists r fails tr,
    retry_loop E fuel opts 0 None w = Some (r, w ++ tr) /\
    match r with
    | None =>
        tr = failed_attempts opts 0 fails ++
             successful_attempt opts (Z.of_nat (length fails)) /\
        Z.of_nat (length fails) <= CloneOptions.MaxRetries opts
    | Some _ =>
        tr = failed_attempts opts 0 fails /\
        Z.of_nat (length fails) = CloneOptions.MaxRetries opts + 1
    end /\
    sleeps_of tr = spec_backoff <$> seqZ 1 (Z.of_nat (clones_in tr) - 1) /\
    (CloneOptions.MaxRetries opts = 3 -> r <> None ->
     sleeps_of tr = [1 * Duration.Second; 2 * Duration.Second; 4 * Duration.Second]).
Proof.
  intros Hmax Hfuel.
  destruct (retry_loop_shape E opts ltac:(lia) fuel 0 None w ltac:(lia) ltac:(lia))
    as (fails & [[Hrun Hlen] | [Hrun Hlen]]).
  - exists None, fails, (failed_attempts opts 0 fails ++
                         successful_attempt opts (Z.of_nat (length fails))).
    rewrite Z.add_0_l in Hrun. split; [exact Hrun|]. split; [split; [reflexivity | lia]|].
    pose proof (run_sleeps opts fails true (or_introl eq_refl)) as [Hs _].
    split; [exact Hs | congruence].
  - exists (Some (clone_exhausted opts (last_error None fails))), fails,
           (failed_attempts opts 0 fails).
    split; [exact Hrun|]. split; [split; [reflexivity | lia]|].
    assert (Hne : fails <> []) by (intros ->; simpl in Hlen; lia).
    pose proof (run_sleeps opts fails false (or_intror Hne)) as [Hs Hc].
    simpl in Hs, Hc. rewrite app_nil_r in Hs, Hc.
    split; [exact Hs|]. intros H3 _. rewrite Hs, Hc.
    replace (Z.of_nat (length fails + 0) - 1) with 3 by lia. reflexivity.
Qed.

Lemma retry_loop_backoff_witness :
  let opts := opts_of "https://github.com/acme/tool.git" "out/acme/tool" 3 SkipExisting in
  exists r fails tr,
    retry_loop (env_of (Some no_such_file) None ("", None)
                  (fun _ => ("fatal: unable to access", Some exit_128)))
      4 opts 0 None [] = Some (r, [] ++ tr) /\
    match r with
    | None =>
        tr = failed_attempts opts 0 fails ++
             successful_attempt opts (Z.of_nat (length fails)) /\
        Z.of_nat (length fails) <= CloneOptions.MaxRetries opts
    | Some _ =>
        tr = failed_attempts opts 0 fails /\
        Z.of_nat (length fails) = CloneOptions.MaxRetries opts + 1
    end /\
    sleeps_of tr = spec_backoff <$> seqZ 1 (Z.of_nat (clones_in tr) - 1) /\
    (CloneOptions.MaxRetries opts = 3 -> r <> None ->
     sleeps_of tr = [1 * Duration.Second; 2 * Duration.Second; 4 * Duration.Second]).
Proof.
  intros opts. apply retry_loop_backoff; [simpl; lia | simpl; lia].
Defined.

(** C3, as stated, fails from [MaxRetries = 35] on: the product
    [2^34 * time.Second] does not fit a [time.Duration], and the 35th sleep
    is asked for a negative duration, which [time.Sleep] ends at once.  And
    the attempts end with the first that succeeds: one attempt is made, of
    the four allowed, when the first clone works. *)
Lemma retry_loop_backoff_counterexample :
  (exists r tr,
     retry_loop (env_of (Some no_such_file) None ("", None)
                   (fun _ => ("fatal: unable to access", Some exit_128)))
       36 (opts_of "https://github.com/acme/tool.git" "out/acme/tool" 35 SkipExisting)
       0 None [] = Some (r, tr) /\
     clones_in tr = 36%nat /\
     sleeps_of tr !! 34%nat = Some (-1266874889709551616) /\
     spec_backoff 35 = 17179869184000000000) /\
  (exists tr,
     retry_loop (env_of (Some no_such_file) None ("", None) (fun _ => ("", None)))
       4 (opts_of "https://github.com/acme/tool.git" "out/acme/tool" 3 SkipExisting)
       0 None [] = Some (None, tr) /\
     clones_in tr = 1%nat).
Proof.
  split.
  - eexists _, _. split; [vm_compute; reflexivity|].
    split; [vm_compute; reflexivity|]. split; vm_compute; reflexivity.
  - eexists. split; vm_compute; reflexivity.
Qed.

(** C5: the code at [MaxRetries = 3] with every clone failing.  Four clones
    are started and the error wraps the fourth failure, but its text counts
    "3 attempts". *)
Theorem CloneRepository_exhausted_reports_MaxRetries :
  let opts := opts_of "https://github.com/acme/tool.git" "out/acme/tool" 3 SkipExisting in
  let last := clone_failed exit_128 "fatal: unable to access" in
  exists tr,
    CloneRepository (env_of (Some no_such_file) None ("", None)
                       (fun _ => ("fatal: unable to access", Some exit_128)))
      4 opts [] =
    Some (Some (wrapError
                  ("failed to clone after 3 attempts: " +:+ Error last)
                  (Some last)), tr) /\
    clones_in tr = 4%nat.
Proof.
  eexists. split; vm_compute; reflexivity.
Qed.

(** ** Whether the executor returns *)

Lemma add_1_in_range k :
  GoInt.min_int <= k < GoInt.max_int -> GoInt.add k 1 = k + 1.
Proof.
  intros H. apply wrap_small. unfold GoInt.in_range in *. lia.
Qed.

Lemma retry_loop_bounded E opts :
  CloneOptions.MaxRetries opts < GoInt.max_int ->
  forall fuel k lastErr w,
    0 <= k ->
    (Z.to_nat (CloneOptions.MaxRetries opts - k + 1) <= fuel)%nat ->
    exists r tr,
      retry_loop E fuel opts k lastErr w = Some (r, w ++ tr) /\
      (clones_in tr <= Z.to_nat (CloneOptions.MaxRetries opts - k + 1))%nat.
Proof.
  intros Hmax. induction fuel as [|fuel IH]; intros k lastErr w Hk Hfuel.
  - exists (Some (clone_exhausted opts lastErr)), [].
    rewrite retry_loop_exhausted by lia. rewrite app_nil_r.
    split; [reflexivity | unfold clones_in; simpl; lia].
  - destruct (Z_lt_le_dec (CloneOptions.MaxRetries opts) k) as [Hgt|Hle].
    + exists (Some (clone_exhausted opts lastErr)), [].
      rewrite retry_loop_exhausted by lia. rewrite app_nil_r.
      split; [reflexivity | unfold clones_in; simpl; lia].
    + cbn [retry_loop].
      destruct (k <=? CloneOptions.MaxRetries opts) eqn:Hleb;
        [|apply Z.leb_gt in Hleb; lia].
      assert (Hpre : exists pre,
                (if 0 <? k
                 then Sleep (backoff k) (ProgressFunc (retrying_msg opts k) w)
                 else w) = w ++ pre /\ clones_in pre = 0%nat).
      { destruct (0 <? k).
        - exists [EvProgress (retrying_msg opts k); EvSleep (backoff k)].
          unfold Sleep, ProgressFunc. rewrite <- app_assoc. split; reflexivity.
        - exists []. rewrite app_nil_r. split; reflexivity. }
      destruct Hpre as (pre & -> & Hpre). unfold git.
      destruct (git_CombinedOutput E _ _ _) as [output [err|]].
      * rewrite add_1_in_range by (unfold GoInt.min_int; lia).
        destruct (IH (k + 1) (Some (clone_failed err output))
                    (ProgressFunc (attempt_failed_msg k (clone_failed err output))
                       ((w ++ pre) ++ [clone_event opts]))
                    ltac:(lia) ltac:(lia)) as (r & tr & Hrun & Hcount).
        exists r, (pre ++ clone_event opts ::
                   EvProgress (attempt_failed_msg k (clone_failed err output)) :: tr).
        unfold ProgressFunc in *. rewrite <- !app_assoc in *. simpl in *.
        split; [exact Hrun|].
        rewrite clones_in_app, Hpre, clones_in_cons_clone.
        change (clones_in (EvProgress ?m :: tr)) with (clones_in tr). lia.
      * exists None, (pre ++ [clone_event opts; EvProgress (cloned_notice opts)]).
        unfold ProgressFunc. rewrite <- !app_assoc. split; [reflexivity|].
        rewrite clones_in_app, Hpre, clones_in_cons_clone.
        change (clones_in [EvProgress (cloned_notice opts)]) with 0%nat. lia.
Qed.

Lemma CloneRepository_total E opts w :
  CloneOptions.MaxRetries opts < GoInt.max_int ->
  exists r w',
    CloneRepository E (Z.to_nat (CloneOptions.MaxRetries opts + 1)) opts w
    = Some (r, w').
Proof.
  intros Hmax. unfold CloneRepository, MkdirAll.
  destruct (os_MkdirAll E _ _) as [e|]; [eexists _, _; reflexivity|].
  destruct (handleExistingRepo E opts _) as [[err|] w1].
  - destruct (CloneOptions.ExistingRepo opts); eexists _, _; reflexivity.
  - destruct (retry_loop_bounded E opts Hmax
                (Z.to_nat (CloneOptions.MaxRetries opts + 1)) 0 None w1)
      as (r & tr & Hrun & _); [lia | |eexists _, _; exact Hrun].
    replace (CloneOptions.MaxRetries opts - 0 + 1)
      with (CloneOptions.MaxRetries opts + 1) by lia. lia.
Qed.

(** More fuel does not change what a call returns. *)
Lemma retry_loop_mono E opts : forall fuel fuel' k lastErr w r,
  retry_loop E fuel opts k lastErr w = Some r ->
  (fuel <= fuel')%nat ->
  retry_loop E fuel' opts k lastErr w = Some r.
Proof.
  induction fuel as [|fuel IH]; intros fuel' k lastErr w r Hrun Hle.
  - destruct fuel'; [exact Hrun|]. cbn [retry_loop] in *.
    destruct (k <=? CloneOptions.MaxRetries opts); [discriminate | exact Hrun].
  - destruct fuel' as [|fuel']; [lia|]. cbn [retry_loop] in *.
    destruct (k <=? CloneOptions.MaxRetries opts); [|exact Hrun].
    destruct (git E _ _ _) as [[output [err|]] w1]; [|exact Hrun].
    apply (IH fuel'); [exact Hrun | lia].
Qed.

Lemma CloneRepository_mono E opts fuel fuel' w r :
  CloneRepository E fuel opts w = Some r ->
  (fuel <= fuel')%nat ->
  CloneRepository E fuel' opts w = Some r.
Proof.
  unfold CloneRepository. destruct (MkdirAll E _ _) as [[e|] w1]; [auto|].
  destruct (handleExistingRepo E opts w1) as [[err|] w2]; [auto|].
  apply retry_loop_mono.
Qed.

Lemma CloneRepository_deterministic E opts fuel fuel' w r r' :
  CloneRepository E fuel opts w = Some r ->
  CloneRepository E fuel' opts w = Some r' ->
  r = r'.
Proof.
  intros H H'. destruct (Nat.le_ge_cases fuel fuel') as [Hle|Hle].
  - rewrite (CloneRepository_mono _ _ _ _ _ _ H Hle) in H'. congruence.
  - rewrite (CloneRepository_mono _ _ _ _ _ _ H' Hle) in H. congruence.
Qed.

Lemma wrap_in_range z : GoInt.in_range (GoInt.wrap z).
Proof.
  unfold GoInt.in_range, GoInt.min_int, GoInt.max_int, GoInt.wrap.
  pose proof (Z.mod_pos_bound (z + 2 ^ 63) (2 ^ 64) ltac:(lia)). lia.
Qed.

(** With the largest retry budget the loop has no last attempt: in a world
    where every clone fails it does not end, whatever the fuel. *)
Lemma retry_loop_without_end E opts :
  CloneOptions.MaxRetries opts = GoInt.max_int ->
  (forall t, exists output e,
     git_CombinedOutput E t (CloneOptions.CloneTimeout opts) (clone_args opts)
     = (output, Some e)) ->
  forall fuel k lastErr w,
    GoInt.in_range k -> retry_loop E fuel opts k lastErr w = None.
Proof.
  intros Hmax Hfail. induction fuel as [|fuel IH]; intros k lastErr w Hk;
    cbn [retry_loop]; rewrite Hmax;
    (destruct (k <=? GoInt.max_int) eqn:Hle;
       [|apply Z.leb_gt in Hle; unfold GoInt.in_range in Hk; lia]);
    [reflexivity|].
  unfold git.
  match goal with
  | |- context [git_CombinedOutput E ?t _ _] =>
      destruct (Hfail t) as (output & e & ->)
  end.
  apply IH. apply wrap_in_range.
Qed.

Lemma CloneRepository_without_end url dir policy fuel w :
  CloneRepository unreachable_env fuel (opts_of url dir GoInt.max_int policy) w
  = None.
Proof.
  unfold CloneRepository, MkdirAll, handleExistingRepo, isGitRepo, Stat.
  cbn [unreachable_env env_of os_MkdirAll os_Stat negb].
  apply retry_loop_without_end; [reflexivity | |].
  - intros t. eexists _, _. reflexivity.
  - unfold GoInt.in_range, GoInt.min_int, GoInt.max_int. lia.
Qed.

(** ** The repository manager *)

Import Manager.

Lemma find_repo_first url (repos : list Repository.t) : forall i repo,
  repos !! i = Some repo ->
  Repository.URL repo = url ->
  (forall j r, (j < i)%nat -> repos !! j = Some r -> Repository.URL r <> url) ->
  find_repo url repos = Some i.
Proof.
  induction repos as [|r0 repos IH]; intros i repo Hi Hurl Hfirst; [discriminate|].
  simpl. destruct i as [|i].
  - simpl in Hi. injection Hi as ->. rewrite (proj2 (String.eqb_eq _ _) Hurl).
    reflexivity.
  - destruct (String.eqb (Repository.URL r0) url) eqn:Heq.
    + apply String.eqb_eq in Heq. exfalso.
      apply (Hfirst 0%nat r0); [lia | reflexivity | exact Heq].
    + rewrite (IH i repo); [reflexivity | exact Hi | exact Hurl |].
      intros j r Hj Hr. apply (Hfirst (S j) r); [lia | exact Hr].
Qed.

Lemma find_repo_None url (repos : list Repository.t) :
  (forall j r, repos !! j = Some r -> Repository.URL r <> url) ->
  find_repo url repos = None.
Proof.
  induction repos as [|r0 repos IH]; intros Hno; [reflexivity|].
  simpl. destruct (String.eqb (Repository.URL r0) url) eqn:Heq.
  - apply String.eqb_eq in Heq. exfalso. apply (Hno 0%nat r0); [reflexivity | exact Heq].
  - rewrite IH; [reflexivity|]. intros j r Hr. apply (Hno (S j) r). exact Hr.
Qed.

Lemma find_repo_urls url (repos1 repos2 : list Repository.t) :
  Repository.URL <$> repos1 = Repository.URL <$> repos2 ->
  find_repo url repos1 = find_repo url repos2.
Proof.
  revert repos2. induction repos1 as [|r1 repos1 IH]; intros [|r2 repos2] H;
    try discriminate; [reflexivity|].
  simpl in H. injection H as Hu Hrest. simpl. rewrite Hu, (IH repos2 Hrest).
  reflexivity.
Qed.

Lemma alter_urls (f : Repository.t -> Repository.t) i (repos : list Repository.t) :
  (forall r, Repository.URL (f r) = Repository.URL r) ->
  Repository.URL <$> alter f i repos = Repository.URL <$> repos.
Proof.
  intros Hf. revert i. induction repos as [|r repos IH]; intros [|i]; simpl;
    try reflexivity.
  - rewrite Hf. reflexivity.
  - f_equal. apply IH.
Qed.

Lemma record_result_URL result r :
  Repository.URL (record_result result r) = Repository.URL r.
Proof.
  unfold record_result. destruct (CloneResult.Success result); [|reflexivity].
  destruct (Repository.Status r); reflexivity.
Qed.

Lemma apply_update_urls u (repos : list Repository.t) :
  Repository.URL <$> apply_update u repos = Repository.URL <$> repos.
Proof.
  destruct u as [i status|result]; simpl.
  - unfold progressFunc. apply alter_urls. reflexivity.
  - unfold handle_result. destruct (find_repo _ _); [|reflexivity].
    apply alter_urls, record_result_URL.
Qed.

(** C6: the manager gives a result to the first registered repository whose
    URL is the result's.  A successful result makes its status [Success]
    unless it is [Skipped], which stays; a failed one makes it [Failed] and
    stores the error.  Nothing else changes; a result no URL matches changes
    nothing. *)
Theorem handle_result_first_match result (repos : list Repository.t) :
  (forall i repo,
     repos !! i = Some repo ->
     Repository.URL repo = CloneResult.RepoURL result ->
     (forall j r, (j < i)%nat -> repos !! j = Some r ->
                  Repository.URL r <> CloneResult.RepoURL result) ->
     exists repo',
       handle_result result repos !! i = Some repo' /\
       Repository.Status repo' =
         (if CloneResult.Success result
          then match Repository.Status repo with
               | StatusSkipped => StatusSkipped
               | _ => StatusSuccess
               end
          else StatusFailed) /\
       Repository.Error repo' =
         (if CloneResult.Success result
          then Repository.Error repo else CloneResult.Error result) /\
       (Repository.Name repo', Repository.Organization repo',
        Repository.URL repo', Repository.Branch repo',
        Repository.Progress repo', Repository.ExistingRepo repo') =
       (Repository.Name repo, Repository.Organization repo,
        Repository.URL repo, Repository.Branch repo,
        Repository.Progress repo, Repository.ExistingRepo repo) /\
       forall j, j <> i -> handle_result result repos !! j = repos !! j) /\
  ((forall j r, repos !! j = Some r ->
                Repository.URL r <> CloneResult.RepoURL result) ->
   handle_result result repos = repos).
Proof.
  split.
  - intros i repo Hi Hurl Hfirst. unfold handle_result.
    rewrite (find_repo_first _ _ i repo Hi Hurl Hfirst).
    exists (record_result result repo). split.
    { rewrite list_lookup_alter_eq, Hi. reflexivity. }
    unfold record_result.
    repeat split; try (intros j Hj; apply list_lookup_alter_ne; congruence);
      destruct (CloneResult.Success result); try reflexivity;
      destruct (Repository.Status repo) eqn:Hst; simpl; congruence.
  - intros Hno. unfold handle_result. rewrite find_repo_None by exact Hno.
    reflexivity.
Qed.

Lemma handle_result_first_match_witness :
  let repos := repositories
                 (manager_of [("one", "https://github.com/acme/one.git", SkipExisting);
                              ("two", "https://github.com/acme/two.git", SkipExisting);
                              ("bis", "https://github.com/acme/two.git", SkipExisting)]) in
  let result := CloneResult.mk "https://github.com/acme/two.git" false (Some denied) in
  exists repo',
    handle_result result repos !! 1%nat = Some repo' /\
    Repository.Status repo' = StatusFailed /\
    Repository.Error repo' = Some denied /\
    handle_result result repos !! 2%nat = repos !! 2%nat.
Proof.
  intros repos result.
  destruct (handle_result_first_match result repos) as [Hmatch _].
  destruct (Hmatch 1%nat
              (Repository.mk "two" "acme" "https://github.com/acme/two.git" ""
                 StatusPending None "" SkipExisting))
    as (repo' & Hlook & Hst & Herr & _ & Hothers).
  - reflexivity.
  - reflexivity.
  - intros [|j] r Hj Hr; [|lia]. injection Hr as <-. discriminate.
  - exists repo'. split; [exact Hlook|]. split; [exact Hst|].
    split; [exact Herr|]. apply Hothers. lia.
Defined.

Lemma find_repo_unique (repos : list Repository.t) i repo :
  repos !! i = Some repo ->
  (forall j r, repos !! j = Some r ->
               Repository.URL r = Repository.URL repo -> j = i) ->
  find_repo (Repository.URL repo) repos = Some i.
Proof.
  intros Hi Huniq. apply (find_repo_first _ _ i repo Hi eq_refl).
  intros j r Hj Hr Hurl. specialize (Huniq j r Hr Hurl). lia.
Qed.

(** Who an update writes to. *)
Lemma progressFunc_other i status (repos : list Repository.t) j :
  j <> i -> progressFunc i status repos !! j = repos !! j.
Proof. intros H. unfold progressFunc. apply list_lookup_alter_ne. congruence. Qed.

Lemma handle_result_other result (repos : list Repository.t) i j :
  find_repo (CloneResult.RepoURL result) repos = Some i ->
  j <> i -> handle_result result repos !! j = repos !! j.
Proof.
  intros Hf H. unfold handle_result. rewrite Hf.
  apply list_lookup_alter_ne. congruence.
Qed.

(** ** Skipping an existing working copy *)

(** When the executor skips an existing working copy of the repository
    the callbacks write to, the status the manager ends with is [Skipped],
    provided the notice is not mistaken for an update. *)
Lemma CloneAll_skip_existing E fuel opts w (rs : list Repository.t) repo :
  CloneOptions.ExistingRepo opts = SkipExisting ->
  os_MkdirAll E (now w) (CloneOptions.TargetDir opts) = None ->
  working_copy_at E opts (S (now w)) ->
  strings_Contains ("Skipping existing repository: " +:+ CloneOptions.URL opts)
    "Updating" = false ->
  rs !! captured rs = Some repo ->
  find_repo (CloneOptions.URL opts) rs = Some (captured rs) ->
  let tr := [EvMkdirAll (CloneOptions.TargetDir opts);
             EvStat (filepath_Join E [CloneOptions.TargetDir opts; ".git"]);
             EvProgress ("Skipping existing repository: " +:+ CloneOptions.URL opts)] in
  CloneRepository E fuel opts w = Some (None, w ++ tr) /\
  status_at (captured rs)
    (apply_updates (job_updates (captured rs) opts (progress_of tr) None) rs) =
    Some StatusSkipped.
Proof.
  intros Hpol Hmk Hwc Hnot Hi Hfind tr. unfold working_copy_at in Hwc.
  set (i := captured rs) in *. split.
  - unfold CloneRepository, MkdirAll. rewrite Hmk.
    unfold handleExistingRepo, isGitRepo, Stat. rewrite now_snoc, Hwc. simpl.
    rewrite Hpol. unfold ProgressFunc. rewrite <- !app_assoc. reflexivity.
  - change (apply_updates _ rs)
      with (handle_result (clone_result opts None)
              (progressFunc i ("Skipping existing repository: " +:+
                               CloneOptions.URL opts) rs)).
    unfold handle_result, status_at.
    change (CloneResult.RepoURL (clone_result opts None)) with (CloneOptions.URL opts).
    rewrite (find_repo_urls _ _ rs) by (apply (apply_update_urls (UpProgress i _))).
    rewrite Hfind. rewrite list_lookup_alter_eq.
    unfold progressFunc. rewrite list_lookup_alter_eq, Hi. simpl.
    unfold status_of_progress. rewrite Hnot. reflexivity.
Qed.

(** C4: the code on a target whose URL contains "Updating", whose directory
    holds a working copy, under [SkipExisting].  The call succeeds and
    neither clones nor removes, but the notice
    "Skipping existing repository: <URL>" is read as an update, and the
    repository ends [Success] and not [Skipped]. *)
Theorem CloneAll_skip_existing_url_with_Updating :
  let E := env_of None None ("", None) (fun _ => ("", None)) in
  let rm := manager_of [("Updating-guide",
                         "https://github.com/acme/Updating-guide.git",
                         SkipExisting)] in
  exists opts tr,
    prepare E (baseDir rm) 0 (repositories rm) = [(0%nat, opts)] /\
    CloneRepository E 4 opts [] = Some (None, tr) /\
    clones_in tr = 0%nat /\ removals_in tr = 0%nat /\
    status_at 0 (apply_updates (job_updates 0 opts (progress_of tr) None)
                   (repositories rm)) = Some StatusSuccess.
Proof.
  eexists _, _. split; [reflexivity|]. split; [vm_compute; reflexivity|].
  repeat split.
Qed.




(** ** Terminal statuses in a run *)

Lemma prepare_indices E b (rs : list Repository.t) : forall n,
  Forall (fun job : nat * CloneOptions.t =>
            (n <= job.1)%nat /\
            exists repo, rs !! (job.1 - n)%nat = Some repo /\
                         Repository.Status repo = StatusPending /\
                         job.2 = options_for E b repo)
    (prepare E b n rs).
Proof.
  induction rs as [|r rs IH]; intros n; [constructor|].
  assert (Htail : Forall (fun job : nat * CloneOptions.t =>
            (n <= job.1)%nat /\
            exists repo, (r :: rs) !! (job.1 - n)%nat = Some repo /\
                         Repository.Status repo = StatusPending /\
                         job.2 = options_for E b repo)
            (prepare E b (S n) rs)).
  { eapply Forall_impl; [apply (IH (S n))|].
    intros [j o] (Hle & repo & Hlook & Hst & Ho). simpl in *.
    split; [lia|]. exists repo.
    replace (j - n)%nat with (S (j - S n)) by lia. auto. }
  simpl. destruct (is_pending (Repository.Status r)) eqn:Hp; [|exact Htail].
  constructor; [|exact Htail]. simpl. split; [lia|]. exists r.
  rewrite Nat.sub_diag. split; [reflexivity|]. split; [|reflexivity].
  destruct (Repository.Status r); try discriminate. reflexivity.
Qed.

Lemma prepare_NoDup E b (rs : list Repository.t) : forall n,
  NoDup (prepare E b n rs).*1.
Proof.
  induction rs as [|r rs IH]; intros n; [constructor|].
  simpl. destruct (is_pending (Repository.Status r)); [|apply IH].
  simpl. constructor; [|apply IH].
  intros Hin. apply list_elem_of_fmap in Hin as ([j o] & Hj & Hin).
  pose proof (prepare_indices E b rs (S n)) as Hall.
  rewrite Forall_forall in Hall. apply Hall in Hin. simpl in *. lia.
Qed.

Lemma NoDup_urls_unique (rs : list Repository.t) i repo :
  NoDup (Repository.URL <$> rs) ->
  rs !! i = Some repo ->
  forall j r, rs !! j = Some r ->
              Repository.URL r = Repository.URL repo -> j = i.
Proof.
  intros Hnd Hi j r Hj Hu. rewrite NoDup_alt in Hnd.
  apply (Hnd j i (Repository.URL repo)); rewrite list_lookup_fmap.
  - rewrite Hj. simpl. congruence.
  - rewrite Hi. reflexivity.
Qed.

Lemma run_steps_trans s1 s2 s3 :
  run_steps s1 s2 -> run_steps s2 s3 -> run_steps s1 s3.
Proof.
  induction 1 as [|s1 s2 s2' Hstep _ IH]; [auto|].
  intros H. eapply run_steps_step; [exact Hstep | apply IH, H].
Qed.

Lemma job_step_run p s : run_steps s (job_step p s).
Proof.
  unfold job_step. destruct s as [rs js]. simpl.
  destruct (js !! p) as [[i [|u us]]|] eqn:Hp; try apply run_steps_refl.
  eapply run_steps_step; [|apply run_steps_refl].
  rewrite insert_take_drop by (eapply lookup_lt_Some; exact Hp).
  rewrite <- (take_drop_middle js p (i, u :: us) Hp) at 1.
  apply run_step_update.
Qed.

Lemma run_schedule_steps sched : forall s, run_steps s (run_schedule sched s).
Proof.
  induction sched as [|p sched IH]; intros s; [apply run_steps_refl|].
  simpl. eapply run_steps_trans; [apply job_step_run | apply IH].
Qed.

(** C7: the code on two pending repositories with distinct URLs, each
    cloned at the first attempt.  The second is reported and its result
    handled: it is [Success].  The first then reports its own success; the
    report is written to the second, the repository the callbacks share,
    which becomes [Cloning] and shows the progress of the first.  The
    result of the first ends the run: the second is still [Cloning]. *)
Theorem CloneAll_progress_reopens_Success :
  let E := env_of (Some no_such_file) None ("", None) (fun _ => ("", None)) in
  let rm := manager_of [("one", "https://github.com/acme/one.git", SkipExisting);
                        ("two", "https://github.com/acme/two.git", SkipExisting)] in
  exists opts0 opts1 tr0 tr1,
    NoDup (Repository.URL <$> repositories rm) /\
    prepare E (baseDir rm) 0 (repositories rm) = [(0%nat, opts0); (1%nat, opts1)] /\
    CloneRepository E 4 opts0 [] = Some (None, tr0) /\
    CloneRepository E 4 opts1 [] = Some (None, tr1) /\
    let plan := fun i : nat =>
      match i with
      | O => (progress_of tr0, None)
      | _ => (progress_of tr1, None)
      end in
    let s0 := run_init E rm plan in
    let s1 := run_schedule [1; 1]%nat s0 in
    let s2 := run_schedule [0%nat] s1 in
    let s3 := run_schedule [0%nat] s2 in
    run_steps s0 s1 /\ run_steps s1 s2 /\ run_steps s2 s3 /\
    status_at 1 (repos s1) = Some StatusSuccess /\
    is_terminal StatusSuccess = true /\
    status_at 1 (repos s2) = Some StatusCloning /\
    Forall (fun job : nat * list Update => job.2 = []) (todo s3) /\
    repos s3 =
      [Repository.mk "one" "acme" "https://github.com/acme/one.git" ""
         StatusSuccess None "" SkipExisting;
       Repository.mk "two" "acme" "https://github.com/acme/two.git" ""
         StatusCloning None
         "Successfully cloned https://github.com/acme/one.git" SkipExisting].
Proof.
  eexists _, _, _, _.
  split; [apply (bool_decide_unpack _); vm_compute; reflexivity|].
  split; [reflexivity|].
  split; [vm_compute; reflexivity|]. split; [vm_compute; reflexivity|].
  split; [apply run_schedule_steps|]. split; [apply run_schedule_steps|].
  split; [apply run_schedule_steps|].
  split; [vm_compute; reflexivity|]. split; [reflexivity|].
  split; [vm_compute; reflexivity|].
  split; [vm_compute; repeat constructor | vm_compute; reflexivity].
Qed.

(** Two more runs in which a terminal status changes.  A single
    repository whose name contains "Skipping": the report of its first
    failed attempt quotes git's output, the status becomes [Skipped], and
    the announcement of the retry makes it [Cloning].  And one URL
    registered twice: the first repository is [Success] after its own
    result and [Failed] after the result of the second. *)
Lemma terminal_status_reopened_otherwise :
  (let E := env_of (Some no_such_file) None ("", None)
              (fun _ => ("Cloning into 'out/acme/Skipping-stones'...", Some exit_128)) in
   let rm := manager_of [("Skipping-stones",
                          "https://github.com/acme/Skipping-stones.git",
                          SkipExisting)] in
   exists opts err tr,
     prepare E (baseDir rm) 0 (repositories rm) = [(0%nat, opts)] /\
     CloneRepository E 4 opts [] = Some (err, tr) /\
     let s0 := run_init E rm (fun _ => (progress_of tr, err)) in
     let s1 := run_schedule [0%nat] s0 in
     let s2 := run_schedule [0%nat] s1 in
     run_steps s0 s1 /\ run_steps s1 s2 /\
     status_at 0 (repos s1) = Some StatusSkipped /\
     is_terminal StatusSkipped = true /\
     status_at 0 (repos s2) = Some StatusCloning) /\
  (let rm := manager_of [("one", "https://github.com/acme/one.git", SkipExisting);
                         ("bis", "https://github.com/acme/one.git", SkipExisting)] in
   let E0 := env_of (Some no_such_file) None ("", None) (fun _ => ("", None)) in
   let E1 := env_of (Some no_such_file) None ("", None)
               (fun _ => ("fatal: unable to access", Some exit_128)) in
   exists opts0 opts1 tr0 err1 tr1,
     prepare E0 (baseDir rm) 0 (repositories rm) = [(0%nat, opts0); (1%nat, opts1)] /\
     CloneRepository E0 4 opts0 [] = Some (None, tr0) /\
     CloneRepository E1 4 opts1 [] = Some (Some err1, tr1) /\
     let plan := fun i : nat =>
       match i with
       | O => (progress_of tr0, None)
       | _ => (progress_of tr1, Some err1)
       end in
     let s0 := run_init E0 rm plan in
     let s1 := run_schedule [0; 0]%nat s0 in
     let s2 := run_schedule [1; 1; 1; 1; 1; 1; 1; 1]%nat s1 in
     run_steps s0 s1 /\ run_steps s1 s2 /\
     status_at 0 (repos s1) = Some StatusSuccess /\
     status_at 0 (repos s2) = Some StatusFailed).
Proof.
  split.
  - eexists _, _, _. split; [reflexivity|]. split; [vm_compute; reflexivity|].
    split; [apply run_schedule_steps|]. split; [apply run_schedule_steps|].
    split; [vm_compute; reflexivity|]. split; [reflexivity|].
    vm_compute; reflexivity.
  - eexists _, _, _, _, _. split; [reflexivity|].
    split; [vm_compute; reflexivity|]. split; [vm_compute; reflexivity|].
    split; [apply run_schedule_steps|]. split; [apply run_schedule_steps|].
    split; vm_compute; reflexivity.
Qed.

(** ** The worker pool *)

Import Pool.

Lemma count_middle p ws1 wk ws2 :
  count p (ws1 ++ wk :: ws2) =
  (count p ws1 + (if p wk then 1 else 0) + count p ws2)%nat.
Proof. unfold count. rewrite sum_list_with_app. simpl. lia. Qed.

Lemma count_snoc p ws wk :
  count p (ws ++ [wk]) = (count p ws + (if p wk then 1 else 0))%nat.
Proof. rewrite count_middle. unfold count. simpl. lia. Qed.

Lemma count_lookup p (ws : list worker) j wk :
  ws !! j = Some wk -> p wk = true -> (1 <= count p ws)%nat.
Proof.
  intros Hj Hp. apply list_elem_of_lookup_2 in Hj.
  apply list_elem_of_split in Hj as (ws1 & ws2 & ->).
  rewrite count_middle, Hp. lia.
Qed.

Lemma rank_middle ws1 wk ws2 :
  sum_list_with rank (ws1 ++ wk :: ws2) =
  (sum_list_with rank ws1 + rank wk + sum_list_with rank ws2)%nat.
Proof. rewrite sum_list_with_app. simpl. lia. Qed.

Lemma sent_middle ws1 wk ws2 :
  omap sent_result (ws1 ++ wk :: ws2) =
  omap sent_result ws1 ++
  match sent_result wk with Some r => [r] | None => [] end ++
  omap sent_result ws2.
Proof.
  rewrite omap_app. simpl. destruct (sent_result wk); reflexivity.
Qed.

Lemma jobs_middle ws1 wk ws2 :
  job_of <$> (ws1 ++ wk :: ws2) = (job_of <$> ws1) ++ job_of wk :: (job_of <$> ws2).
Proof. rewrite fmap_app. reflexivity. Qed.

Lemma Forall_finished_middle ws1 wk ws2 :
  Forall (fun wk => is_finished wk = true) (ws1 ++ wk :: ws2) ->
  is_finished wk = true.
Proof.
  intros H. apply Forall_app in H as [_ H]. apply Forall_cons in H as [H _].
  exact H.
Qed.

Ltac pool_simpl :=
  unfold pool_inv, delivered in *; cbn [unspawned workers semaphore wg results
                                        closed received] in *.

Lemma init_inv maxConcurrent jobs : pool_inv maxConcurrent jobs (init jobs).
Proof.
  pool_simpl. unfold init. simpl.
  repeat split; try reflexivity; try lia; discriminate.
Qed.

Ltac closed_case Hcl :=
  match goal with
  | Hc : _ = true |- _ =>
      destruct (Hcl Hc) as [? Hfin]; try assumption;
      apply Forall_finished_middle in Hfin; discriminate
  end.

Lemma step_inv outside maxConcurrent capacity jobs s s' :
  pool_inv maxConcurrent jobs s ->
  step outside maxConcurrent capacity s s' ->
  pool_inv maxConcurrent jobs s'.
Proof.
  intros (Hjobs & Hsem & Hcap & Hwg & Hdel & Hcl) Hstep.
  destruct Hstep; pool_simpl;
    rewrite ?count_middle, ?count_snoc, ?sent_middle, ?jobs_middle, ?omap_app
      in *; cbn [holds_slot is_finished negb sent_result job_of omap app] in *.
  - (* spawn *)
    rewrite <- app_assoc. change (count ?p []) with 0%nat.
    cbn [fmap list_fmap app list_omap]. rewrite app_nil_r.
    split; [exact Hjobs|]. split; [lia|]. split; [exact Hcap|].
    split; [lia|]. split; [exact Hdel|].
    intros ->. destruct (Hcl eq_refl) as [? _]. discriminate.
  - (* acquire *)
    repeat split; try assumption; try lia; closed_case Hcl.
  - (* handoff *)
    exfalso. subst maxConcurrent.
    pose proof (count_lookup holds_slot ws j (Sent o' e) ltac:(assumption) eq_refl).
    lia.
  - (* execute *)
    repeat split; try assumption; try lia; closed_case Hcl.
  - (* send *)
    repeat split; try assumption; try lia; try closed_case Hcl.
    rewrite <- (Permutation_middle (omap sent_result ws1)), <- Hdel.
    rewrite app_assoc. symmetry. apply Permutation_cons_append.
  - (* release *)
    repeat split; try assumption; try lia; closed_case Hcl.
  - (* done *)
    repeat split; try assumption; try lia; closed_case Hcl.
  - (* close *)
    repeat split; try assumption; try lia.
    clear Hcl Hdel Hsem Hcap Hjobs.
    induction ws as [|wk ws IH]; [constructor|].
    unfold count in Hwg. simpl in Hwg.
    destruct (is_finished wk) eqn:Hf; simpl in Hwg; [|lia].
    constructor; [exact Hf|]. apply IH. unfold count. lia.
  - (* receive *)
    repeat split; try assumption; try lia; try closed_case Hcl.
    rewrite <- app_assoc. exact Hdel.
Qed.

Lemma reachable_inv outside maxConcurrent capacity jobs s :
  reachable outside maxConcurrent capacity jobs s ->
  pool_inv maxConcurrent jobs s.
Proof.
  induction 1 as [|s s' _ IH Hstep]; [apply init_inv|].
  exact (step_inv _ _ _ _ _ _ IH Hstep).
Qed.

Lemma count_in_executor_le ws :
  (count in_executor ws <= count holds_slot ws)%nat.
Proof.
  unfold count. induction ws as [|wk ws IH]; [reflexivity|].
  simpl. destruct wk; simpl; lia.
Qed.

Lemma count_finished ws :
  Forall (fun wk => is_finished wk = true) ws -> count holds_slot ws = 0%nat.
Proof.
  unfold count. induction 1 as [|wk ws Hf _ IH]; [reflexivity|].
  simpl. destruct wk; try discriminate. simpl. exact IH.
Qed.

Lemma length_sent_results ws : (length (omap sent_result ws) <= length ws)%nat.
Proof.
  induction ws as [|wk ws IH]; [reflexivity|].
  cbn [omap list_omap]. destruct (sent_result wk); cbn [length];
    fold (omap sent_result ws); lia.
Qed.

Lemma room_for_result maxConcurrent jobs s ws1 o err ws2 :
  pool_inv maxConcurrent jobs s ->
  workers s = ws1 ++ Returned o err :: ws2 ->
  (length (results s) < length jobs)%nat.
Proof.
  intros (Hjobs & _ & _ & _ & Hdel & _) Heq.
  apply Permutation_length in Hdel. unfold delivered in Hdel.
  assert (Hws : (length (workers s) <= length jobs)%nat).
  { rewrite <- Hjobs, length_app, length_fmap. lia. }
  rewrite Heq, sent_middle in Hdel. rewrite Heq in Hws.
  cbn [sent_result app] in Hdel. rewrite !length_app in Hdel, Hws.
  cbn [length] in Hws.
  pose proof (length_sent_results ws1). pose proof (length_sent_results ws2).
  rewrite length_app in Hdel. lia.
Qed.

Lemma step_into_executor outside maxConcurrent capacity jobs s s' :
  pool_inv maxConcurrent jobs s ->
  step outside maxConcurrent capacity s s' ->
  (count in_executor (workers s) < count in_executor (workers s'))%nat ->
  (semaphore s < maxConcurrent)%nat /\ semaphore s' = S (semaphore s).
Proof.
  intros (_ & Hsem & Hcap & _) Hstep.
  destruct Hstep; pool_simpl;
    rewrite ?count_middle, ?count_snoc; cbn [in_executor];
    change (count in_executor []) with 0%nat; try lia.
  intros _. exfalso. subst maxConcurrent.
  pose proof (count_lookup holds_slot ws j (Sent o' e) ltac:(assumption) eq_refl).
  lia.
Qed.

(** C8: at every moment of a run of [CloneRepositories] at most
    [maxConcurrent] workers are inside [CloneRepository].  The workers that
    hold a slot (from the send on the semaphore to the deferred receive)
    are as many as the elements in the semaphore, which are at most
    [maxConcurrent].  A worker enters [CloneRepository] only by taking a
    free slot.  A worker whose call has returned, with an error or without,
    finds room for its result on the stream made for [len(repos)] results;
    once the result is sent it can at once give its slot back, and that
    step takes one element out of the semaphore.  When the stream is closed
    every slot has been given back. *)
Theorem at_most_maxConcurrent_executors outside maxConcurrent capacity jobs s :
  reachable outside maxConcurrent capacity jobs s ->
  (count in_executor (workers s) <= maxConcurrent)%nat /\
  (count in_executor (workers s) <= count holds_slot (workers s))%nat /\
  count holds_slot (workers s) = semaphore s /\
  (semaphore s <= maxConcurrent)%nat /\
  (closed s = true -> semaphore s = 0%nat) /\
  (forall s',
     step outside maxConcurrent capacity s s' ->
     (count in_executor (workers s) < count in_executor (workers s'))%nat ->
     (semaphore s < maxConcurrent)%nat /\ semaphore s' = S (semaphore s)) /\
  (forall ws1 o err ws2,
     workers s = ws1 ++ Returned o err :: ws2 ->
     capacity = length jobs ->
     step outside maxConcurrent capacity s
       (Build_State (unspawned s) (ws1 ++ Sent o err :: ws2) (semaphore s)
          (wg s) (results s ++ [clone_result o err]) (closed s)
          (received s))) /\
  (forall ws1 o err ws2,
     workers s = ws1 ++ Sent o err :: ws2 ->
     exists sem,
       semaphore s = S sem /\
       step outside maxConcurrent capacity s
         (Build_State (unspawned s) (ws1 ++ Released o err :: ws2) sem
            (wg s) (results s) (closed s) (received s)) /\
       count holds_slot (ws1 ++ Released o err :: ws2) = sem).
Proof.
  intros Hreach. apply reachable_inv in Hreach. pose proof Hreach as Hinv.
  destruct Hreach as (_ & Hsem & Hcap & _ & _ & Hcl).
  pose proof (count_in_executor_le (workers s)) as Hle.
  split; [lia|]. split; [exact Hle|]. split; [congruence|].
  split; [exact Hcap|]. split; [|split; [|split]].
  - intros Hclosed. destruct (Hcl Hclosed) as [_ Hfin].
    rewrite Hsem. apply count_finished, Hfin.
  - intros s' Hstep. exact (step_into_executor _ _ _ _ _ _ Hinv Hstep).
  - intros ws1 o err ws2 Hws ->.
    pose proof (room_for_result _ _ _ _ _ _ _ Hinv Hws) as Hroom.
    destruct s as [us ws sem n res cl rcv].
    cbn [unspawned workers semaphore wg results closed received] in *.
    subst ws. apply step_send. exact Hroom.
  - intros ws1 o err ws2 Hws. destruct s as [us ws sem n res cl rcv].
    cbn [unspawned workers semaphore wg results closed received] in *.
    subst ws. rewrite count_middle in Hsem. cbn [holds_slot] in Hsem.
    destruct sem as [|sem]; [lia|]. exists sem.
    split; [reflexivity|]. split; [apply step_release|].
    rewrite count_middle. cbn [holds_slot]. lia.
Qed.

Lemma at_most_maxConcurrent_executors_witness :
  let outside := fun _ : nat => unreachable_env in
  let one := opts_of "https://github.com/acme/one.git" "out/acme/one" 0 SkipExisting in
  let two := opts_of "https://github.com/acme/two.git" "out/acme/two" 0 SkipExisting in
  let failure := outcome unreachable_env one in
  let s := Build_State [] [Sent one failure; Spawned two] 1 2
             [clone_result one failure] false [] in
  (count in_executor (workers s) <= 1)%nat /\
  count holds_slot (workers s) = semaphore s /\
  failure <> None /\
  step outside 1 2 s
    (Build_State [] [Released one failure; Spawned two] 0 2
       [clone_result one failure] false []).
Proof.
  intros outside one two failure s.
  destruct (at_most_maxConcurrent_executors outside 1 2 [one; two] s)
    as (Hbound & _ & Hslots & _ & _ & _ & _ & Hrelease).
  - eapply reachable_step; [eapply reachable_step; [eapply reachable_step;
      [eapply reachable_step; [eapply reachable_step|]|]|]|].
    + apply reachable_init.
    + apply step_spawn.
    + apply (step_spawn outside 1 2 _ [] [Spawned _]).
    + apply (step_acquire outside 1 2 [] [] _ [Spawned _]). lia.
    + apply (step_execute outside 1 2 [] [] one 1
               (snd (default (None, []) (CloneRepository unreachable_env 1 one [])))
               failure [Spawned two]).
      vm_compute. reflexivity.
    + apply (step_send outside 1 2 [] [] one failure [Spawned two]). simpl. lia.
  - split; [exact Hbound|]. split; [exact Hslots|].
    split; [vm_compute; discriminate|].
    destruct (Hrelease [] one failure [Spawned two] eq_refl)
      as (sem & Hsem & Hstep & _).
    injection Hsem as <-. exact Hstep.
Defined.

(** ** Every job delivers once *)

Lemma lookup_middle_change (ws1 : list worker) wk wk' ws2 k x :
  (ws1 ++ wk' :: ws2) !! k = Some x ->
  (k = length ws1 /\ x = wk') \/
  (k <> length ws1 /\ (ws1 ++ wk :: ws2) !! k = Some x).
Proof.
  intros H. destruct (decide (k = length ws1)) as [->|Hne].
  - left. rewrite list_lookup_middle in H by reflexivity.
    injection H as <-. auto.
  - right. split; [exact Hne|].
    destruct (decide (k < length ws1)%nat) as [Hlt|Hge].
    + rewrite lookup_app_l in H |- * by exact Hlt. exact H.
    + rewrite lookup_app_r in H |- * by lia.
      destruct (k - length ws1)%nat as [|m] eqn:Hm; [lia|]. exact H.
Qed.

Lemma outcomes_init outside jobs : outcomes_inv outside (init jobs).
Proof. intros k wk Hk. cbn [init workers] in Hk. discriminate. Qed.

Lemma outcomes_step outside maxConcurrent capacity s s' :
  outcomes_inv outside s ->
  step outside maxConcurrent capacity s s' ->
  outcomes_inv outside s'.
Proof.
  unfold outcomes_inv. intros Hinv Hstep.
  destruct Hstep; cbn [workers] in *; intros k wk Hk Hpast;
    try (apply (Hinv k wk Hk Hpast));
    try (apply (lookup_middle_change _ (Spawned o)) in Hk as [[-> ->]|[_ Hk]];
         [discriminate | exact (Hinv k wk Hk Hpast)]).
  - (* spawn *)
    apply lookup_app_Some in Hk as [Hk|[_ Hk]]; [exact (Hinv k wk Hk Hpast)|].
    destruct (k - length ws)%nat; [|discriminate].
    injection Hk as <-. discriminate.
  - (* handoff *)
    subst ws'. destruct (decide (k = j)) as [->|Hj].
    + rewrite list_lookup_insert_eq in Hk
        by (rewrite length_insert; eapply lookup_lt_Some; eassumption).
      injection Hk as <-.
      match goal with
      | H : ws !! j = Some (Sent _ _) |- _ => exact (Hinv j _ H eq_refl)
      end.
    + rewrite list_lookup_insert_ne in Hk by congruence.
      destruct (decide (k = i)) as [->|Hi].
      * rewrite list_lookup_insert_eq in Hk by (eapply lookup_lt_Some; eassumption).
        injection Hk as <-. discriminate.
      * rewrite list_lookup_insert_ne in Hk by congruence.
        exact (Hinv k wk Hk Hpast).
  - (* execute *)
    apply (lookup_middle_change _ (Running o)) in Hk as [[-> ->]|[_ Hk]];
      [|exact (Hinv k wk Hk Hpast)].
    eexists _, _. eassumption.
  - (* send *)
    apply (lookup_middle_change _ (Returned o err)) in Hk as [[-> ->]|[_ Hk]];
      [|exact (Hinv k wk Hk Hpast)].
    apply (Hinv _ (Returned o err)); [|reflexivity].
    apply list_lookup_middle. reflexivity.
  - (* release *)
    apply (lookup_middle_change _ (Sent o err)) in Hk as [[-> ->]|[_ Hk]];
      [|exact (Hinv k wk Hk Hpast)].
    apply (Hinv _ (Sent o err)); [|reflexivity].
    apply list_lookup_middle. reflexivity.
  - (* done *)
    apply (lookup_middle_change _ (Released o err)) in Hk as [[-> ->]|[_ Hk]];
      [|exact (Hinv k wk Hk Hpast)].
    apply (Hinv _ (Released o err)); [|reflexivity].
    apply list_lookup_middle. reflexivity.
Qed.

Lemma reachable_outcomes outside maxConcurrent capacity jobs s :
  reachable outside maxConcurrent capacity jobs s -> outcomes_inv outside s.
Proof.
  induction 1 as [|s s' _ IH Hstep]; [apply outcomes_init|].
  exact (outcomes_step _ _ _ _ _ IH Hstep).
Qed.

(** What a call has returned is the outcome of the job. *)
Lemma returned_outcome E opts fuel err tr :
  CloneOptions.MaxRetries opts < GoInt.max_int ->
  CloneRepository E fuel opts [] = Some (err, tr) ->
  err = outcome E opts.
Proof.
  intros Hmax Hrun. unfold outcome.
  destruct (CloneRepository_total E opts [] Hmax) as (r & w' & Htotal).
  rewrite Htotal.
  pose proof (CloneRepository_deterministic _ _ _ _ _ _ _ Hrun Htotal) as Heq.
  congruence.
Qed.

Lemma sent_results_sublist ws : forall outside,
  (forall k wk, ws !! k = Some wk -> past_call wk = true ->
                returned_error wk = outcome (outside k) (job_of wk)) ->
  omap sent_result ws `sublist_of` results_of outside (job_of <$> ws).
Proof.
  unfold results_of.
  induction ws as [|wk ws IH]; intros outside Hout; [constructor|].
  assert (Htail : omap sent_result ws `sublist_of`
                  imap (fun k o => clone_result o (outcome (outside (S k)) o))
                    (job_of <$> ws)).
  { apply (IH (fun k => outside (S k))). intros k wk' Hk. apply (Hout (S k)). exact Hk. }
  cbn [fmap list_fmap omap list_omap imap].
  destruct (sent_result wk) as [r|] eqn:Hr.
  - assert (r = clone_result (job_of wk) (outcome (outside 0%nat) (job_of wk))) as ->.
    { rewrite <- (Hout 0%nat wk eq_refl) by (destruct wk; try discriminate; reflexivity).
      destruct wk; try discriminate; injection Hr as <-; reflexivity. }
    apply sublist_skip. exact Htail.
  - apply sublist_cons. exact Htail.
Qed.

Lemma sent_results_finished ws : forall outside,
  (forall k wk, ws !! k = Some wk -> past_call wk = true ->
                returned_error wk = outcome (outside k) (job_of wk)) ->
  Forall (fun wk => is_finished wk = true) ws ->
  omap sent_result ws = results_of outside (job_of <$> ws).
Proof.
  unfold results_of.
  induction ws as [|wk ws IH]; intros outside Hout Hfin; [reflexivity|].
  apply Forall_cons in Hfin as [Hwk Hfin].
  cbn [fmap list_fmap omap list_omap imap].
  destruct wk; try discriminate. cbn [sent_result job_of].
  pose proof (Hout 0%nat (Finished opts err) eq_refl eq_refl) as H0.
  cbn [returned_error job_of] in H0. rewrite <- H0.
  f_equal. apply (IH (fun k => outside (S k))); [|exact Hfin].
  intros k wk' Hk. apply (Hout (S k)). exact Hk.
Qed.

Lemma no_midway_no_holder ws :
  Forall (fun wk => is_midway wk <> true) ws -> count holds_slot ws = 0%nat.
Proof.
  unfold count. induction 1 as [|wk ws Hm _ IH]; [reflexivity|].
  simpl. rewrite IH. destruct wk; simpl in *; congruence.
Qed.

Lemma all_finished_or_spawned ws :
  Forall (fun wk => is_midway wk <> true) ws ->
  Forall (fun wk => is_spawned wk <> true) ws ->
  Forall (fun wk => is_finished wk = true) ws.
Proof.
  intros Hm Hs. rewrite Forall_forall in *. intros wk Hin.
  specialize (Hm wk Hin). specialize (Hs wk Hin).
  destruct wk; simpl in *; congruence.
Qed.

Lemma pool_progress outside maxConcurrent jobs s :
  (1 <= maxConcurrent)%nat ->
  Forall (fun o => CloneOptions.MaxRetries o < GoInt.max_int) jobs ->
  pool_inv maxConcurrent jobs s ->
  ~ done s ->
  exists s', step outside maxConcurrent (length jobs) s s'.
Proof.
  intros Hpos Hmax (Hjobs & Hsem & Hcap & Hwg & Hdel & Hcl) Hnot.
  destruct s as [us ws sem n res cl rcv]. unfold done in Hnot. pool_simpl.
  destruct us as [|o us]; [|eexists; apply step_spawn].
  rewrite app_nil_r in Hjobs.
  assert (Hlen : length ws = length jobs) by (rewrite <- Hjobs, length_fmap; reflexivity).
  destruct (decide (Exists (fun wk => is_midway wk = true) ws)) as [Hmid|Hmid].
  - apply Exists_exists in Hmid as (wk & Hin & Hwk).
    apply list_elem_of_split in Hin as (ws1 & ws2 & ->).
    rewrite ?count_middle, ?sent_middle in *.
    destruct wk; try discriminate; cbn [holds_slot is_finished negb sent_result app] in *.
    + assert (Hopts : CloneOptions.MaxRetries opts < GoInt.max_int).
      { rewrite Forall_forall in Hmax. apply Hmax. rewrite <- Hjobs, jobs_middle.
        apply elem_of_app. right. left. }
      destruct (CloneRepository_total (outside (length ws1)) opts [] Hopts)
        as (r & w' & Hrun).
      eexists. eapply step_execute. exact Hrun.
    + eexists. apply step_send.
      apply Permutation_length in Hdel.
      rewrite !length_app in Hdel. rewrite <- Hlen, length_app. simpl.
      pose proof (length_sent_results ws1). pose proof (length_sent_results ws2).
      lia.
    + destruct sem as [|sem]; [lia|]. eexists. apply step_release.
    + destruct n as [|n]; [lia|]. eexists. apply step_done.
  - apply not_Exists_Forall in Hmid; [|intros wk; apply _].
    destruct (decide (Exists (fun wk => is_spawned wk = true) ws)) as [Hsp|Hsp].
    + apply Exists_exists in Hsp as (wk & Hin & Hwk).
      apply list_elem_of_split in Hin as (ws1 & ws2 & ->).
      destruct wk; try discriminate.
      eexists. apply step_acquire.
      rewrite (no_midway_no_holder _ Hmid) in Hsem. lia.
    + apply not_Exists_Forall in Hsp; [|intros wk; apply _].
      pose proof (all_finished_or_spawned ws Hmid Hsp) as Hfin.
      assert (n = 0%nat) as ->.
      { rewrite Hwg. clear -Hfin. unfold count.
        induction Hfin as [|wk ws Hf _ IH]; [reflexivity|].
        simpl. rewrite Hf, IH. reflexivity. }
      destruct cl.
      * destruct res as [|r res]; [exfalso; apply Hnot; auto|].
        eexists. apply step_receive.
      * eexists. apply step_close.
Qed.

Lemma pool_measure outside maxConcurrent capacity jobs s s' :
  pool_inv maxConcurrent jobs s ->
  step outside maxConcurrent capacity s s' ->
  (measure s' < measure s)%nat.
Proof.
  intros (_ & Hsem & Hcap & _) Hstep.
  destruct Hstep; unfold measure; pool_simpl;
    rewrite ?rank_middle, ?sum_list_with_app, ?length_app; simpl.
    all: try lia.
  exfalso. subst maxConcurrent.
  pose proof (count_lookup holds_slot ws j (Sent o' e) ltac:(assumption) eq_refl).
  lia.
Qed.

Lemma results_of_app outside jobs1 jobs2 :
  results_of outside (jobs1 ++ jobs2) =
  results_of outside jobs1 ++
  results_of (fun k => outside (length jobs1 + k)%nat) jobs2.
Proof. unfold results_of. rewrite imap_app. reflexivity. Qed.

(** C2 (as amended): in a run of [CloneRepositories] with
    [maxConcurrent >= 1], over jobs whose retry budget is below the largest
    [int], what has been written to the result stream is at every moment a
    part of one result per job, the result of its executor in the world the
    job meets, and all of them once the stream is closed; until the stream
    is closed and read to its end some step can be taken in that world, and
    every step brings that end nearer. *)
Theorem results_exactly_once outside maxConcurrent jobs s :
  (1 <= maxConcurrent)%nat ->
  Forall (fun o => CloneOptions.MaxRetries o < GoInt.max_int) jobs ->
  reachable outside maxConcurrent (length jobs) jobs s ->
  delivered s ⊆+ results_of outside jobs /\
  (closed s = true -> delivered s ≡ₚ results_of outside jobs) /\
  (~ done s -> exists s', step outside maxConcurrent (length jobs) s s') /\
  (forall s', step outside maxConcurrent (length jobs) s s' ->
              (measure s' < measure s)%nat).
Proof.
  intros Hpos Hmax Hreach.
  pose proof (reachable_inv _ _ _ _ _ Hreach) as Hinv.
  pose proof (reachable_outcomes _ _ _ _ _ Hreach) as Hout.
  assert (Hres : forall k wk, workers s !! k = Some wk -> past_call wk = true ->
                 returned_error wk = outcome (outside k) (job_of wk)).
  { intros k wk Hk Hpast. destruct (Hout k wk Hk Hpast) as (fuel & tr & Hrun).
    refine (returned_outcome _ _ _ _ _ _ Hrun).
    rewrite Forall_forall in Hmax. apply Hmax.
    destruct Hinv as (Hjobs & _). rewrite <- Hjobs.
    apply elem_of_app. left. apply list_elem_of_fmap_2.
    eapply list_elem_of_lookup_2. exact Hk. }
  split; [|split; [|split]].
  - destruct Hinv as (Hjobs & _ & _ & _ & Hdel & _).
    rewrite <- Hjobs, results_of_app, Hdel.
    apply submseteq_inserts_r, sublist_submseteq, sent_results_sublist, Hres.
  - intros Hclosed. destruct Hinv as (Hjobs & _ & _ & _ & Hdel & Hcl).
    destruct (Hcl Hclosed) as [Hus Hfin].
    rewrite <- Hjobs, Hus, app_nil_r, Hdel.
    rewrite (sent_results_finished _ outside Hres Hfin). reflexivity.
  - apply pool_progress; assumption.
  - intros s' Hstep. exact (pool_measure _ _ _ _ _ _ Hinv Hstep).
Qed.

Lemma results_exactly_once_witness :
  let outside := fun _ : nat => unreachable_env in
  let one := opts_of "https://github.com/acme/one.git" "out/acme/one" 1 SkipExisting in
  let failure := outcome unreachable_env one in
  let s := Build_State [] [Finished one failure] 0 0 [] true
             [clone_result one failure] in
  reachable outside 1 1 [one] s /\
  delivered s ≡ₚ [clone_result one failure] /\
  Unwrap (default (errorString "") failure) <> None /\
  done s.
Proof.
  intros outside one failure s.
  assert (Hreach : reachable outside 1 1 [one] s).
  { eapply reachable_step; [eapply reachable_step; [eapply reachable_step;
      [eapply reachable_step; [eapply reachable_step; [eapply reachable_step;
      [eapply reachable_step; [eapply reachable_step|]|]|]|]|]|]|].
    - apply reachable_init.
    - apply step_spawn.
    - apply (step_acquire outside 1 1 [] [] one []). lia.
    - apply (step_execute outside 1 1 [] [] one 2
               (snd (default (None, []) (CloneRepository unreachable_env 2 one [])))
               failure []).
      vm_compute. reflexivity.
    - apply (step_send outside 1 1 [] [] one failure []). simpl. lia.
    - apply (step_release outside 1 1 [] [] one failure []).
    - apply (step_done outside 1 1 [] [] one failure []).
    - apply step_close.
    - apply (step_receive outside 1 1 [] _ 0 0 (clone_result one failure) [] true []). }
  split; [exact Hreach|].
  destruct (results_exactly_once outside 1 [one] s) as (_ & Hall & _);
    [lia | repeat constructor | exact Hreach |].
  split; [exact (Hall eq_refl)|].
  split; [vm_compute; discriminate | split; reflexivity].
Defined.

Lemma no_slots_inv outside capacity jobs s :
  reachable outside 0 capacity jobs s ->
  Forall (fun wk => is_spawned wk = true) (workers s) /\
  delivered s = [] /\
  (closed s = true -> jobs = []).
Proof.
  induction 1 as [|s s' Hreach (Hsp & Hdel & Hcl) Hstep].
  - repeat split; [constructor | discriminate].
  - pose proof (reachable_inv _ _ _ _ _ Hreach) as (Hjobs & _ & _ & Hwg & _).
    assert (Hnone : forall ws1 wk ws2,
              workers s = ws1 ++ wk :: ws2 -> is_spawned wk = true).
    { intros ws1 wk ws2 Heq. rewrite Heq in Hsp.
      apply Forall_app in Hsp as [_ Hsp]. apply Forall_cons in Hsp as [Hsp _].
      exact Hsp. }
    destruct Hstep; pool_simpl;
      try (specialize (Hnone _ _ _ eq_refl); discriminate).
    + split; [|split; assumption].
      apply Forall_app_2; [assumption | repeat constructor].
    + lia.
    + exfalso.
      assert (Hj : is_spawned (Sent o' e) = true).
      { rewrite Forall_forall in Hsp. apply Hsp.
        eapply list_elem_of_lookup_2. eassumption. }
      discriminate.
    + split; [assumption|]. split; [assumption|]. intros _.
      destruct ws as [|wk ws]; [rewrite <- Hjobs; reflexivity|].
      apply Forall_cons in Hsp as [Hwk _]. unfold count in Hwg. simpl in Hwg.
      destruct wk; discriminate.
    + destruct rcv; discriminate.
Qed.

(** When no call returns, no worker gets past its call. *)
Lemma no_return_inv outside maxConcurrent capacity jobs s :
  (forall k fuel o, o ∈ jobs -> CloneRepository (outside k) fuel o [] = None) ->
  reachable outside maxConcurrent capacity jobs s ->
  Forall (fun wk => past_call wk = false) (workers s) /\
  delivered s = [] /\
  (closed s = true -> jobs = []).
Proof.
  intros Hnever. induction 1 as [|s s' Hreach (Hpast & Hdel & Hcl) Hstep].
  - repeat split; [constructor | discriminate].
  - pose proof (reachable_inv _ _ _ _ _ Hreach) as (Hjobs & _ & _ & Hwg & _).
    assert (Hnone : forall ws1 wk ws2,
              workers s = ws1 ++ wk :: ws2 -> past_call wk = false).
    { intros ws1 wk ws2 Heq. rewrite Heq in Hpast.
      apply Forall_app in Hpast as [_ Hp]. apply Forall_cons in Hp as [Hp _].
      exact Hp. }
    destruct Hstep; pool_simpl;
      try (specialize (Hnone _ _ _ eq_refl); discriminate).
    + (* spawn *)
      split; [|split; assumption].
      apply Forall_app_2; [assumption | repeat constructor].
    + (* acquire *)
      split; [|split; assumption].
      apply Forall_app in Hpast as [Hp1 Hp2]. apply Forall_cons in Hp2 as [_ Hp2].
      apply Forall_app_2; [assumption | constructor; [reflexivity | assumption]].
    + (* handoff *)
      exfalso.
      assert (Hj : past_call (Sent o' e) = false).
      { rewrite Forall_forall in Hpast. apply Hpast.
        eapply list_elem_of_lookup_2. eassumption. }
      discriminate.
    + (* execute *)
      exfalso.
      match goal with
      | H : CloneRepository _ _ _ _ = Some _ |- _ =>
          rewrite Hnever in H; [discriminate|]
      end.
      rewrite <- Hjobs, jobs_middle. apply elem_of_app. left.
      apply elem_of_app. right. left.
    + (* close *)
      split; [assumption|]. split; [assumption|]. intros _.
      destruct ws as [|wk ws]; [rewrite <- Hjobs; reflexivity|].
      apply Forall_cons in Hpast as [Hwk _]. unfold count in Hwg. simpl in Hwg.
      destruct wk; discriminate.
    + (* receive *)
      destruct rcv; discriminate.
Qed.

(** C2, as stated, fails in two ways.  For [maxConcurrent = 0] the
    semaphore is an unbuffered channel nobody receives from, so that no
    worker gets past it: nothing is ever delivered, the stream is never
    closed, and once the workers are started the run cannot move.  And with
    the largest retry budget, in a world where every clone fails, the
    executor does not return: its worker holds its slot for ever, nothing
    is delivered and the stream is never closed, whatever [maxConcurrent]
    is. *)
Lemma results_not_delivered_counterexample :
  (let outside := fun _ : nat => unreachable_env in
   let one := opts_of "https://github.com/acme/one.git" "out/acme/one" 3 SkipExisting in
   (forall s, reachable outside 0 1 [one] s -> delivered s = [] /\ closed s = false) /\
   (exists s, reachable outside 0 1 [one] s /\ ~ done s /\
              forall s', ~ step outside 0 1 s s')) /\
  (let outside := fun _ : nat => unreachable_env in
   let one := opts_of "https://github.com/acme/one.git" "out/acme/one"
                GoInt.max_int SkipExisting in
   (forall s, reachable outside 1 1 [one] s -> delivered s = [] /\ closed s = false) /\
   (exists s, reachable outside 1 1 [one] s /\ ~ done s /\
              forall s', ~ step outside 1 1 s s')).
Proof.
  split.
  - intros outside one. split.
    + intros s Hreach. destruct (no_slots_inv _ _ _ _ Hreach) as (_ & Hdel & Hcl).
      split; [exact Hdel|]. destruct (closed s); [|reflexivity].
      specialize (Hcl eq_refl). discriminate.
    + exists (Build_State [] [Spawned one] 0 1 [] false []).
      split; [|split].
      * eapply reachable_step; [apply reachable_init | apply step_spawn].
      * intros [Hc _]. discriminate.
      * intros s' Hstep. inversion Hstep; subst;
          try match goal with
              | H : ?ws1 ++ _ :: _ = [_] |- _ =>
                  destruct ws1 as [|? [|? ?]]; discriminate
              end; try lia.
        match goal with
        | H : [Spawned one] !! ?j = Some (Sent _ _) |- _ =>
            destruct j as [|[|?]]; discriminate
        end.
  - intros outside one.
    assert (Hnever : forall (k fuel : nat) o, o ∈ [one] ->
              CloneRepository (outside k) fuel o [] = None).
    { intros k fuel o Ho. apply list_elem_of_singleton in Ho as ->.
      apply CloneRepository_without_end. }
    split.
    + intros s Hreach.
      destruct (no_return_inv _ _ _ _ _ Hnever Hreach) as (_ & Hdel & Hcl).
      split; [exact Hdel|]. destruct (closed s); [|reflexivity].
      specialize (Hcl eq_refl). discriminate.
    + exists (Build_State [] [Running one] 1 1 [] false []).
      split; [|split].
      * eapply reachable_step; [eapply reachable_step|].
        -- apply reachable_init.
        -- apply step_spawn.
        -- apply (step_acquire outside 1 1 [] [] one []). lia.
      * intros [Hc _]. discriminate.
      * intros s' Hstep. inversion Hstep; subst;
          try match goal with
              | H : ?ws1 ++ _ :: _ = [_] |- _ =>
                  destruct ws1 as [|? [|? ?]]; try discriminate
              end; try lia.
        match goal with
        | H : [] ++ Running ?o :: _ = [Running one] |- _ =>
            injection H as -> _
        end.
        match goal with
        | H : CloneRepository _ _ _ _ = Some _ |- _ =>
            rewrite (Hnever _ _ one) in H by apply list_elem_of_here;
            discriminate
        end.
Qed.

(** * The rest of the code: properties *)

(** ** The executor, whatever its options *)

Lemma removals_in_app tr1 tr2 :
  removals_in (tr1 ++ tr2) = (removals_in tr1 + removals_in tr2)%nat.
Proof. unfold removals_in. rewrite filter_app, length_app. reflexivity. Qed.

Lemma count_none (p : Event -> bool) tr :
  Forall (fun ev => p ev = false) tr ->
  length (filter (fun ev => p ev = true) tr) = 0%nat.
Proof.
  induction 1 as [|ev tr Hev _ IH]; [reflexivity|].
  rewrite filter_cons_False by congruence. exact IH.
Qed.

Lemma loop_event_kind dir cwd ev :
  is_loop_event ev = true ->
  is_removal ev = false /\ is_stat ev = false /\ touches_only dir cwd ev.
Proof. destruct ev; try discriminate; repeat split. Qed.

Lemma update_event_kind ev :
  is_update_event ev = true -> is_removal ev = false /\ is_clone ev = false.
Proof.
  destruct ev; try discriminate; intros H; repeat split.
  unfold is_update_event in H.
  destruct (is_clone (EvGit timeout args)); [discriminate H | reflexivity].
Qed.

Lemma loop_events_counts dir cwd tr :
  Forall (fun ev => is_loop_event ev = true) tr ->
  removals_in tr = 0%nat /\ stats_in tr = 0%nat /\
  Forall (touches_only dir cwd) tr.
Proof.
  intros H. split; [|split].
  - apply count_none. eapply Forall_impl; [exact H|].
    intros ev Hev. apply (loop_event_kind dir cwd ev Hev).
  - apply count_none. eapply Forall_impl; [exact H|].
    intros ev Hev. apply (loop_event_kind dir cwd ev Hev).
  - eapply Forall_impl; [exact H|].
    intros ev Hev. apply (loop_event_kind dir cwd ev Hev).
Qed.

Lemma update_events_counts tr :
  Forall (fun ev => is_update_event ev = true) tr ->
  removals_in tr = 0%nat /\ clones_in tr = 0%nat.
Proof.
  intros H. split.
  - apply count_none. eapply Forall_impl; [exact H|].
    intros ev Hev. apply (update_event_kind ev Hev).
  - apply count_none. eapply Forall_impl; [exact H|].
    intros ev Hev. apply (update_event_kind ev Hev).
Qed.

Lemma retry_loop_events E opts : forall fuel k lastErr w r w',
  retry_loop E fuel opts k lastErr w = Some (r, w') ->
  exists tr, w' = w ++ tr /\ Forall (fun ev => is_loop_event ev = true) tr.
Proof.
  induction fuel as [|fuel IH]; intros k lastErr w r w'; simpl;
    destruct (k <=? CloneOptions.MaxRetries opts) eqn:Hle; try discriminate;
    try (intros H; injection H as <- <-; exists []; rewrite app_nil_r;
         split; [reflexivity | constructor]).
  unfold git. destruct (git_CombinedOutput E _ _ _) as [output [err|]].
  - intros H. apply IH in H as (tr & -> & Hall).
    unfold ProgressFunc, Sleep. destruct (0 <? k).
    + exists ([EvProgress (retrying_msg opts k); EvSleep (backoff k);
               clone_event opts;
               EvProgress (attempt_failed_msg k (clone_failed err output))] ++ tr).
      rewrite <- !app_assoc. split; [reflexivity|].
      repeat constructor; try apply is_clone_clone_event. exact Hall.
    + exists ([clone_event opts;
               EvProgress (attempt_failed_msg k (clone_failed err output))] ++ tr).
      rewrite <- !app_assoc. split; [reflexivity|].
      repeat constructor; try apply is_clone_clone_event. exact Hall.
  - intros H. injection H as <- <-. unfold ProgressFunc, Sleep. destruct (0 <? k).
    + exists [EvProgress (retrying_msg opts k); EvSleep (backoff k);
              clone_event opts;
              EvProgress ("Successfully cloned " +:+ CloneOptions.URL opts)].
      rewrite <- !app_assoc. split; [reflexivity|].
      repeat constructor; apply is_clone_clone_event.
    + exists [clone_event opts;
              EvProgress ("Successfully cloned " +:+ CloneOptions.URL opts)].
      rewrite <- !app_assoc. split; [reflexivity|].
      repeat constructor; apply is_clone_clone_event.
Qed.

Lemma fetchAndUpdate_events E opts w r w' :
  fetchAndUpdate E opts w = (r, w') ->
  exists tr, w' = w ++ tr /\ Forall (fun ev => is_update_event ev = true) tr.
Proof.
  unfold fetchAndUpdate, Getwd, Chdir, git, ProgressFunc.
  repeat break_match; intros H; inversion H; subst; trace_shape.
Qed.

(** The directories [fetchAndUpdate] changes into: the target, and back to
    the one [os.Getwd] named. *)
Lemma fetchAndUpdate_touches E opts w r w' :
  fetchAndUpdate E opts w = (r, w') ->
  exists tr,
    w' = w ++ tr /\
    Forall (touches_only (CloneOptions.TargetDir opts)
              (os_Getwd E (S (now w))).1) tr.
Proof.
  unfold fetchAndUpdate, Getwd, Chdir, git, ProgressFunc.
  rewrite !now_snoc.
  destruct (os_Getwd E (S (now w))) as [cwd [e|]]; cbn [fst].
  - intros H; inversion H; subst. eexists [_; _]. rewrite <- !app_assoc.
    split; [reflexivity | repeat constructor].
  - repeat break_match; intros H; inversion H; subst;
      rewrite <- ?app_assoc; cbn [app];
      (eexists; split; [reflexivity|]);
      repeat match goal with
             | |- Forall _ (_ :: _) => constructor
             | |- Forall _ [] => constructor
             end; simpl; auto.
Qed.

(** X1: when the target directory cannot be created, [CloneRepository]
    returns that error, wrapped, at once: the resolver is not asked, and
    nothing is removed or cloned, under every policy and retry budget. *)
Theorem CloneRepository_mkdir_failed E fuel opts w e :
  os_MkdirAll E (now w) (CloneOptions.TargetDir opts) = Some e ->
  exists failure tr,
    CloneRepository E fuel opts w = Some (Some failure, w ++ tr) /\
    Unwrap failure = Some e /\
    Error failure = "failed to create target directory: " +:+ Error e /\
    tr = [EvMkdirAll (CloneOptions.TargetDir opts)] /\
    stats_in tr = 0%nat /\ removals_in tr = 0%nat /\ clones_in tr = 0%nat.
Proof.
  intros Hmk. unfold CloneRepository, MkdirAll. rewrite Hmk.
  eexists _, _. repeat split.
Qed.

Lemma CloneRepository_mkdir_failed_witness :
  exists failure tr,
    CloneRepository read_only_env 4
      (opts_of "https://github.com/acme/tool.git" "out/acme/tool" 3 OverwriteExisting)
      [] = Some (Some failure, [] ++ tr) /\
    Unwrap failure = Some denied /\
    Error failure = "failed to create target directory: " +:+ Error denied /\
    tr = [EvMkdirAll "out/acme/tool"] /\
    stats_in tr = 0%nat /\ removals_in tr = 0%nat /\ clones_in tr = 0%nat.
Proof.
  apply (CloneRepository_mkdir_failed read_only_env 4
           (opts_of "https://github.com/acme/tool.git" "out/acme/tool" 3
              OverwriteExisting) [] denied).
  reflexivity.
Defined.

Lemma retry_loop_policy E p opts : forall fuel k lastErr w,
  retry_loop E fuel (with_policy p opts) k lastErr w =
  retry_loop E fuel opts k lastErr w.
Proof.
  induction fuel as [|fuel IH]; intros k lastErr w; [reflexivity|].
  cbn [retry_loop]. change (CloneOptions.MaxRetries (with_policy p opts))
    with (CloneOptions.MaxRetries opts).
  destruct (k <=? CloneOptions.MaxRetries opts); [|reflexivity].
  change (retrying_msg (with_policy p opts) k) with (retrying_msg opts k).
  change (clone_args (with_policy p opts)) with (clone_args opts).
  change (CloneOptions.CloneTimeout (with_policy p opts))
    with (CloneOptions.CloneTimeout opts).
  destruct (git E _ _ _) as [[output [err|]] w1]; [apply IH | reflexivity].
Qed.

(** X2: when the target directory is not a working copy the policy plays no
    part: under each of the three [CloneRepository] does the same, which is
    to create the directory, look for [.git] and run the clone loop. *)
Theorem CloneRepository_without_working_copy E fuel opts w e :
  os_Stat E (S (now w))
    (filepath_Join E [CloneOptions.TargetDir opts; ".git"]) = Some e ->
  (forall p,
     CloneRepository E fuel (with_policy p opts) w =
     CloneRepository E fuel opts w) /\
  (os_MkdirAll E (now w) (CloneOptions.TargetDir opts) = None ->
   CloneRepository E fuel opts w =
   retry_loop E fuel opts 0 None
     (w ++ [EvMkdirAll (CloneOptions.TargetDir opts);
            EvStat (filepath_Join E [CloneOptions.TargetDir opts; ".git"])])).
Proof.
  intros Hstat.
  assert (Hres : forall o, CloneOptions.TargetDir o = CloneOptions.TargetDir opts ->
            handleExistingRepo E o (w ++ [EvMkdirAll (CloneOptions.TargetDir opts)]) =
            (None, w ++ [EvMkdirAll (CloneOptions.TargetDir opts);
                         EvStat (filepath_Join E [CloneOptions.TargetDir opts; ".git"])])).
  { intros o Ho. unfold handleExistingRepo, isGitRepo, Stat.
    rewrite Ho, now_snoc, Hstat. simpl. rewrite <- app_assoc. reflexivity. }
  split.
  - intros p. unfold CloneRepository, MkdirAll.
    change (CloneOptions.TargetDir (with_policy p opts))
      with (CloneOptions.TargetDir opts).
    destruct (os_MkdirAll E (now w) (CloneOptions.TargetDir opts)); [reflexivity|].
    rewrite (Hres opts eq_refl), (Hres (with_policy p opts) eq_refl).
    apply retry_loop_policy.
  - intros Hmk. unfold CloneRepository, MkdirAll. rewrite Hmk, (Hres opts eq_refl).
    reflexivity.
Qed.

Lemma CloneRepository_without_working_copy_witness :
  let E := env_of (Some no_such_file) None ("", None) (fun _ => ("", None)) in
  let opts := opts_of "https://github.com/acme/tool.git" "out/acme/tool" 3 SkipExisting in
  (forall p,
     CloneRepository E 4 (with_policy p opts) [] = CloneRepository E 4 opts []) /\
  (os_MkdirAll E (now []) (CloneOptions.TargetDir opts) = None ->
   CloneRepository E 4 opts [] =
   retry_loop E 4 opts 0 None
     ([] ++ [EvMkdirAll (CloneOptions.TargetDir opts);
             EvStat (filepath_Join E [CloneOptions.TargetDir opts; ".git"])])).
Proof.
  intros E opts.
  apply (CloneRepository_without_working_copy E 4 opts [] no_such_file).
  reflexivity.
Defined.

Lemma retry_loop_success E opts : forall fuel k lastErr w w',
  retry_loop E fuel opts k lastErr w = Some (None, w') ->
  exists pre output,
    w' = pre ++ [clone_event opts; EvProgress (cloned_notice opts)] /\
    git_CombinedOutput E (now pre) (CloneOptions.CloneTimeout opts)
      (clone_args opts) = (output, None).
Proof.
  induction fuel as [|fuel IH]; intros k lastErr w w'; simpl;
    destruct (k <=? CloneOptions.MaxRetries opts); try discriminate.
  unfold git. destruct (git_CombinedOutput E _ _ _) as [output [err|]] eqn:Hgit.
  - apply IH.
  - intros H. injection H as <-. eexists _, output.
    unfold ProgressFunc. rewrite <- app_assoc. split; [reflexivity | exact Hgit].
Qed.

(** X3: [CloneRepository] returns [nil] in two cases only.  Either git has
    just answered a clone without error, and the report of that success is
    the last thing the call did; or the policy is [SkipExisting], the target
    held a working copy, and the call did nothing but say so. *)
Theorem CloneRepository_success E fuel opts w w' :
  CloneRepository E fuel opts w = Some (None, w') ->
  (exists pre output,
     w' = pre ++ [clone_event opts; EvProgress (cloned_notice opts)] /\
     git_CombinedOutput E (now pre) (CloneOptions.CloneTimeout opts)
       (clone_args opts) = (output, None)) \/
  (CloneOptions.ExistingRepo opts = SkipExisting /\
   working_copy_at E opts (S (now w)) /\
   w' = w ++ [EvMkdirAll (CloneOptions.TargetDir opts);
              EvStat (filepath_Join E [CloneOptions.TargetDir opts; ".git"]);
              EvProgress (skip_notice opts)]).
Proof.
  unfold CloneRepository, MkdirAll.
  destruct (os_MkdirAll E _ _); [discriminate|].
  destruct (handleExistingRepo E opts _) as [[err|] w1] eqn:Hres.
  - destruct (CloneOptions.ExistingRepo opts) eqn:Hpol; try discriminate.
    intros H. injection H as <-. right. split; [reflexivity|].
    revert Hres. unfold handleExistingRepo, isGitRepo, Stat, working_copy_at.
    rewrite now_snoc, Hpol.
    destruct (os_Stat E _ _); simpl; [discriminate|].
    intros H. injection H as _ <-. split; [reflexivity|].
    unfold ProgressFunc. rewrite <- !app_assoc. reflexivity.
  - intros H. left. exact (retry_loop_success E opts _ _ _ _ _ H).
Qed.

Lemma CloneRepository_success_witness :
  let E := env_of None None ("", None) (fun _ => ("", None)) in
  let opts := opts_of "https://github.com/acme/tool.git" "out/acme/tool" 3 SkipExisting in
  let w' := [EvMkdirAll "out/acme/tool"; EvStat "out/acme/tool/.git";
             EvProgress "Skipping existing repository: https://github.com/acme/tool.git"] in
  (exists pre output,
     w' = pre ++ [clone_event opts; EvProgress (cloned_notice opts)] /\
     git_CombinedOutput E (now pre) (CloneOptions.CloneTimeout opts)
       (clone_args opts) = (output, None)) \/
  (CloneOptions.ExistingRepo opts = SkipExisting /\
   working_copy_at E opts (S (now [])) /\
   w' = [] ++ [EvMkdirAll (CloneOptions.TargetDir opts);
               EvStat (filepath_Join E [CloneOptions.TargetDir opts; ".git"]);
               EvProgress (skip_notice opts)]).
Proof.
  intros E opts w'. apply (CloneRepository_success E 4 opts [] w'). reflexivity.
Defined.

(** X4: with room for it in an [int] ([MaxRetries] below the largest) and
    fuel for [MaxRetries + 1] rounds, [CloneRepository] returns, whatever
    the outside world answers, and has started at most [MaxRetries + 1]
    clones (none when [MaxRetries] is negative). *)
Theorem CloneRepository_returns E fuel opts w :
  CloneOptions.MaxRetries opts < GoInt.max_int ->
  (Z.to_nat (CloneOptions.MaxRetries opts + 1) <= fuel)%nat ->
  exists r tr,
    CloneRepository E fuel opts w = Some (r, w ++ tr) /\
    (clones_in tr <= Z.to_nat (CloneOptions.MaxRetries opts + 1))%nat.
Proof.
  intros Hmax Hfuel. unfold CloneRepository, MkdirAll.
  destruct (os_MkdirAll E _ _) as [e|].
  - eexists _, [_]. split; [reflexivity | unfold clones_in; simpl; lia].
  - destruct (handleExistingRepo E opts _) as [r w1] eqn:Hres.
    apply handleExistingRepo_trace in Hres as (tr & -> & Hq).
    pose proof (quiet_no_clones tr Hq) as Hnone.
    assert (Hhead : clones_in
              (EvMkdirAll (CloneOptions.TargetDir opts)
               :: EvStat (filepath_Join E [CloneOptions.TargetDir opts; ".git"])
               :: tr) = 0%nat) by exact Hnone.
    destruct r as [err|].
    + exists (match CloneOptions.ExistingRepo opts with
              | SkipExisting => None
              | _ => Some err
              end),
             (EvMkdirAll (CloneOptions.TargetDir opts)
              :: EvStat (filepath_Join E [CloneOptions.TargetDir opts; ".git"])
              :: tr).
      rewrite <- app_assoc. simpl. rewrite Hhead.
      split; [destruct (CloneOptions.ExistingRepo opts); reflexivity | lia].
    + destruct (retry_loop_bounded E opts Hmax fuel 0 None
                  ((w ++ [EvMkdirAll (CloneOptions.TargetDir opts)]) ++
                   EvStat (filepath_Join E [CloneOptions.TargetDir opts; ".git"])
                   :: tr) ltac:(lia))
        as (r & tr' & Hrun & Hcount).
      { replace (CloneOptions.MaxRetries opts - 0 + 1)
          with (CloneOptions.MaxRetries opts + 1) by lia. exact Hfuel. }
      exists r, ((EvMkdirAll (CloneOptions.TargetDir opts)
                  :: EvStat (filepath_Join E [CloneOptions.TargetDir opts; ".git"])
                  :: tr) ++ tr').
      rewrite Hrun, clones_in_app, Hhead. rewrite <- !app_assoc. simpl.
      split; [reflexivity|].
      replace (CloneOptions.MaxRetries opts - 0 + 1)
        with (CloneOptions.MaxRetries opts + 1) in Hcount by lia. exact Hcount.
Qed.

Lemma CloneRepository_returns_witness :
  let E := env_of (Some no_such_file) None ("", None)
             (fun _ => ("fatal: unable to access", Some exit_128)) in
  let opts := opts_of "https://github.com/acme/tool.git" "out/acme/tool" 3 SkipExisting in
  exists r tr,
    CloneRepository E 4 opts [] = Some (r, [] ++ tr) /\
    (clones_in tr <= Z.to_nat (CloneOptions.MaxRetries opts + 1))%nat.
Proof.
  intros E opts. apply (CloneRepository_returns E 4 opts []).
  - vm_compute. reflexivity.
  - simpl. lia.
Defined.

(** X5: once [fetchAndUpdate] has entered the repository it leaves it
    again: whether the fetch and the reset work or not, the last thing it
    does is to change back to the directory [os.Getwd] had named. *)
Theorem fetchAndUpdate_restores_directory E opts w cwd r w' :
  os_Getwd E (S (now w)) = (cwd, None) ->
  os_Chdir E (S (S (now w))) (CloneOptions.TargetDir opts) = None ->
  fetchAndUpdate E opts w = (r, w') ->
  exists pre, w' = pre ++ [EvChdir cwd].
Proof.
  intros Hwd Hcd. unfold fetchAndUpdate, Getwd, Chdir, git, ProgressFunc.
  rewrite !now_snoc, Hwd, Hcd.
  repeat break_match; intros H; inversion H; subst; eexists; reflexivity.
Qed.

Lemma fetchAndUpdate_restores_directory_witness :
  let E := env_of None None ("fatal: unable to access", Some exit_128)
             (fun _ => ("", None)) in
  let opts := opts_of "https://github.com/acme/tool.git" "out/acme/tool" 3 FetchOnly in
  exists pre, (fetchAndUpdate E opts []).2 = pre ++ [EvChdir "/work"].
Proof.
  intros E opts.
  apply (fetchAndUpdate_restores_directory E opts [] "/work"
           (fetchAndUpdate E opts []).1);
    [reflexivity | reflexivity | destruct (fetchAndUpdate E opts []); reflexivity].
Defined.

Lemma handleExistingRepo_removals E opts w r w' :
  handleExistingRepo E opts w = (r, w') ->
  exists tr,
    w' = w ++ EvStat (filepath_Join E [CloneOptions.TargetDir opts; ".git"]) :: tr /\
    (removals_in tr <= 1)%nat /\
    (removals_in tr = 1%nat ->
     CloneOptions.ExistingRepo opts = OverwriteExisting /\
     os_Stat E (now w)
       (filepath_Join E [CloneOptions.TargetDir opts; ".git"]) = None) /\
    Forall (touches_only (CloneOptions.TargetDir opts)
              (os_Getwd E (now w + 2)).1) tr.
Proof.
  unfold handleExistingRepo, isGitRepo, Stat, RemoveAll, ProgressFunc.
  destruct (os_Stat _ _ _) eqn:Hs; simpl.
  - intros H; inversion H; subst. exists [].
    split; [reflexivity|]. split; [unfold removals_in; simpl; lia|].
    split; [discriminate | constructor].
  - destruct (CloneOptions.ExistingRepo opts) eqn:Hp.
    + intros H; inversion H; subst. eexists [_]. rewrite <- app_assoc.
      split; [reflexivity|]. split; [unfold removals_in; simpl; lia|].
      split; [discriminate | repeat constructor].
    + assert (Hone : removals_in
                [EvProgress ("Removing existing repository: " +:+
                             CloneOptions.TargetDir opts);
                 EvRemoveAll (CloneOptions.TargetDir opts)] = 1%nat) by reflexivity.
      destruct (os_RemoveAll _ _ _); intros H; inversion H; subst;
        eexists [_; _]; rewrite <- !app_assoc;
        (split; [reflexivity|]); rewrite Hone;
        (split; [lia|]); (split; [auto | repeat constructor]).
    + intros H. pose proof H as Hev.
      apply fetchAndUpdate_events in Hev as (tr & -> & Hall).
      apply fetchAndUpdate_touches in H as (tr' & Heq & Ht).
      apply app_inv_head in Heq as <-.
      destruct (update_events_counts tr Hall) as (Hr & _).
      exists tr. rewrite <- app_assoc. split; [reflexivity|]. rewrite Hr.
      split; [lia|]. split; [discriminate|].
      rewrite now_snoc in Ht. replace (now w + 2)%nat with (S (S (now w))) by lia.
      exact Ht.
Qed.

(** X6: a call of [CloneRepository] removes at most once, only under
    [OverwriteExisting] and only when it found a working copy.  The one
    directory it ever creates or removes is the target directory, and it
    changes into no directory but the target and, to go back, the one
    [os.Getwd] named when it was asked (the fourth thing the call does). *)
Theorem CloneRepository_removes_only_to_overwrite E fuel opts w r w' :
  CloneRepository E fuel opts w = Some (r, w') ->
  exists tr,
    w' = w ++ tr /\
    (removals_in tr <= 1)%nat /\
    (removals_in tr = 1%nat ->
     CloneOptions.ExistingRepo opts = OverwriteExisting /\
     working_copy_at E opts (S (now w))) /\
    Forall (touches_only (CloneOptions.TargetDir opts)
              (os_Getwd E (now w + 3)).1) tr.
Proof.
  unfold CloneRepository, MkdirAll, working_copy_at.
  destruct (os_MkdirAll E _ _) as [e|].
  - intros H. injection H as _ <-. exists [EvMkdirAll (CloneOptions.TargetDir opts)].
    split; [reflexivity|]. split; [unfold removals_in; simpl; lia|].
    split; [discriminate | repeat constructor].
  - destruct (handleExistingRepo E opts _) as [res w1] eqn:Hres.
    apply handleExistingRepo_removals in Hres as (tr & -> & Hle & Hone & Ht).
    rewrite now_snoc in Hone, Ht.
    replace (S (now w) + 2)%nat with (now w + 3)%nat in Ht by lia.
    assert (Hhead : forall tr',
              removals_in (EvMkdirAll (CloneOptions.TargetDir opts)
                           :: EvStat (filepath_Join E [CloneOptions.TargetDir opts; ".git"])
                           :: tr') = removals_in tr') by reflexivity.
    destruct res as [err|].
    + intros H.
      assert (w' = w ++ EvMkdirAll (CloneOptions.TargetDir opts)
                     :: EvStat (filepath_Join E [CloneOptions.TargetDir opts; ".git"])
                     :: tr) as ->.
      { rewrite <- app_assoc in H. simpl in H.
        destruct (CloneOptions.ExistingRepo opts); injection H as _ <-; reflexivity. }
      eexists. split; [reflexivity|]. rewrite Hhead.
      split; [exact Hle|]. split; [exact Hone | repeat constructor; exact Ht].
    + intros H. apply retry_loop_events in H as (tr' & -> & Hall).
      destruct (loop_events_counts (CloneOptions.TargetDir opts)
                  (os_Getwd E (now w + 3)).1 tr' Hall) as (Hr & _ & Ht').
      exists ((EvMkdirAll (CloneOptions.TargetDir opts)
               :: EvStat (filepath_Join E [CloneOptions.TargetDir opts; ".git"])
               :: tr) ++ tr').
      rewrite <- !app_assoc. simpl. split; [reflexivity|].
      change (removals_in (EvMkdirAll ?d :: EvStat ?p :: tr ++ tr'))
        with (removals_in (tr ++ tr')).
      rewrite removals_in_app, Hr, Nat.add_0_r.
      split; [exact Hle|]. split; [exact Hone|].
      repeat constructor. apply Forall_app_2; assumption.
Qed.

Lemma CloneRepository_removes_only_to_overwrite_witness :
  let E := env_of None None ("", None) (fun _ => ("", None)) in
  let opts := opts_of "https://github.com/acme/tool.git" "out/acme/tool" 3
                FetchOnly in
  exists r w' tr,
    CloneRepository E 4 opts [] = Some (r, w') /\
    w' = [] ++ tr /\
    (removals_in tr <= 1)%nat /\
    (removals_in tr = 1%nat ->
     CloneOptions.ExistingRepo opts = OverwriteExisting /\
     working_copy_at E opts (S (now []))) /\
    Forall (touches_only "out/acme/tool" "/work") tr /\
    EvChdir "/work" ∈ tr.
Proof.
  intros E opts.
  destruct (CloneRepository E 4 opts []) as [[r w']|] eqn:Hrun;
    [|vm_compute in Hrun; discriminate].
  exists r, w'.
  destruct (CloneRepository_removes_only_to_overwrite E 4 opts [] r w' Hrun)
    as (tr & Heq & Hle & Hone & Ht).
  exists tr. split; [reflexivity|]. split; [exact Heq|].
  split; [exact Hle|]. split; [exact Hone|]. split; [exact Ht|].
  vm_compute in Hrun. injection Hrun as _ <-. simpl in Heq. subst tr.
  apply list_elem_of_In. do 8 right. left. reflexivity.
Defined.

(** X7: the back-off is one second before the first retry and doubles from
    one retry to the next, as far as attempt 34. *)
Theorem backoff_doubles k :
  1 <= k < 34 ->
  backoff 1 = Duration.Second /\ backoff (k + 1) = 2 * backoff k.
Proof.
  intros Hk. split; [reflexivity|].
  rewrite !backoff_spec by lia. unfold spec_backoff.
  replace (k + 1 - 1) with (Z.succ (k - 1)) by lia.
  rewrite Z.pow_succ_r by lia. lia.
Qed.

Lemma backoff_doubles_witness :
  backoff 1 = Duration.Second /\ backoff (3 + 1) = 2 * backoff 3.
Proof. apply (backoff_doubles 3). lia. Defined.

(** X8: [isDirEmpty] says "empty" only without an error, and in two cases:
    the directory does not exist, or it opens and the text of the error of
    the first read is "EOF".  An error it returns is the very error of
    [os.Open] or of the read, and comes with "not empty". *)
Theorem isDirEmpty_answers D dir empty e :
  isDirEmpty D dir = (empty, e) ->
  (empty = true ->
   e = None /\
   ((exists err, dir_Open D dir = Some err /\ dir_IsNotExist D err = true) \/
    (dir_Open D dir = None /\
     exists err, dir_Readdirnames D dir = Some err /\ Error err = "EOF"))) /\
  (forall err, e = Some err ->
     empty = false /\
     (dir_Open D dir = Some err \/
      (dir_Open D dir = None /\ dir_Readdirnames D dir = Some err))).
Proof.
  unfold isDirEmpty.
  destruct (dir_Open D dir) as [oerr|] eqn:Hopen.
  - destruct (dir_IsNotExist D oerr) eqn:Hne; intros H; injection H as <- <-.
    + split; [intros _; split; [reflexivity | left; eauto] | discriminate].
    + split; [discriminate|]. intros err Herr. injection Herr as <-. auto.
  - destruct (dir_Readdirnames D dir) as [rerr|] eqn:Hread.
    + destruct (String.eqb (Error rerr) "EOF") eqn:Heof;
        intros H; injection H as <- <-.
      * apply String.eqb_eq in Heof.
        split; [intros _; split; [reflexivity | right; eauto] | discriminate].
      * split; [discriminate|]. intros err Herr. injection Herr as <-. auto.
    + intros H; injection H as <- <-. split; discriminate.
Qed.

Lemma isDirEmpty_answers_witness :
  let dir := "out/acme/tool" in
  let e : option error := None in
  (true = true ->
   e = None /\
   ((exists err, dir_Open dir_missing dir = Some err /\
                 dir_IsNotExist dir_missing err = true) \/
    (dir_Open dir_missing dir = None /\
     exists err, dir_Readdirnames dir_missing dir = Some err /\
                 Error err = "EOF"))) /\
  (forall err, e = Some err ->
     true = false /\
     (dir_Open dir_missing dir = Some err \/
      (dir_Open dir_missing dir = None /\
       dir_Readdirnames dir_missing dir = Some err))).
Proof.
  intros dir e. apply (isDirEmpty_answers dir_missing dir true e). reflexivity.
Defined.

(** ** The manager: registration and look-up *)

Lemma find_by_name_app org name (l1 l2 : list Repository.t) :
  find_by_name org name (l1 ++ l2) =
  match find_by_name org name l1 with
  | Some i => Some i
  | None => (fun i => (length l1 + i)%nat) <$> find_by_name org name l2
  end.
Proof.
  induction l1 as [|r l1 IH]; simpl.
  - destruct (find_by_name org name l2); reflexivity.
  - destruct (_ && _); [reflexivity|]. rewrite IH.
    destruct (find_by_name org name l1); [reflexivity|].
    destruct (find_by_name org name l2); reflexivity.
Qed.

Lemma find_by_name_Some org name (rs : list Repository.t) : forall i,
  find_by_name org name rs = Some i ->
  exists r, rs !! i = Some r /\
            Repository.Organization r = org /\ Repository.Name r = name.
Proof.
  induction rs as [|r0 rs IH]; intros i; simpl; [discriminate|].
  destruct (String.eqb (Repository.Organization r0) org) eqn:Ho;
    destruct (String.eqb (Repository.Name r0) name) eqn:Hn; simpl;
    try (destruct (find_by_name org name rs) as [j|]; [|discriminate];
         intros H; injection H as <-; exact (IH j eq_refl)).
  intros H. injection H as <-. exists r0.
  apply String.eqb_eq in Ho, Hn. auto.
Qed.

(** X9: after [AddRepository org name ...], [GetRepository org name] finds
    a repository of that organization and name.  It is the one just added,
    pending and last in the list, when none was registered under that name;
    otherwise it is still the one that was found before. *)
Theorem GetRepository_after_AddRepository org name url branch strategy rm :
  let rm' := AddRepository org name url branch strategy rm in
  exists i r,
    GetRepository org name rm' = Some i /\
    repositories rm' !! i = Some r /\
    Repository.Organization r = org /\ Repository.Name r = name /\
    (GetRepository org name rm = None ->
     i = length (repositories rm) /\
     r = Repository.mk name org url branch StatusPending None "" strategy) /\
    (forall j, GetRepository org name rm = Some j ->
               i = j /\ repositories rm !! j = Some r).
Proof.
  intros rm'. unfold rm', GetRepository, AddRepository. cbn [repositories].
  rewrite find_by_name_app.
  destruct (find_by_name org name (repositories rm)) as [j|] eqn:Hold.
  - destruct (find_by_name_Some _ _ _ _ Hold) as (r & Hr & Ho & Hn).
    exists j, r. split; [reflexivity|].
    split; [apply lookup_app_l_Some; exact Hr|].
    split; [exact Ho|]. split; [exact Hn|]. split; [discriminate|].
    intros j' Hj'. injection Hj' as <-. auto.
  - cbn [find_by_name Repository.Organization Repository.Name].
    rewrite !String.eqb_refl. simpl.
    exists (length (repositories rm) + 0)%nat, 
           (Repository.mk name org url branch StatusPending None "" strategy).
    split; [reflexivity|]. rewrite Nat.add_0_r.
    split; [apply list_lookup_middle; reflexivity|].
    split; [reflexivity|]. split; [reflexivity|].
    split; [auto | discriminate].
Qed.

(** X10: [UpdateStatus] never clears an error: with a [nil] error it changes
    the status alone.  So a failed repository put back to [Pending] and
    then given a successful result is [Success] with the error of the
    failure still on it. *)
Theorem UpdateStatus_keeps_error status result r :
  CloneResult.Success result = true ->
  GetStatus (UpdateStatus status None r) =
    (status, Repository.Error r, Repository.Progress r) /\
  GetStatus (record_result result (UpdateStatus StatusPending None r)) =
    (StatusSuccess, Repository.Error r, Repository.Progress r).
Proof.
  intros Hok. unfold record_result. rewrite Hok. split; reflexivity.
Qed.

Lemma UpdateStatus_keeps_error_witness :
  let r := Repository.mk "tool" "acme" "https://github.com/acme/tool.git" ""
             StatusFailed (Some denied) "Clone attempt 4 failed" SkipExisting in
  let result := CloneResult.mk "https://github.com/acme/tool.git" true None in
  GetStatus (UpdateStatus StatusCloning None r) =
    (StatusCloning, Some denied, "Clone attempt 4 failed") /\
  GetStatus (record_result result (UpdateStatus StatusPending None r)) =
    (StatusSuccess, Some denied, "Clone attempt 4 failed").
Proof.
  intros r result. apply (UpdateStatus_keeps_error StatusCloning result r).
  reflexivity.
Defined.

(** ** The manager: what a run does to the statuses *)

Lemma apply_update_not_Retrying u (rs : list Repository.t) i :
  status_at i (apply_update u rs) = Some StatusRetrying ->
  status_at i rs = Some StatusRetrying.
Proof.
  unfold status_at. destruct u as [k status|result]; simpl.
  - unfold progressFunc. destruct (decide (k = i)) as [->|Hne].
    + rewrite list_lookup_alter_eq. destruct (rs !! i); [|discriminate].
      simpl. unfold status_of_progress.
      destruct (strings_Contains status "Updating");
        [|destruct (strings_Contains status "Skipping")]; discriminate.
    + rewrite list_lookup_alter_ne by exact Hne. auto.
  - unfold handle_result. destruct (find_repo _ _) as [k|]; [|auto].
    destruct (decide (k = i)) as [->|Hne].
    + rewrite list_lookup_alter_eq. destruct (rs !! i) as [r|]; [|discriminate].
      simpl. unfold record_result.
      destruct (CloneResult.Success result); [|discriminate].
      destruct (Repository.Status r) eqn:Hst; simpl; rewrite ?Hst;
        try discriminate; auto.
    + rewrite list_lookup_alter_ne by exact Hne. auto.
Qed.

(** X11: no update of a run gives a repository the status [Retrying]: a
    repository that is not [Retrying] when a run starts is not at any later
    moment of it. *)
Theorem run_never_sets_Retrying s s' i :
  run_steps s s' ->
  status_at i (repos s) <> Some StatusRetrying ->
  status_at i (repos s') <> Some StatusRetrying.
Proof.
  induction 1 as [s | s1 s2 s3 Hstep _ IH]; [auto|].
  intros Hnot. apply IH. destruct Hstep as [rs js1 k u us js2]. simpl in *.
  intros H. apply Hnot. exact (apply_update_not_Retrying u rs i H).
Qed.

Lemma run_never_sets_Retrying_witness :
  let E := env_of (Some no_such_file) None ("", None) (fun _ => ("", None)) in
  let rm := manager_of [("one", "https://github.com/acme/one.git", SkipExisting)] in
  let s := run_init E rm (fun _ => (["Retrying in 1s... (attempt 2/3)"], None)) in
  status_at 0 (repos (run_schedule [0%nat] s)) <> Some StatusRetrying.
Proof.
  intros E rm s.
  apply (run_never_sets_Retrying s (run_schedule [0%nat] s) 0%nat).
  - apply run_schedule_steps.
  - vm_compute. discriminate.
Defined.

Lemma find_repo_lookup url (rs : list Repository.t) : forall i,
  find_repo url rs = Some i ->
  exists r, rs !! i = Some r /\ Repository.URL r = url.
Proof.
  induction rs as [|r0 rs IH]; intros i; simpl; [discriminate|].
  destruct (String.eqb (Repository.URL r0) url) eqn:Hu.
  - intros H. injection H as <-. exists r0. apply String.eqb_eq in Hu. auto.
  - destruct (find_repo url rs) as [j|]; [|discriminate].
    intros H. injection H as <-. exact (IH j eq_refl).
Qed.

Lemma run_init_indices E rm plan :
  (todo (run_init E rm plan)).*1 =
  (prepare E (baseDir rm) 0 (repositories rm)).*1.
Proof.
  unfold run_init. cbn [todo]. rewrite <- list_fmap_compose.
  apply list_fmap_ext. intros i job Hjob. reflexivity.
Qed.

Lemma run_init_state E rm plan :
  NoDup (Repository.URL <$> repositories rm) ->
  run_state plan (repositories rm) (run_init E rm plan).
Proof.
  intros Hnd. split; [|split].
  - rewrite run_init_indices. apply prepare_NoDup.
  - unfold run_init. cbn [todo repos]. rewrite Forall_fmap.
    eapply Forall_impl; [apply prepare_indices|].
    intros [i o] (_ & repo & Hlook & Hst & Ho). cbn [fst snd] in *.
    rewrite Nat.sub_0_r in Hlook. right. cbn [fst snd].
    exists (plan i).1, o. split; [reflexivity|]. split; [|reflexivity]. subst o.
    change (CloneOptions.URL (options_for E (baseDir rm) repo))
      with (Repository.URL repo).
    apply (find_repo_unique _ i repo Hlook).
    apply (NoDup_urls_unique _ i repo Hnd Hlook).
  - intros i _ _. reflexivity.
Qed.

(** An update made at [k] leaves the state of a job as it is, when the job
    is not the job of [k] or [k] is where the callbacks write. *)
Lemma job_state_frame plan (rs0 rs rs' : list Repository.t) k job :
  job_state plan rs0 rs job ->
  job.1 <> k \/ k = captured rs0 ->
  (forall j, j <> k -> rs' !! j = rs !! j) ->
  Repository.URL <$> rs' = Repository.URL <$> rs ->
  job_state plan rs0 rs' job.
Proof.
  intros Hjob Hk Hframe Hurls.
  assert (Hsame : job.1 <> captured rs0 -> rs' !! job.1 = rs !! job.1).
  { intros Hne. apply Hframe. destruct Hk as [Hk| ->]; assumption. }
  destruct Hjob as [[Hdone Hout] | (msgs & opts & Hus & Hfind & Hown)].
  - left. split; [exact Hdone|]. intros Hne.
    destruct (Hout Hne) as (r0 & opts & Hr0 & Hr).
    exists r0, opts. rewrite (Hsame Hne). auto.
  - right. exists msgs, opts. split; [exact Hus|]. split.
    + rewrite (find_repo_urls _ rs' rs Hurls). exact Hfind.
    + intros Hne. rewrite (Hsame Hne). exact (Hown Hne).
Qed.

Lemma record_result_outcome opts err r :
  job_outcome err (record_result (clone_result opts err) r).
Proof.
  unfold record_result, job_outcome. destruct err as [e|]; simpl.
  - split; reflexivity.
  - destruct (Repository.Status r) eqn:Hst; simpl; auto.
Qed.

Lemma run_step_state plan rs0 s s' :
  run_state plan rs0 s -> run_step s s' -> run_state plan rs0 s'.
Proof.
  intros (Hnd & Hjobs & Hrest) Hstep.
  destruct Hstep as [rs js1 k u us js2]. cbn [todo repos] in *.
  rewrite fmap_app, fmap_cons in Hnd, Hrest. cbn [fst] in Hnd, Hrest.
  apply Forall_app in Hjobs as [Hjs1 Hjs2].
  apply Forall_cons in Hjs2 as [Hjob Hjs2].
  destruct Hjob as [[Hdone _] | (msgs & opts & Hus & Hfind & Hown)];
    [discriminate|].
  cbn [fst snd] in *.
  assert (Hother : forall job, job ∈ js1 ++ js2 -> job.1 <> k).
  { intros job Hin Heq. apply NoDup_app in Hnd as (_ & Hdisj & Hnd2).
    apply NoDup_cons in Hnd2 as [Hnotin _].
    apply elem_of_app in Hin as [Hin | Hin].
    - apply (Hdisj k); [rewrite <- Heq; apply list_elem_of_fmap_2; exact Hin|left].
    - apply Hnotin. rewrite <- Heq. apply list_elem_of_fmap_2. exact Hin. }
  assert (Hidx : (js1 ++ (k, us) :: js2).*1 = js1.*1 ++ k :: js2.*1)
    by (rewrite fmap_app, fmap_cons; reflexivity).
  destruct msgs as [|m msgs]; simpl in Hus; injection Hus as -> ->.
  - (* the result of job [k]: written to repository [k] *)
    assert (Hframe : forall j, j <> k ->
              apply_update (UpResult (clone_result opts (plan k).2)) rs !! j
              = rs !! j).
    { intros j Hj.
      apply (handle_result_other (clone_result opts (plan k).2) rs k j Hfind Hj). }
    split; [|split]; cbn [todo repos].
    + rewrite Hidx. exact Hnd.
    + apply Forall_app. split; [|apply Forall_cons; split].
      * rewrite Forall_forall in Hjs1 |- *. intros job Hin.
        apply (job_state_frame plan rs0 rs _ k); auto using apply_update_urls.
        left. apply Hother, elem_of_app. left. exact Hin.
      * left. split; [reflexivity|]. cbn [fst snd apply_update]. intros Hne.
        destruct (find_repo_lookup _ _ _ Hfind) as (r & Hr & _).
        exists r, opts. split; [rewrite <- (Hown Hne); exact Hr|].
        unfold handle_result. cbn [CloneResult.RepoURL clone_result].
        rewrite Hfind, list_lookup_alter_eq, Hr. reflexivity.
      * rewrite Forall_forall in Hjs2 |- *. intros job Hin.
        apply (job_state_frame plan rs0 rs _ k); auto using apply_update_urls.
        left. apply Hother, elem_of_app. right. exact Hin.
    + intros i Hi Hne. rewrite Hidx in Hi.
      rewrite Hframe; [apply Hrest; assumption|].
      intros ->. apply Hi. apply elem_of_app. right. left.
  - (* a status of job [k]: written where the callbacks write *)
    assert (Hframe : forall j, j <> captured rs0 ->
              apply_update (UpProgress (captured rs0) m) rs !! j = rs !! j).
    { intros j Hj. apply progressFunc_other. exact Hj. }
    split; [|split]; cbn [todo repos].
    + rewrite Hidx. exact Hnd.
    + apply Forall_app. split; [|apply Forall_cons; split].
      * rewrite Forall_forall in Hjs1 |- *. intros job Hin.
        apply (job_state_frame plan rs0 rs _ (captured rs0));
          auto using apply_update_urls.
      * right. exists msgs, opts. split; [reflexivity|]. cbn [fst]. split.
        -- rewrite (find_repo_urls _ _ rs)
             by apply (apply_update_urls (UpProgress (captured rs0) m)).
           exact Hfind.
        -- intros Hne. rewrite Hframe by exact Hne. exact (Hown Hne).
      * rewrite Forall_forall in Hjs2 |- *. intros job Hin.
        apply (job_state_frame plan rs0 rs _ (captured rs0));
          auto using apply_update_urls.
    + intros i Hi Hne. rewrite Hidx in Hi.
      rewrite Hframe by exact Hne. apply Hrest; assumption.
Qed.

Lemma run_steps_state plan rs0 s s' :
  run_state plan rs0 s -> run_steps s s' ->
  run_state plan rs0 s' /\ (todo s').*1 = (todo s).*1.
Proof.
  intros Hst Hsteps. induction Hsteps as [s | s1 s2 s3 Hstep _ IH]; [auto|].
  destruct (IH (run_step_state _ _ _ _ Hst Hstep)) as [Hst3 Hidx].
  split; [exact Hst3|]. rewrite Hidx.
  destruct Hstep. cbn [todo]. rewrite !fmap_app, !fmap_cons. reflexivity.
Qed.

(** X12: a repository that is not [Pending] when [CloneAll] starts gets no
    job; and with pairwise distinct URLs nothing of it changes during the
    run (status, error and progress text stay as they were), unless it is
    the last of the list, the one every progress callback writes to. *)
Theorem CloneAll_leaves_non_pending E rm plan s i r :
  NoDup (Repository.URL <$> repositories rm) ->
  run_steps (run_init E rm plan) s ->
  repositories rm !! i = Some r ->
  Repository.Status r <> StatusPending ->
  (i ∉ (prepare E (baseDir rm) 0 (repositories rm)).*1) /\
  (i <> captured (repositories rm) -> repos s !! i = Some r).
Proof.
  intros Hnd Hsteps Hi Hst.
  assert (Hno : i ∉ (prepare E (baseDir rm) 0 (repositories rm)).*1).
  { intros Hin. apply list_elem_of_fmap in Hin as ([j o] & -> & Hin).
    pose proof (prepare_indices E (baseDir rm) (repositories rm) 0) as Hall.
    rewrite Forall_forall in Hall. apply Hall in Hin as (_ & r' & Hr' & Hp & _).
    cbn [fst] in *. rewrite Nat.sub_0_r, Hi in Hr'. injection Hr' as <-.
    contradiction. }
  split; [exact Hno|]. intros Hne.
  destruct (run_steps_state plan _ _ _ (run_init_state E rm plan Hnd) Hsteps)
    as [(_ & _ & Hrest) Hidx].
  rewrite Hrest; [exact Hi| |exact Hne]. rewrite Hidx, run_init_indices. exact Hno.
Qed.

Lemma CloneAll_leaves_non_pending_witness :
  let E := env_of (Some no_such_file) None ("", None) (fun _ => ("", None)) in
  let rm := {| repositories :=
                 [Repository.mk "one" "acme" "https://github.com/acme/one.git" ""
                    StatusSkipped None "Skipping existing repository" SkipExisting;
                  Repository.mk "two" "acme" "https://github.com/acme/two.git" ""
                    StatusPending None "" SkipExisting];
               baseDir := "out"; maxConcurrent := 5 |} in
  let plan := fun _ : nat =>
    (["Successfully cloned https://github.com/acme/two.git"], None) in
  let s := run_schedule [0; 0; 0]%nat (run_init E rm plan) in
  (0%nat ∉ (prepare E (baseDir rm) 0 (repositories rm)).*1) /\
  repos s !! 0%nat =
    Some (Repository.mk "one" "acme" "https://github.com/acme/one.git" ""
            StatusSkipped None "Skipping existing repository" SkipExisting).
Proof.
  intros E rm plan s.
  destruct (CloneAll_leaves_non_pending E rm plan s 0%nat
              (Repository.mk "one" "acme" "https://github.com/acme/one.git" ""
                 StatusSkipped None "Skipping existing repository" SkipExisting))
    as [Hno Hsame].
  - apply (bool_decide_unpack _). vm_compute. reflexivity.
  - apply run_schedule_steps.
  - reflexivity.
  - discriminate.
  - split; [exact Hno|]. apply Hsame. discriminate.
Defined.

(** X13: in a run over pairwise distinct URLs, once a job has made all its
    updates its repository, unless it is the last of the list, is [Failed],
    with the error the executor returned, when the executor returned one,
    and [Success] when it returned none, and it is so at every later moment
    of the run.  It is never [Skipped], and its progress text is the one it
    had before the run: what its executor reported went to the last
    repository. *)
Theorem CloneAll_job_outcome E rm plan s i :
  NoDup (Repository.URL <$> repositories rm) ->
  run_steps (run_init E rm plan) s ->
  (i, []) ∈ todo s ->
  i <> captured (repositories rm) ->
  exists r0 r,
    repositories rm !! i = Some r0 /\
    repos s !! i = Some r /\
    job_outcome (plan i).2 r /\
    Repository.Status r <> StatusSkipped /\
    Repository.Progress r = Repository.Progress r0.
Proof.
  intros Hnd Hsteps Hin Hne.
  destruct (run_steps_state plan _ _ _ (run_init_state E rm plan Hnd) Hsteps)
    as [(_ & Hjobs & _) Hidx].
  assert (Hjob : i ∈ (prepare E (baseDir rm) 0 (repositories rm)).*1).
  { rewrite <- (run_init_indices E rm plan), <- Hidx.
    apply (list_elem_of_fmap_2 fst _ (i, [])). exact Hin. }
  apply list_elem_of_fmap in Hjob as ([j o] & Hj & Hjob). cbn [fst] in Hj. subst j.
  pose proof (prepare_indices E (baseDir rm) (repositories rm) 0) as Hall.
  rewrite Forall_forall in Hall.
  apply Hall in Hjob as (_ & r0' & Hr0' & Hpending & _).
  cbn [fst] in Hr0'. rewrite Nat.sub_0_r in Hr0'.
  rewrite Forall_forall in Hjobs.
  destruct (Hjobs _ Hin) as [[_ Hdone] | (msgs & opts & Hus & _)];
    [|cbn [snd] in Hus; destruct msgs; discriminate].
  destruct (Hdone Hne) as (r0 & opts & Hr0 & Hr). cbn [fst] in *.
  rewrite Hr0' in Hr0. injection Hr0 as <-.
  eexists _, _. split; [exact Hr0'|]. split; [exact Hr|].
  split; [apply record_result_outcome|].
  unfold record_result. destruct (plan i).2 as [e|]; cbn [clone_result CloneResult.Success];
    [split; [discriminate | reflexivity]|].
  rewrite Hpending. split; [discriminate | reflexivity].
Qed.

Lemma CloneAll_job_outcome_witness :
  let E := env_of (Some no_such_file) None ("", None) (fun _ => ("", None)) in
  let rm := manager_of [("one", "https://github.com/acme/one.git", SkipExisting);
                        ("two", "https://github.com/acme/two.git", SkipExisting)] in
  let plan := fun i : nat =>
    match i with
    | O => (["Skipping existing repository: https://github.com/acme/one.git"],
            None)
    | _ => (["Successfully cloned https://github.com/acme/two.git"], None)
    end in
  let s := run_schedule [0; 1; 0]%nat (run_init E rm plan) in
  status_at 1 (repos s) = Some StatusCloning /\
  exists r0 r,
    repositories rm !! 0%nat = Some r0 /\
    repos s !! 0%nat = Some r /\
    job_outcome None r /\
    Repository.Status r <> StatusSkipped /\
    Repository.Progress r = Repository.Progress r0.
Proof.
  intros E rm plan s. split; [vm_compute; reflexivity|].
  apply (CloneAll_job_outcome E rm plan s 0%nat).
  - apply (bool_decide_unpack _). vm_compute. reflexivity.
  - apply run_schedule_steps.
  - vm_compute. left.
  - discriminate.
Defined.

(** X14: [CloneAll] prepares one job for each pending repository, in the
    order of registration, with the URL, the branch and the policy of the
    repository, the directory [baseDir/organization/name], and the default
    budgets: 3 retries, 60 seconds to connect, 10 minutes in all. *)
Theorem CloneAll_prepares E b (rs : list Repository.t) :
  (prepare E b 0 rs).*2 =
    options_for E b <$>
      filter (fun r => is_pending (Repository.Status r) = true) rs /\
  forall r,
    options_for E b r =
    CloneOptions.mk (Repository.URL r)
      (filepath_Join E [b; Repository.Organization r; Repository.Name r])
      (Repository.Branch r) 0 3 (60 * Duration.Second) (10 * Duration.Minute)
      (Repository.ExistingRepo r).
Proof.
  split; [|reflexivity]. generalize 0%nat.
  induction rs as [|r rs IH]; intros n; [reflexivity|].
  cbn [prepare]. destruct (is_pending (Repository.Status r)) eqn:Hp.
  - rewrite filter_cons_True by exact Hp.
    rewrite !fmap_cons. cbn [snd]. rewrite (IH (S n)). reflexivity.
  - rewrite filter_cons_False by congruence. apply IH.
Qed.

(** ** The pool: the result channel and the empty run *)

(** X15: the buffer of the result channel, made for [len(repos)] results,
    is never full when a worker comes to send: at most one result per job
    has been written, and a worker that holds a result finds room for it. *)
Theorem results_channel_has_room outside maxConcurrent jobs s :
  reachable outside maxConcurrent (length jobs) jobs s ->
  (length (delivered s) <= length jobs)%nat /\
  forall ws1 o e ws2,
    workers s = ws1 ++ Returned o e :: ws2 ->
    (length (results s) < length jobs)%nat.
Proof.
  intros Hreach. apply reachable_inv in Hreach.
  destruct Hreach as (Hjobs & _ & _ & _ & Hdel & _).
  apply Permutation_length in Hdel.
  assert (Hws : (length (workers s) <= length jobs)%nat).
  { rewrite <- Hjobs, length_app, length_fmap. lia. }
  split.
  - rewrite Hdel. pose proof (length_sent_results (workers s)). lia.
  - intros ws1 o e ws2 Heq. unfold delivered in Hdel.
    rewrite Heq, sent_middle in Hdel. rewrite Heq in Hws.
    cbn [sent_result app] in Hdel. rewrite !length_app in Hdel, Hws.
    cbn [length] in Hws.
    pose proof (length_sent_results ws1). pose proof (length_sent_results ws2).
    rewrite length_app in Hdel. lia.
Qed.

Lemma results_channel_has_room_witness :
  let one := opts_of "https://github.com/acme/one.git" "out/acme/one" 3 SkipExisting in
  let s := Build_State [] [Returned one None] 1 1 [] false [] in
  (length (delivered s) <= length [one])%nat /\
  forall ws1 o e ws2,
    workers s = ws1 ++ Returned o e :: ws2 ->
    (length (results s) < length [one])%nat.
Proof.
  intros one s.
  apply (results_channel_has_room
           (fun _ => env_of None None ("", None) (fun _ => ("", None)))
           1 [one] s).
  eapply reachable_step; [eapply reachable_step; [eapply reachable_step|]|].
  - apply reachable_init.
  - apply step_spawn.
  - apply (step_acquire _ 1 1 [] [] one []). lia.
  - apply (step_execute _ 1 1 [] [] one 0
             [EvMkdirAll "out/acme/one"; EvStat "out/acme/one/.git";
              EvProgress (skip_notice one)] None []).
    reflexivity.
Defined.

(** X16: with no job at all the run has two states, whatever
    [maxConcurrent] is: the start, and the stream closed with nothing on
    it, which the first step reaches. *)
Theorem empty_run_closes outside maxConcurrent s :
  reachable outside maxConcurrent 0 [] s ->
  (s = init [] \/ s = Build_State [] [] 0 0 [] true []) /\
  step outside maxConcurrent 0 (init []) (Build_State [] [] 0 0 [] true []).
Proof.
  intros Hreach. split; [|apply step_close].
  induction Hreach as [|s s' _ IH Hstep]; [left; reflexivity|].
  right. destruct IH as [-> | ->]; inversion Hstep; subst;
    try reflexivity;
    try match goal with
        | H : [] = _ ++ _ :: _ |- _ => destruct (app_cons_not_nil _ _ _ H)
        | H : _ ++ _ :: _ = [] |- _ =>
            symmetry in H; destruct (app_cons_not_nil _ _ _ H)
        | H : [] !! _ = Some _ |- _ => rewrite lookup_nil in H; discriminate
        end.
Qed.

Lemma empty_run_closes_witness :
  let outside := fun _ : nat => read_only_env in
  let s := Build_State [] [] 0 0 [] true [] in
  (s = init [] \/ s = Build_State [] [] 0 0 [] true []) /\
  step outside 0 0 (init []) (Build_State [] [] 0 0 [] true []).
Proof.
  intros outside s. apply (empty_run_closes outside 0 s).
  eapply reachable_step; [apply reachable_init | apply step_close].
Defined.

(** ** Filtering the repositories of an organization *)

Section FilterProperties.

Variable ToLower : string -> string.
Variable EqualFold : string -> string -> bool.

Local Abbreviation matches := (GitHub.matchesFilter ToLower EqualFold).
Local Abbreviation Filter := (GitHub.FilterRepositories ToLower EqualFold).

Lemma filter_loop f (repos acc : list GitHub.Repository) :
  foldl (fun filtered repo =>
           if negb (matches repo f) then filtered else filtered ++ [repo])
    acc repos =
  acc ++ filter (fun r => matches r f = true) repos.
Proof.
  revert acc. induction repos as [|r repos IH]; intros acc; simpl.
  - rewrite app_nil_r. reflexivity.
  - rewrite IH. destruct (matches r f) eqn:Hm; simpl.
    + rewrite filter_cons_True by exact Hm. rewrite <- app_assoc. reflexivity.
    + rewrite filter_cons_False by congruence. reflexivity.
Qed.

(** X17: [FilterRepositories] returns the repositories that match the
    filter, all of them and no other, in the order they came in; without a
    filter it returns the list as it is. *)
Theorem FilterRepositories_keeps_matching (repos : list GitHub.Repository) :
  Filter repos None = repos /\
  forall f,
    Filter repos (Some f) = filter (fun r => matches r f = true) repos /\
    Filter repos (Some f) `sublist_of` repos.
Proof.
  split; [reflexivity|]. intros f.
  assert (Heq : Filter repos (Some f) =
                filter (fun r => matches r f = true) repos).
  { unfold GitHub.FilterRepositories. rewrite filter_loop. reflexivity. }
  split; [exact Heq|]. rewrite Heq. apply sublist_filter.
Qed.

(** X18: filtering is idempotent: what has passed a filter passes it
    again. *)
Theorem FilterRepositories_idempotent (repos : list GitHub.Repository) f :
  Filter (Filter repos f) f = Filter repos f.
Proof.
  destruct f as [f|]; [|reflexivity].
  unfold GitHub.FilterRepositories. rewrite !filter_loop. simpl.
  induction repos as [|r repos IH]; [reflexivity|].
  destruct (matches r f) eqn:Hm.
  - rewrite (filter_cons_True _ r repos) by exact Hm.
    rewrite filter_cons_True by exact Hm. rewrite IH. reflexivity.
  - rewrite (filter_cons_False _ r repos) by congruence. exact IH.
Qed.

(** X19: the empty filter, which is what the interface starts with, and
    the same with visibility "all", keep every repository. *)
Theorem FilterRepositories_zero_filter (repos : list GitHub.Repository) :
  Filter repos (Some GitHub.zero_filter) = repos /\
  Filter repos (Some (GitHub.mkFilter "all" [] 0 0 0 "" None None)) = repos.
Proof.
  unfold GitHub.FilterRepositories. rewrite !filter_loop. simpl.
  split; induction repos as [|r repos IH]; try reflexivity;
    rewrite filter_cons_True by reflexivity; rewrite IH; reflexivity.
Qed.

Lemma topicMap_lookup (topics : list string) : forall (m : gmap string bool) k,
  default false
    (foldl (fun (m : gmap string bool) topic => <[ToLower topic := true]> m)
       m topics !! k) = true <->
  default false (m !! k) = true \/ k ∈ ToLower <$> topics.
Proof.
  induction topics as [|t topics IH]; intros m k; simpl.
  - rewrite elem_of_nil. tauto.
  - rewrite IH, elem_of_cons. destruct (decide (k = ToLower t)) as [->|Hne].
    + rewrite lookup_insert_eq. simpl. tauto.
    + rewrite lookup_insert_ne by congruence. tauto.
Qed.

Lemma all_required_spec (m : gmap string bool) required :
  GitHub.all_required ToLower m required = true <->
  forall r, r ∈ required -> default false (m !! ToLower r) = true.
Proof.
  induction required as [|r required IH]; simpl.
  - split; [intros _ r Hr; apply elem_of_nil in Hr; contradiction | auto].
  - destruct (default false (m !! ToLower r)) eqn:Hr; simpl.
    + rewrite IH. split.
      * intros H r' Hin. apply elem_of_cons in Hin as [->|Hin]; auto.
      * intros H r' Hin. apply H. apply elem_of_cons. auto.
    + split; [discriminate|]. intros H.
      specialize (H r ltac:(apply elem_of_cons; auto)). congruence.
Qed.

(** X20: [hasAllTopics] answers true exactly when every required topic is,
    lower-cased, the lower-casing of a topic of the repository; the order
    and the repetitions in either list play no part. *)
Theorem hasAllTopics_spec (repoTopics requiredTopics : list string) :
  GitHub.hasAllTopics ToLower repoTopics requiredTopics = true <->
  forall r, r ∈ requiredTopics -> ToLower r ∈ ToLower <$> repoTopics.
Proof.
  unfold GitHub.hasAllTopics.
  destruct requiredTopics as [|r0 required]; simpl.
  - split; [intros _ r Hr; apply elem_of_nil in Hr; contradiction | auto].
  - destruct repoTopics as [|t0 topics]; simpl.
    + split; [discriminate|]. intros H.
      specialize (H r0 ltac:(apply elem_of_cons; auto)).
      apply elem_of_nil in H. contradiction.
    + change (if negb (default false (?m !! ToLower r0)) then false
              else GitHub.all_required ToLower ?m required)
        with (GitHub.all_required ToLower m (r0 :: required)).
      rewrite all_required_spec. split; intros H r Hr; specialize (H r Hr).
      * apply (topicMap_lookup topics) in H.
        destruct H as [H|H]; [|apply elem_of_cons; auto].
        destruct (decide (ToLower r = ToLower t0)) as [Heq|Hne].
        -- rewrite Heq. apply elem_of_cons. auto.
        -- rewrite lookup_insert_ne in H by congruence.
           rewrite lookup_empty in H. discriminate.
      * apply (topicMap_lookup topics).
        apply elem_of_cons in H as [Heq|H]; [|auto].
        left. rewrite Heq, lookup_insert_eq. reflexivity.
Qed.

(** X21: a repository that matches a filter has a size within the bounds
    the filter sets (a bound of zero or less sets none); so that a filter
    whose lower bound exceeds its upper bound returns nothing. *)
Theorem FilterRepositories_size_bounds (repos : list GitHub.Repository) f :
  (forall r, r ∈ Filter repos (Some f) ->
     (0 < GitHub.MinSize f -> GitHub.MinSize f <= GitHub.GetSize r) /\
     (0 < GitHub.MaxSize f -> GitHub.GetSize r <= GitHub.MaxSize f)) /\
  (0 < GitHub.MaxSize f < GitHub.MinSize f -> Filter repos (Some f) = []).
Proof.
  assert (Hbounds : forall r, matches r f = true ->
            (0 < GitHub.MinSize f -> GitHub.MinSize f <= GitHub.GetSize r) /\
            (0 < GitHub.MaxSize f -> GitHub.GetSize r <= GitHub.MaxSize f)).
  { intros r. unfold GitHub.matchesFilter.
    repeat (match goal with
            | |- context [if ?c then false else _] => destruct c eqn:?
            end; try discriminate).
    intros _. split; intros Hpos.
    - destruct (0 <? GitHub.MinSize f) eqn:Hp; [|apply Z.ltb_ge in Hp; lia].
      destruct (GitHub.GetSize r <? GitHub.MinSize f) eqn:Hlt;
        [simpl in *; discriminate | apply Z.ltb_ge in Hlt; lia].
    - destruct (0 <? GitHub.MaxSize f) eqn:Hp; [|apply Z.ltb_ge in Hp; lia].
      destruct (GitHub.MaxSize f <? GitHub.GetSize r) eqn:Hlt;
        [simpl in *; discriminate | apply Z.ltb_ge in Hlt; lia]. }
  unfold GitHub.FilterRepositories. rewrite filter_loop. simpl. split.
  - intros r Hr. apply list_elem_of_filter in Hr as [Hm _]. exact (Hbounds r Hm).
  - intros Hcontra. induction repos as [|r repos IH]; [reflexivity|].
    rewrite filter_cons_False; [exact IH|].
    intros Hm. destruct (Hbounds r Hm) as [Hlo Hhi]. lia.
Qed.

End FilterProperties.

(** ** The repository selection view *)

Section TuiProperties.

Import Tui.

Lemma GetPageRepos_shown r :
  fits (repositories r) -> 0 <= page r <= 2 ^ 59 ->
  GetPageRepos r =
  Some (take 10 (drop (Z.to_nat (10 * page r)) (repositories r))).
Proof.
  unfold fits, GetPageRepos, GoInt.mul, GoInt.add, reposPerPage, len.
  intros Hfit Hpage.
  rewrite (wrap_small (page r * 10)) by (unfold GoInt.in_range, GoInt.min_int, GoInt.max_int; lia).
  rewrite wrap_small by (unfold GoInt.in_range, GoInt.min_int, GoInt.max_int; lia).
  replace (10 * page r) with (page r * 10) by lia.
  destruct (Z.of_nat (length (repositories r)) <=? page r * 10) eqn:Hstart.
  - apply Z.leb_le in Hstart.
    rewrite drop_ge by lia. reflexivity.
  - apply Z.leb_gt in Hstart. unfold slice, len.
    destruct (Z.of_nat (length (repositories r)) <? page r * 10 + 10) eqn:Hend.
    + apply Z.ltb_lt in Hend.
      replace (page r * 10 <? 0) with false by (symmetry; apply Z.ltb_ge; lia).
      replace (Z.of_nat (length (repositories r)) <? page r * 10) with false
        by (symmetry; apply Z.ltb_ge; lia).
      rewrite Z.ltb_irrefl. simpl. f_equal.
      rewrite !take_ge; [reflexivity | |]; rewrite length_drop; lia.
    + apply Z.ltb_ge in Hend.
      replace (page r * 10 <? 0) with false by (symmetry; apply Z.ltb_ge; lia).
      replace (page r * 10 + 10 <? page r * 10) with false
        by (symmetry; apply Z.ltb_ge; lia).
      replace (Z.of_nat (length (repositories r)) <? page r * 10 + 10)
        with false by (symmetry; apply Z.ltb_ge; lia).
      simpl. do 2 f_equal. lia.
Qed.

Ltac go_int :=
  unfold GoInt.add, GoInt.sub, GoInt.mul;
  repeat match goal with
         | |- context [GoInt.wrap ?z] =>
             rewrite (wrap_small z)
               by (unfold GoInt.in_range, GoInt.min_int, GoInt.max_int; lia)
         end.

Lemma shown_len {A} (l : list A) p :
  0 <= p ->
  len (take 10 (drop (Z.to_nat (10 * p)) l)) =
  Z.max 0 (Z.min 10 (len l - 10 * p)).
Proof.
  intros Hp. unfold len. rewrite length_take, length_drop. lia.
Qed.

Lemma totalPages_bound n :
  0 <= n < 2 ^ 60 -> 0 <= (n + 9) / 10 <= 2 ^ 59.
Proof.
  intros Hn. split.
  - apply Z.div_pos; lia.
  - apply Z.div_le_upper_bound; lia.
Qed.

Lemma on_page_arith r :
  on_page r <->
  fits (repositories r) /\
  totalPages r = (len (repositories r) + 9) / 10 /\
  0 <= page r /\ (page r < totalPages r \/ page r = 0) /\
  0 <= cursor r /\
  (cursor r < Z.min 10 (len (repositories r) - 10 * page r) \/ cursor r = 0).
Proof.
  unfold on_page. split.
  - intros (Hfit & Htot & Hp & Hpt & shown & _ & -> & Hc & Hcs).
    repeat (split; [assumption|]).
    rewrite shown_len in Hcs by exact Hp. lia.
  - intros (Hfit & Htot & Hp & Hpt & Hc & Hcs).
    repeat (split; [assumption|]).
    eexists. split; [|split; [reflexivity|]].
    + apply GetPageRepos_shown; [exact Hfit|].
      pose proof (totalPages_bound (len (repositories r))) as Hb.
      unfold fits, len in *. lia.
    + rewrite shown_len by exact Hp. lia.
Qed.

Lemma SetRepositories_totalPages r repos :
  fits repos ->
  totalPages (SetRepositories r repos) = (len repos + 9) / 10.
Proof.
  intros Hfit. cbn [SetRepositories totalPages].
  unfold fits, len, reposPerPage in *. go_int.
  rewrite Z.quot_div_nonneg by lia. f_equal. lia.
Qed.

(** X22: once [SetRepositories] has stored a list, the pages
    [GetPageRepos] shows cover it: the repository at index [i] is entry
    [i mod 10] of page [i / 10], and each of the [totalPages] pages shows
    between one and ten repositories. *)
Theorem pages_cover_repositories r (repos : list GitHub.Repository) :
  fits repos ->
  let r' := SetRepositories r repos in
  (forall (i : nat) x, repos !! i = Some x ->
     0 <= Z.of_nat (i / 10) < totalPages r' /\
     exists shown,
       GetPageRepos (with_page r' (Z.of_nat (i / 10))) = Some shown /\
       shown !! (i mod 10)%nat = Some x) /\
  (forall p, 0 <= p < totalPages r' ->
     exists shown,
       GetPageRepos (with_page r' p) = Some shown /\ 0 < len shown <= 10).
Proof.
  intros Hfit r'. subst r'.
  pose proof (SetRepositories_totalPages r repos Hfit) as Htot.
  pose proof (totalPages_bound (len repos)) as Hb.
  assert (Hlen : 0 <= len repos < 2 ^ 60) by (unfold fits, len in *; lia).
  specialize (Hb Hlen). split.
  - intros i x Hi.
    assert (Hlt : (i < length repos)%nat) by (eapply lookup_lt_Some; eauto).
    assert (Hp : 0 <= Z.of_nat (i / 10) < (len repos + 9) / 10).
    { rewrite Nat2Z.inj_div. change (Z.of_nat 10) with 10. unfold len.
      split; [apply Z.div_pos; lia|].
      apply Z.div_lt_upper_bound; [lia|].
      pose proof (Z.mul_div_le (Z.of_nat i) 10 ltac:(lia)).
      pose proof (Z.mod_pos_bound (Z.of_nat (length repos) + 9) 10 ltac:(lia)).
      pose proof (Z.div_mod (Z.of_nat (length repos) + 9) 10 ltac:(lia)).
      lia. }
    rewrite Htot. split; [exact Hp|].
    eexists. split.
    + apply GetPageRepos_shown; cbn [with_page SetRepositories page repositories]; [exact Hfit | lia].
    + cbn [with_page SetRepositories page repositories]. rewrite lookup_take_lt by (apply Nat.mod_upper_bound; lia).
      rewrite lookup_drop, <- Hi. f_equal.
      rewrite Z2Nat.inj_mul, Nat2Z.id by lia.
      change (Z.to_nat 10) with 10%nat.
      symmetry. apply Nat.div_mod_eq.
  - intros p Hp. rewrite Htot in Hp.
    eexists. split.
    + apply GetPageRepos_shown; cbn [with_page SetRepositories page repositories]; [exact Hfit | lia].
    + cbn [with_page SetRepositories page repositories]. rewrite shown_len by lia.
      assert (10 * p < len repos); [|lia].
      pose proof (Z.mul_div_le (len repos + 9) 10 ltac:(lia)). lia.
Qed.

Lemma pages_cover_repositories_witness :
  let repos := replicate 23 (GitHub.mkRepository (Some "o/r"%string) None []
                               None None None None None) in
  fits repos /\
  exists shown,
    GetPageRepos (with_page (SetRepositories NewRepositoriesModel repos) 2)
    = Some shown /\ 0 < len shown <= 10.
Proof.
  intros repos.
  assert (Hfit : fits repos) by (unfold fits; vm_compute; reflexivity).
  split; [exact Hfit|].
  apply (proj2 (pages_cover_repositories NewRepositoriesModel repos Hfit)).
  vm_compute. split; [discriminate | reflexivity].
Defined.

Lemma on_page_frame r r' :
  repositories r' = repositories r -> page r' = page r ->
  totalPages r' = totalPages r -> cursor r' = cursor r ->
  on_page r -> on_page r'.
Proof.
  intros Hr Hp Ht Hc. rewrite !on_page_arith, Hr, Hp, Ht, Hc. tauto.
Qed.

Lemma on_page_cursor r shown :
  on_page r -> GetPageRepos r = Some shown ->
  0 <= len shown <= 10 /\ 0 <= cursor r /\
  (cursor r < len shown \/ cursor r = 0).
Proof.
  intros (_ & _ & Hp & _ & shown' & Hshown & -> & Hc & Hcs) Hget.
  rewrite Hshown in Hget. injection Hget as <-.
  rewrite shown_len in * by exact Hp. lia.
Qed.

(** X23: no message makes [updateRepositoriesView] panic, and none moves
    the cursor off the page shown: from a state where the page is one of the
    pages and the cursor is on one of its entries (or both are zero, the list
    being empty), the update returns and leaves such a state. *)
Theorem updateRepositoriesView_stays_on_page m msg :
  on_page (model_repositories m) -> msg_fits msg ->
  exists m' cmd,
    updateRepositoriesView m msg = Some (m', cmd) /\
    on_page (model_repositories m').
Proof.
  destruct m as [view r]. cbn [model_repositories]. intros Hinv Hmsg.
  assert (Hsame : forall r', repositories r' = repositories r ->
            page r' = page r -> totalPages r' = totalPages r ->
            cursor r' = cursor r ->
            exists m' cmd,
              Some (mkModel view r', @None Cmd) = Some (m', cmd) /\
              on_page (model_repositories m')).
  { intros r' H1 H2 H3 H4. do 2 eexists. split; [reflexivity|].
    apply (on_page_frame r); assumption. }
  pose proof Hinv as Hinv'. pose proof Hinv as Harith.
  apply on_page_arith in Harith.
  destruct Harith as (Hfit & Htot & Hp & Hpt & Hc & Hcs).
  pose proof (totalPages_bound (len (repositories r))) as Hb.
  assert (Hlen : 0 <= len (repositories r) < 2 ^ 60)
    by (unfold fits, len in *; lia).
  specialize (Hb Hlen).
  destruct msg as [repos|e|key|]; unfold updateRepositoriesView;
    cbn [model_repositories currentView].
  - simpl in Hmsg. do 2 eexists. split; [reflexivity|]. apply on_page_arith.
    cbn [model_repositories]. rewrite SetRepositories_totalPages by exact Hmsg.
    cbn [SetRepositories repositories page cursor].
    pose proof (totalPages_bound (len repos)) as Hb'.
    assert (0 <= len repos < 2 ^ 60) by (unfold fits, len in *; lia).
    repeat apply conj; auto; unfold fits, len in *; lia.
  - apply Hsame; reflexivity.
  - destruct Hinv as (_ & _ & _ & _ & shown & Hshown & Heq & _ & _).
    assert (Hsl : len shown =
                  Z.max 0 (Z.min 10 (len (repositories r) - 10 * page r)))
      by (rewrite Heq; apply shown_len; exact Hp).
    rewrite Hshown.
    destruct (key_is key "up" "k"); [|destruct (key_is key "down" "j");
      [|destruct (key_is key "left" "h"); [|destruct (key_is key "right" "l");
      [|destruct (String.eqb key " "); [|destruct (String.eqb key "f");
      [|destruct (String.eqb key "enter")]]]]]].
    + destruct (0 <? cursor r) eqn:Hpos; [|apply Hsame; reflexivity].
      apply Z.ltb_lt in Hpos. do 2 eexists. split; [reflexivity|].
      apply on_page_arith.
      cbn [model_repositories with_cursor repositories page totalPages cursor].
      go_int. repeat apply conj; auto; unfold fits, len in *; lia.
    + go_int.
      destruct (cursor r <? len shown - 1) eqn:Hlt;
        [|apply Hsame; reflexivity].
      apply Z.ltb_lt in Hlt. do 2 eexists. split; [reflexivity|].
      apply on_page_arith.
      cbn [model_repositories with_cursor repositories page totalPages cursor].
      go_int. repeat apply conj; auto; unfold fits, len in *; lia.
    + destruct (0 <? page r) eqn:Hpos; [|apply Hsame; reflexivity].
      apply Z.ltb_lt in Hpos. do 2 eexists. split; [reflexivity|].
      apply on_page_arith.
      cbn [model_repositories with_cursor with_page repositories page
             totalPages cursor].
      go_int. repeat apply conj; auto; unfold fits, len in *; lia.
    + go_int.
      destruct (page r <? totalPages r - 1) eqn:Hlt;
        [|apply Hsame; reflexivity].
      apply Z.ltb_lt in Hlt. do 2 eexists. split; [reflexivity|].
      apply on_page_arith.
      cbn [model_repositories with_cursor with_page repositories page
             totalPages cursor].
      go_int. repeat apply conj; auto; unfold fits, len in *; lia.
    + destruct (cursor r <? len shown) eqn:Hlt; [|apply Hsame; reflexivity].
      apply Z.ltb_lt in Hlt. unfold index.
      replace (cursor r <? 0) with false by (symmetry; apply Z.ltb_ge; lia).
      destruct (shown !! Z.to_nat (cursor r)) as [repo|] eqn:Hrepo.
      * apply Hsame; reflexivity.
      * apply lookup_ge_None in Hrepo. unfold len in Hlt. lia.
    + apply Hsame; reflexivity.
    + destruct (0 <? Z.of_nat (size (selectedRepos r)));
        [|apply Hsame; reflexivity].
      do 2 eexists. split; [reflexivity|]. exact Hinv'.
    + apply Hsame; reflexivity.
  - apply Hsame; reflexivity.
Qed.

Lemma updateRepositoriesView_stays_on_page_witness :
  let repo := GitHub.mkRepository (Some "o/r"%string) None [] None None None
                None None in
  let m := mkModel ViewRepositories
             (SetRepositories NewRepositoriesModel (replicate 23 repo)) in
  on_page (model_repositories m) /\
  exists m' cmd,
    updateRepositoriesView m (KeyMsg "down") = Some (m', cmd) /\
    on_page (model_repositories m').
Proof.
  intros repo m.
  assert (Hinv : on_page (model_repositories m)).
  { unfold on_page. repeat apply conj.
    - unfold fits. vm_compute. reflexivity.
    - vm_compute. reflexivity.
    - vm_compute. discriminate.
    - left. vm_compute. reflexivity.
    - eexists. repeat apply conj.
      + vm_compute. reflexivity.
      + vm_compute. reflexivity.
      + vm_compute. discriminate.
      + left. vm_compute. reflexivity. }
  split; [exact Hinv|].
  apply (updateRepositoriesView_stays_on_page m (KeyMsg "down") Hinv).
  simpl. exact I.
Defined.

Ltac update_cases H :=
  unfold updateRepositoriesView in H;
  repeat match type of H with
         | context [if ?c then _ else _] => destruct c eqn:?
         | context [match GetPageRepos ?r with _ => _ end] =>
             destruct (GetPageRepos r) eqn:?
         | context [match index ?l ?i with _ => _ end] =>
             destruct (index l i) eqn:?
         end;
  try discriminate H.

Lemma update_space view r shown repo :
  GetPageRepos r = Some shown ->
  (cursor r <? len shown) = true ->
  index shown (cursor r) = Some repo ->
  updateRepositoriesView (mkModel view r) (KeyMsg " ") =
  Some (mkModel view
          (mkRepositoriesModel (repositories r)
             (<[GitHub.GetFullName repo :=
                  negb (default false
                          (selectedRepos r !! GitHub.GetFullName repo))]>
                (selectedRepos r))
             (cursor r) (page r) (totalPages r) (filterVisible r) (error r)),
        None).
Proof.
  intros H1 H2 H3. unfold updateRepositoriesView.
  cbn [model_repositories currentView].
  change (key_is " " "up" "k") with false.
  change (key_is " " "down" "j") with false.
  change (key_is " " "left" "h") with false.
  change (key_is " " "right" "l") with false.
  change (String.eqb " " " ") with true.
  cbn iota. rewrite H1, H2, H3. reflexivity.
Qed.

Lemma update_enter view r :
  updateRepositoriesView (mkModel view r) (KeyMsg "enter") =
  if 0 <? Z.of_nat (size (selectedRepos r))
  then Some (mkModel ViewProgress r, Some startCloning)
  else Some (mkModel view r, None).
Proof. reflexivity. Qed.

(** X24: a repository that has been ticked and unticked leaves its key in
    [selectedRepos], so that [enter] starts the cloning although nothing is
    selected: from a state that shows a repository and has none selected,
    two presses of the space bar followed by [enter] switch to the progress
    view and issue [startCloning], with no repository selected. *)
Theorem unticked_repository_still_starts_cloning m :
  on_page (model_repositories m) ->
  repositories (model_repositories m) <> [] ->
  (forall fullName,
     default false (selectedRepos (model_repositories m) !! fullName)
     = false) ->
  exists m1 m2 m3,
    updateRepositoriesView m (KeyMsg " ") = Some (m1, None) /\
    updateRepositoriesView m1 (KeyMsg " ") = Some (m2, None) /\
    updateRepositoriesView m2 (KeyMsg "enter") = Some (m3, Some startCloning) /\
    currentView m3 = ViewProgress /\
    forall fullName,
      default false (selectedRepos (model_repositories m3) !! fullName)
      = false.
Proof.
  destruct m as [view r]. cbn [model_repositories]. intros Hinv Hne Hnone.
  pose proof Hinv as Harith. apply on_page_arith in Harith.
  destruct Harith as (Hfit & Htot & Hp & Hpt & Hc & Hcs).
  destruct Hinv as (_ & _ & _ & _ & shown & Hshown & Heq & _ & _).
  assert (Hsl : len shown =
                Z.max 0 (Z.min 10 (len (repositories r) - 10 * page r)))
    by (rewrite Heq; apply shown_len; exact Hp).
  assert (Hpos : 0 < len (repositories r)).
  { unfold len. destruct (repositories r); [congruence | simpl; lia]. }
  assert (Hcur : 0 <= cursor r < len shown).
  { assert (10 * page r < len (repositories r)).
    { destruct Hpt as [Hlt| ->]; [|unfold len in *; lia].
      pose proof (Z.mul_div_le (len (repositories r) + 9) 10 ltac:(lia)).
      unfold len in *. lia. }
    unfold len in *. lia. }
  destruct (shown !! Z.to_nat (cursor r)) as [repo|] eqn:Hrepo;
    [|apply lookup_ge_None in Hrepo; unfold len in Hcur; lia].
  assert (Hidx : index shown (cursor r) = Some repo).
  { unfold index.
    replace (cursor r <? 0) with false by (symmetry; apply Z.ltb_ge; lia).
    exact Hrepo. }
  assert (Hlt : (cursor r <? len shown) = true) by (apply Z.ltb_lt; lia).
  set (fullName := GitHub.GetFullName repo).
  set (sel1 := <[fullName := true]> (selectedRepos r)).
  set (sel2 := <[fullName := false]> sel1).
  set (r1 := mkRepositoriesModel (repositories r) sel1 (cursor r) (page r)
               (totalPages r) (filterVisible r) (error r)).
  set (r2 := mkRepositoriesModel (repositories r) sel2 (cursor r) (page r)
               (totalPages r) (filterVisible r) (error r)).
  exists (mkModel view r1), (mkModel view r2), (mkModel ViewProgress r2).
  assert (Hshown1 : GetPageRepos r1 = Some shown) by exact Hshown.
  repeat apply conj.
  - rewrite (update_space view r shown repo Hshown Hlt Hidx).
    fold fullName. rewrite (Hnone fullName). reflexivity.
  - rewrite (update_space view r1 shown repo Hshown1 Hlt Hidx).
    fold fullName. cbn [selectedRepos r1 repositories cursor page totalPages
                          filterVisible error].
    unfold sel1 at 1. rewrite lookup_insert_eq. reflexivity.
  - rewrite update_enter. cbn [selectedRepos r2].
    assert (Hsize : size sel2 <> 0%nat).
    { apply map_size_non_empty_iff. unfold sel2. apply insert_non_empty. }
    replace (0 <? Z.of_nat (size sel2)) with true
      by (symmetry; apply Z.ltb_lt; lia).
    reflexivity.
  - reflexivity.
  - intros k. cbn [model_repositories selectedRepos r2]. unfold sel2, sel1.
    destruct (decide (k = fullName)) as [->|Hk].
    + rewrite lookup_insert_eq. reflexivity.
    + rewrite !lookup_insert_ne by congruence. apply Hnone.
Qed.

Lemma unticked_repository_still_starts_cloning_witness :
  let repo := GitHub.mkRepository (Some "o/r"%string) None [] None None None
                None None in
  let m := mkModel ViewRepositories
             (SetRepositories NewRepositoriesModel [repo]) in
  exists m3,
    (exists m1 m2,
       updateRepositoriesView m (KeyMsg " ") = Some (m1, None) /\
       updateRepositoriesView m1 (KeyMsg " ") = Some (m2, None) /\
       updateRepositoriesView m2 (KeyMsg "enter")
       = Some (m3, Some startCloning)) /\
    currentView m3 = ViewProgress /\
    forall fullName,
      default false (selectedRepos (model_repositories m3) !! fullName)
      = false.
Proof.
  intros repo m.
  destruct (unticked_repository_still_starts_cloning m)
    as (m1 & m2 & m3 & H1 & H2 & H3 & H4 & H5).
  - unfold on_page. repeat apply conj.
    + unfold fits. vm_compute. reflexivity.
    + vm_compute. reflexivity.
    + vm_compute. discriminate.
    + left. vm_compute. reflexivity.
    + eexists. repeat apply conj.
      * vm_compute. reflexivity.
      * vm_compute. reflexivity.
      * vm_compute. discriminate.
      * left. vm_compute. reflexivity.
  - simpl. discriminate.
  - intros fullName. simpl. rewrite lookup_empty. reflexivity.
  - exists m3. split; [exists m1, m2; auto | auto].
Defined.

(** X25: no message removes a key from [selectedRepos]: the number the view
    reports as selected never goes down, and once [enter] is enabled it
    stays so. *)
Theorem selectedRepos_keys_stay m msg m' cmd :
  updateRepositoriesView m msg = Some (m', cmd) ->
  dom (selectedRepos (model_repositories m))
    ⊆ dom (selectedRepos (model_repositories m')) /\
  (size (selectedRepos (model_repositories m))
   <= size (selectedRepos (model_repositories m')))%nat.
Proof.
  intros H.
  assert (Hdom : dom (selectedRepos (model_repositories m))
                   ⊆ dom (selectedRepos (model_repositories m'))).
  { destruct msg as [repos|e|key|]; update_cases H;
      inversion H; subst; cbn [model_repositories selectedRepos
                                   SetRepositories with_cursor with_page];
      try reflexivity.
    apply dom_insert_subseteq. }
  split; [exact Hdom|].
  rewrite <- !size_dom. apply subseteq_size. exact Hdom.
Qed.

Lemma selectedRepos_keys_stay_witness :
  let repo := GitHub.mkRepository (Some "o/r"%string) None [] None None None
                None None in
  let r := SetRepositories NewRepositoriesModel [repo] in
  let m := mkModel ViewRepositories r in
  let r' := mkRepositoriesModel [repo] {[ "o/r"%string := true ]} 0 0 1
              false None in
  updateRepositoriesView m (KeyMsg " ") = Some (mkModel ViewRepositories r', None)
  /\ (size (selectedRepos r) <= size (selectedRepos r'))%nat.
Proof.
  intros repo r m r'.
  assert (H : updateRepositoriesView m (KeyMsg " ")
              = Some (mkModel ViewRepositories r', None))
    by (vm_compute; reflexivity).
  split; [exact H|].
  exact (proj2 (selectedRepos_keys_stay m (KeyMsg " ") _ _ H)).
Defined.

(** X26: [startCloning] is issued by [enter] alone, and only when
    [selectedRepos] has a key; the view then becomes the progress view and
    the selection state is left as it was. *)
Theorem startCloning_only_on_enter m msg m' c :
  updateRepositoriesView m msg = Some (m', Some c) ->
  msg = KeyMsg "enter" /\
  selectedRepos (model_repositories m) <> ∅ /\
  m' = mkModel ViewProgress (model_repositories m).
Proof.
  intros H. destruct msg as [repos|e|key|]; update_cases H.
  inversion H; subst.
  match goal with
  | Hk : String.eqb key "enter" = true |- _ => apply String.eqb_eq in Hk as ->
  end.
  repeat apply conj; try reflexivity.
  match goal with
  | Hs : (0 <? Z.of_nat (size _)) = true |- _ =>
      apply Z.ltb_lt in Hs; intros Hempty; rewrite Hempty, map_size_empty in Hs;
      lia
  end.
Qed.

Lemma startCloning_only_on_enter_witness :
  let r := mkRepositoriesModel [] {[ "o/r"%string := false ]} 0 0 0 false
             None in
  let m := mkModel ViewRepositories r in
  updateRepositoriesView m (KeyMsg "enter")
  = Some (mkModel ViewProgress r, Some startCloning) /\
  selectedRepos r <> ∅.
Proof.
  intros r m.
  assert (H : updateRepositoriesView m (KeyMsg "enter")
              = Some (mkModel ViewProgress r, Some startCloning))
    by (vm_compute; reflexivity).
  split; [exact H|].
  exact (proj1 (proj2 (startCloning_only_on_enter m _ _ _ H))).
Defined.

End TuiProperties.
